(** * physics-lab: the simulation engine of [src/workers/physics]

    A shallow embedding of [types.ts] (vector and quaternion helpers),
    [forces.ts], [integrators.ts] and [engine.ts], followed by the
    properties of the engine stated in the specification.

    Conventions of the embedding.
    - A JavaScript [number] is a value of an abstract arithmetic, the class
      [Number] below: the code's operators and [Math] functions are its
      operations, applied in the order the source applies them.  What is
      proved for an arbitrary instance holds for every such arithmetic.
      The laws of a field are used only where the arithmetic is that of
      the real numbers, the instance [real_arithmetic]: there a number is
      exact, and rounding, NaN and infinities do not exist.  The instance
      [binary64_arithmetic] runs the embedding on machine numbers.
    - [stepIndex] counts executed steps and is an integer ([Z]).
    - A [Vector3] is a three-field record, a [Quaternion] a four-field one.
    - Arrays are lists; [xs[i]] is the partial lookup [xs !! i].  Reading a
      component or a field of [undefined] throws a [TypeError] in
      JavaScript: a computation that can do so returns an [option], and
      [None] stands for the throw.
    - The engine object is a record, its methods are functions from the
      record to the new record. *)

From Stdlib Require Import ZArith Reals Lra Floats.
From stdpp Require Import base option list gmap strings.

Set Default Proof Using "Type".

(** ** Arithmetic *)

Class Number (num : Type) : Type := MkNumber {
  zero : num;                               (* the literal 0 *)
  one : num;                                (* the literal 1 *)
  two : num;                                (* the literal 2 *)
  six : num;                                (* the literal 6 *)
  half : num;                               (* the literal 0.5 *)
  add : num → num → num;                    (* x + y *)
  sub : num → num → num;                    (* x - y *)
  mul : num → num → num;                    (* x * y *)
  div : num → num → num;                    (* x / y *)
  neg : num → num;                          (* -x *)
  sqrt : num → num;                         (* Math.sqrt(x) *)
  hypot4 : num → num → num → num → num;     (* Math.hypot(a, b, c, d) *)
  gtb : num → num → bool;                   (* x > y *)
  leb : num → num → bool;                   (* x <= y *)
  eqb : num → num → bool                    (* x === y *)
}.

(** The operations written infix, as the source writes them. *)
Declare Scope num_scope.
Delimit Scope num_scope with num.
Infix "+" := add : num_scope.
Infix "-" := sub : num_scope.
Infix "*" := mul : num_scope.
Infix "/" := div : num_scope.

(** ** Loops *)

Section Loops.
Context {A : Type}.

(** [for (let i = 0; i < xs.length; i++) { ... xs[i] ... }] where the
    body reads and writes element [i] of [xs] only: [body i x] is the
    element after the iteration, [None] when the iteration throws. *)
Fixpoint loopFrom (body : nat → A → option A) (i : nat) (xs : list A)
  : option (list A) :=
  match xs with
  | [] => Some []
  | x :: rest =>
      x' ← body i x;
      rest' ← loopFrom body (S i) rest;
      Some (x' :: rest')
  end.

Definition forEachIndex (body : nat → A → option A) (xs : list A)
  : option (list A) :=
  loopFrom body 0 xs.

(** [for (const x of xs) { ... }] threading the variables the body
    assigns; [continue] is a body that returns them unchanged. *)
Fixpoint forOf {S : Type} (body : S → A → option S) (acc : S) (xs : list A)
  : option S :=
  match xs with
  | [] => Some acc
  | x :: rest => acc' ← body acc x; forOf body acc' rest
  end.
End Loops.

Section Model.
Context {num : Type} {arith : Number num}.

(** ** types.ts *)

Record Vector3 : Type := V3 { v0 : num; v1 : num; v2 : num }.
Record Quaternion : Type := Quat { q0 : num; q1 : num; q2 : num; q3 : num }.

Record PointMassConfig : Type := MkPointMassConfig {
  pmc_id : string;
  pmc_mass : num;
  pmc_position : Vector3;
  pmc_velocity : Vector3;
  pmc_radius : option num;
  pmc_color : option string
}.

Record RigidBodyBoxConfig : Type := MkRigidBodyBoxConfig {
  rbc_id : string;
  rbc_mass : num;
  rbc_size : Vector3;
  rbc_position : Vector3;
  rbc_velocity : Vector3;
  rbc_orientation : Quaternion;
  rbc_angularVelocity : Vector3;
  rbc_color : option string
}.

Record SpringConfig : Type := MkSpringConfig {
  sp_id : string;
  aId : string;
  bId : string;
  restLength : num;
  stiffness : num;
  damping : option num
}.

Inductive JointType : Type := fixed | hinge.

Record JointConfig : Type := MkJointConfig {
  jt_id : string;
  jt_type : JointType;
  jt_aId : string;
  jt_bId : string
}.

Record GravityForceConfig : Type := MkGravityForceConfig {
  g : num;
  direction : option Vector3
}.

Record LinearDragForceConfig : Type := MkLinearDragForceConfig {
  coefficient : num
}.

Record ForcesConfig : Type := MkForcesConfig {
  gravity : option GravityForceConfig;
  linearDrag : option LinearDragForceConfig
}.

Inductive IntegratorName : Type := euler | semi | rk4.

Record SimulationConfig : Type := MkSimulationConfig {
  cfg_dt : num;
  cfg_integrator : IntegratorName;
  cfg_snapshotIntervalMs : option num;
  cfg_forces : option ForcesConfig;
  cfg_pointMasses : option (list PointMassConfig);
  cfg_rigidBodies : option (list RigidBodyBoxConfig);
  cfg_springs : option (list SpringConfig);
  cfg_joints : option (list JointConfig)
}.

Record PointMassState : Type := MkPointMassState {
  pm_id : string;
  pm_mass : num;
  pm_position : Vector3;
  pm_velocity : Vector3
}.

Record RigidBodyBoxState : Type := MkRigidBodyBoxState {
  rb_id : string;
  rb_mass : num;
  rb_size : Vector3;
  rb_position : Vector3;
  rb_velocity : Vector3;
  rb_orientation : Quaternion;
  rb_angularVelocity : Vector3
}.

Record SimulationState : Type := MkSimulationState {
  time : num;
  stepIndex : Z;
  pointMasses : list PointMassState;
  rigidBodies : list RigidBodyBoxState
}.

(** Field assignments [p.position = v], [r.velocity = v], ... *)

Definition pm_setPosition (p : PointMassState) (v : Vector3) : PointMassState :=
  {| pm_id := pm_id p; pm_mass := pm_mass p;
     pm_position := v; pm_velocity := pm_velocity p |}.

Definition pm_setVelocity (p : PointMassState) (v : Vector3) : PointMassState :=
  {| pm_id := pm_id p; pm_mass := pm_mass p;
     pm_position := pm_position p; pm_velocity := v |}.

Definition rb_setPosition (r : RigidBodyBoxState) (v : Vector3) : RigidBodyBoxState :=
  {| rb_id := rb_id r; rb_mass := rb_mass r; rb_size := rb_size r;
     rb_position := v; rb_velocity := rb_velocity r;
     rb_orientation := rb_orientation r;
     rb_angularVelocity := rb_angularVelocity r |}.

Definition rb_setVelocity (r : RigidBodyBoxState) (v : Vector3) : RigidBodyBoxState :=
  {| rb_id := rb_id r; rb_mass := rb_mass r; rb_size := rb_size r;
     rb_position := rb_position r; rb_velocity := v;
     rb_orientation := rb_orientation r;
     rb_angularVelocity := rb_angularVelocity r |}.

Definition rb_setOrientation (r : RigidBodyBoxState) (q : Quaternion)
  : RigidBodyBoxState :=
  {| rb_id := rb_id r; rb_mass := rb_mass r; rb_size := rb_size r;
     rb_position := rb_position r; rb_velocity := rb_velocity r;
     rb_orientation := q;
     rb_angularVelocity := rb_angularVelocity r |}.

Definition rb_setAngularVelocity (r : RigidBodyBoxState) (v : Vector3)
  : RigidBodyBoxState :=
  {| rb_id := rb_id r; rb_mass := rb_mass r; rb_size := rb_size r;
     rb_position := rb_position r; rb_velocity := rb_velocity r;
     rb_orientation := rb_orientation r;
     rb_angularVelocity := v |}.

Definition st_setTime (s : SimulationState) (t : num) : SimulationState :=
  {| time := t; stepIndex := stepIndex s;
     pointMasses := pointMasses s; rigidBodies := rigidBodies s |}.

Definition st_setStepIndex (s : SimulationState) (n : Z) : SimulationState :=
  {| time := time s; stepIndex := n;
     pointMasses := pointMasses s; rigidBodies := rigidBodies s |}.

Definition st_setPointMasses (s : SimulationState) (ps : list PointMassState)
  : SimulationState :=
  {| time := time s; stepIndex := stepIndex s;
     pointMasses := ps; rigidBodies := rigidBodies s |}.

Definition st_setRigidBodies (s : SimulationState) (rs : list RigidBodyBoxState)
  : SimulationState :=
  {| time := time s; stepIndex := stepIndex s;
     pointMasses := pointMasses s; rigidBodies := rs |}.

(** Utility helpers *)

Definition vecZero : Vector3 := V3 zero zero zero.

Definition vecAdd (a b : Vector3) : Vector3 :=
  V3 (add (v0 a) (v0 b)) (add (v1 a) (v1 b)) (add (v2 a) (v2 b)).

Definition vecSub (a b : Vector3) : Vector3 :=
  V3 (sub (v0 a) (v0 b)) (sub (v1 a) (v1 b)) (sub (v2 a) (v2 b)).

Definition vecScale (a : Vector3) (s : num) : Vector3 :=
  V3 (mul (v0 a) s) (mul (v1 a) s) (mul (v2 a) s).

Definition vecDot (a b : Vector3) : num :=
  add (add (mul (v0 a) (v0 b)) (mul (v1 a) (v1 b))) (mul (v2 a) (v2 b)).

Definition vecLength (a : Vector3) : num := sqrt (vecDot a a).

Definition vecNormalize (a : Vector3) : Vector3 :=
  let len := vecLength a in
  if eqb len zero then vecZero else vecScale a (div one len).

Definition quatMultiply (a b : Quaternion) : Quaternion :=
  let '(Quat ax ay az aw) := a in
  let '(Quat bx by_ bz bw) := b in
  Quat
    (sub (add (add (mul aw bx) (mul ax bw)) (mul ay bz)) (mul az by_))
    (add (add (sub (mul aw by_) (mul ax bz)) (mul ay bw)) (mul az bx))
    (add (sub (add (mul aw bz) (mul ax by_)) (mul ay bx)) (mul az bw))
    (sub (sub (sub (mul aw bw) (mul ax bx)) (mul ay by_)) (mul az bz)).

Definition quatNormalize (q : Quaternion) : Quaternion :=
  let len := hypot4 (q0 q) (q1 q) (q2 q) (q3 q) in
  if eqb len zero then Quat zero zero zero one
  else Quat (div (q0 q) len) (div (q1 q) len) (div (q2 q) len) (div (q3 q) len).

Definition quatFromAngularVelocity (omega : Vector3) : Quaternion :=
  Quat (v0 omega) (v1 omega) (v2 omega) zero.

(** ** forces.ts *)

Definition gravityAcceleration (mass : num) (_position _velocity : Vector3)
    (config : option GravityForceConfig) : Vector3 :=
  match config with
  | None => vecZero
  | Some config =>
      let direction := default (V3 zero (neg one) zero) (direction config) in
      let gVec := vecScale direction (g config) in
      gVec
  end.

Definition linearDragAcceleration (mass : num) (_position velocity : Vector3)
    (config : option LinearDragForceConfig) : Vector3 :=
  match config with
  | None => vecZero
  | Some config =>
      if leb mass zero then vecZero
      else
        let scale := div (neg (coefficient config)) mass in
        vecScale velocity scale
  end.

Definition sumAccelerationsForPointMass (point : PointMassState)
    (forces : option ForcesConfig) : Vector3 :=
  let aG := gravityAcceleration (pm_mass point) (pm_position point)
              (pm_velocity point) (forces ≫= gravity) in
  let aD := linearDragAcceleration (pm_mass point) (pm_position point)
              (pm_velocity point) (forces ≫= linearDrag) in
  vecAdd aG aD.

(** ** integrators.ts *)

Record Derivative : Type := MkDerivative {
  pointAccelerations : list Vector3;
  rigidLinearAccelerations : list Vector3;
  rigidAngularAccelerations : list Vector3
}.

Record DynamicsContext : Type := MkDynamicsContext {
  computeDerivative : SimulationState → option Derivative;
  ctx_dt : num
}.

Definition advanceOrientation (orientation : Quaternion)
    (angularVelocity : Vector3) (dt : num) : Quaternion :=
  let omegaQuat :=
    quatFromAngularVelocity
      (V3 (mul (mul (v0 angularVelocity) half) dt)
          (mul (mul (v1 angularVelocity) half) dt)
          (mul (mul (v2 angularVelocity) half) dt)) in
  let dq := quatMultiply omegaQuat orientation in
  let qNext :=
    Quat (add (q0 orientation) (q0 dq)) (add (q1 orientation) (q1 dq))
         (add (q2 orientation) (q2 dq)) (add (q3 orientation) (q3 dq)) in
  quatNormalize qNext.

Definition cloneState (state : SimulationState) : SimulationState :=
  {| time := time state;
     stepIndex := stepIndex state;
     pointMasses :=
       map (λ p, {| pm_id := pm_id p; pm_mass := pm_mass p;
                    pm_position := pm_position p;
                    pm_velocity := pm_velocity p |})
           (pointMasses state);
     rigidBodies :=
       map (λ r, {| rb_id := rb_id r; rb_mass := rb_mass r;
                    rb_size := rb_size r; rb_position := rb_position r;
                    rb_velocity := rb_velocity r;
                    rb_orientation := rb_orientation r;
                    rb_angularVelocity := rb_angularVelocity r |})
           (rigidBodies state) |}.

(** Body of the point-mass loop of [integrateEuler]. *)
Definition eulerPoint (dt : num) (derivative : Derivative) (i : nat)
    (p : PointMassState) : option PointMassState :=
  a ← pointAccelerations derivative !! i;
  let p := pm_setPosition p (vecAdd (pm_position p) (vecScale (pm_velocity p) dt)) in
  let p := pm_setVelocity p (vecAdd (pm_velocity p) (vecScale a dt)) in
  Some p.

(** Body of the rigid-body loop of [integrateEuler]. *)
Definition eulerRigid (dt : num) (derivative : Derivative) (i : nat)
    (r : RigidBodyBoxState) : option RigidBodyBoxState :=
  aL ← rigidLinearAccelerations derivative !! i;
  aA ← rigidAngularAccelerations derivative !! i;
  let r := rb_setPosition r (vecAdd (rb_position r) (vecScale (rb_velocity r) dt)) in
  let r := rb_setVelocity r (vecAdd (rb_velocity r) (vecScale aL dt)) in
  let r := rb_setAngularVelocity r
             (vecAdd (rb_angularVelocity r) (vecScale aA dt)) in
  let r := rb_setOrientation r
             (advanceOrientation (rb_orientation r) (rb_angularVelocity r) dt) in
  Some r.

Definition integrateEuler (ctx : DynamicsContext) (current : SimulationState)
  : option SimulationState :=
  derivative ← computeDerivative ctx current;
  let next := cloneState current in
  let dt := ctx_dt ctx in
  let next := st_setTime next (add (time next) dt) in
  let next := st_setStepIndex next (stepIndex next + 1)%Z in
  ps ← forEachIndex (eulerPoint dt derivative) (pointMasses next);
  let next := st_setPointMasses next ps in
  rs ← forEachIndex (eulerRigid dt derivative) (rigidBodies next);
  let next := st_setRigidBodies next rs in
  Some next.

(** Body of the point-mass loop of [integrateSemiImplicitEuler]. *)
Definition semiPoint (dt : num) (derivative : Derivative) (i : nat)
    (p : PointMassState) : option PointMassState :=
  a ← pointAccelerations derivative !! i;
  let p := pm_setVelocity p (vecAdd (pm_velocity p) (vecScale a dt)) in
  let p := pm_setPosition p (vecAdd (pm_position p) (vecScale (pm_velocity p) dt)) in
  Some p.

(** Body of the rigid-body loop of [integrateSemiImplicitEuler]. *)
Definition semiRigid (dt : num) (derivative : Derivative) (i : nat)
    (r : RigidBodyBoxState) : option RigidBodyBoxState :=
  aL ← rigidLinearAccelerations derivative !! i;
  aA ← rigidAngularAccelerations derivative !! i;
  let r := rb_setVelocity r (vecAdd (rb_velocity r) (vecScale aL dt)) in
  let r := rb_setPosition r (vecAdd (rb_position r) (vecScale (rb_velocity r) dt)) in
  let r := rb_setAngularVelocity r
             (vecAdd (rb_angularVelocity r) (vecScale aA dt)) in
  let r := rb_setOrientation r
             (advanceOrientation (rb_orientation r) (rb_angularVelocity r) dt) in
  Some r.

Definition integrateSemiImplicitEuler (ctx : DynamicsContext)
    (current : SimulationState) : option SimulationState :=
  derivative ← computeDerivative ctx current;
  let next := cloneState current in
  let dt := ctx_dt ctx in
  let next := st_setTime next (add (time next) dt) in
  let next := st_setStepIndex next (stepIndex next + 1)%Z in
  ps ← forEachIndex (semiPoint dt derivative) (pointMasses next);
  let next := st_setPointMasses next ps in
  rs ← forEachIndex (semiRigid dt derivative) (rigidBodies next);
  let next := st_setRigidBodies next rs in
  Some next.

(** Body of the point-mass loops that build [s2], [s3] and [s4] in
    [integrateRK4] from the stage derivative [k] and the stage step [h]. *)
Definition rk4StagePoint (h : num) (k : Derivative) (i : nat)
    (p : PointMassState) : option PointMassState :=
  a ← pointAccelerations k !! i;
  let p := pm_setPosition p (vecAdd (pm_position p) (vecScale (pm_velocity p) h)) in
  let p := pm_setVelocity p (vecAdd (pm_velocity p) (vecScale a h)) in
  Some p.

(** Body of the rigid-body loops that build [s2], [s3] and [s4]. *)
Definition rk4StageRigid (h : num) (k : Derivative) (i : nat)
    (r : RigidBodyBoxState) : option RigidBodyBoxState :=
  aL ← rigidLinearAccelerations k !! i;
  aA ← rigidAngularAccelerations k !! i;
  let r := rb_setPosition r (vecAdd (rb_position r) (vecScale (rb_velocity r) h)) in
  let r := rb_setVelocity r (vecAdd (rb_velocity r) (vecScale aL h)) in
  let r := rb_setAngularVelocity r
             (vecAdd (rb_angularVelocity r) (vecScale aA h)) in
  let r := rb_setOrientation r
             (advanceOrientation (rb_orientation r) (rb_angularVelocity r) h) in
  Some r.

(** The intermediate state built from a clone of [current]. *)
Definition rk4Stage (current : SimulationState) (k : Derivative) (h : num)
  : option SimulationState :=
  let s := cloneState current in
  ps ← forEachIndex (rk4StagePoint h k) (pointMasses s);
  let s := st_setPointMasses s ps in
  rs ← forEachIndex (rk4StageRigid h k) (rigidBodies s);
  let s := st_setRigidBodies s rs in
  Some s.

(** The vector [[a1[c] + 2 * a2[c] + 2 * a3[c] + a4[c]]] for c = 0, 1, 2. *)
Definition rk4Sum (a1 a2 a3 a4 : Vector3) : Vector3 :=
  V3 (add (add (add (v0 a1) (mul two (v0 a2))) (mul two (v0 a3))) (v0 a4))
     (add (add (add (v1 a1) (mul two (v1 a2))) (mul two (v1 a3))) (v1 a4))
     (add (add (add (v2 a1) (mul two (v2 a2))) (mul two (v2 a3))) (v2 a4)).

(** Body of the final point-mass loop of [integrateRK4]. *)
Definition rk4Point (dt : num) (k1 k2 k3 k4 : Derivative) (i : nat)
    (p : PointMassState) : option PointMassState :=
  a1 ← pointAccelerations k1 !! i;
  a2 ← pointAccelerations k2 !! i;
  a3 ← pointAccelerations k3 !! i;
  a4 ← pointAccelerations k4 !! i;
  let vDelta := vecScale (rk4Sum a1 a2 a3 a4) (div dt six) in
  let p := pm_setVelocity p (vecAdd (pm_velocity p) vDelta) in
  let p := pm_setPosition p (vecAdd (pm_position p) (vecScale (pm_velocity p) dt)) in
  Some p.

(** Body of the final rigid-body loop of [integrateRK4]. *)
Definition rk4Rigid (dt : num) (k1 k2 k3 k4 : Derivative) (i : nat)
    (r : RigidBodyBoxState) : option RigidBodyBoxState :=
  l1 ← rigidLinearAccelerations k1 !! i;
  l2 ← rigidLinearAccelerations k2 !! i;
  l3 ← rigidLinearAccelerations k3 !! i;
  l4 ← rigidLinearAccelerations k4 !! i;
  let aL := rk4Sum l1 l2 l3 l4 in
  w1 ← rigidAngularAccelerations k1 !! i;
  w2 ← rigidAngularAccelerations k2 !! i;
  w3 ← rigidAngularAccelerations k3 !! i;
  w4 ← rigidAngularAccelerations k4 !! i;
  let aA := rk4Sum w1 w2 w3 w4 in
  let r := rb_setVelocity r (vecAdd (rb_velocity r) (vecScale aL (div dt six))) in
  let r := rb_setAngularVelocity r
             (vecAdd (rb_angularVelocity r) (vecScale aA (div dt six))) in
  let r := rb_setPosition r (vecAdd (rb_position r) (vecScale (rb_velocity r) dt)) in
  let r := rb_setOrientation r
             (advanceOrientation (rb_orientation r) (rb_angularVelocity r) dt) in
  Some r.

Definition integrateRK4 (ctx : DynamicsContext) (current : SimulationState)
  : option SimulationState :=
  let dt := ctx_dt ctx in
  let halfDt := mul dt half in
  k1 ← computeDerivative ctx current;
  s2 ← rk4Stage current k1 halfDt;
  k2 ← computeDerivative ctx s2;
  s3 ← rk4Stage current k2 halfDt;
  k3 ← computeDerivative ctx s3;
  s4 ← rk4Stage current k3 dt;
  k4 ← computeDerivative ctx s4;
  let next := cloneState current in
  let next := st_setTime next (add (time next) dt) in
  let next := st_setStepIndex next (stepIndex next + 1)%Z in
  ps ← forEachIndex (rk4Point dt k1 k2 k3 k4) (pointMasses next);
  let next := st_setPointMasses next ps in
  rs ← forEachIndex (rk4Rigid dt k1 k2 k3 k4) (rigidBodies next);
  let next := st_setRigidBodies next rs in
  Some next.

Definition pickIntegrator (name : IntegratorName)
  : DynamicsContext → SimulationState → option SimulationState :=
  match name with
  | euler => integrateEuler
  | semi => integrateSemiImplicitEuler
  | rk4 => integrateRK4
  end.

(** ** engine.ts *)

Record PhysicsEngine : Type := MkPhysicsEngine {
  dt : num;
  integratorName : IntegratorName;
  forces : option ForcesConfig;
  pointMassIndexById : gmap string nat;
  springs : list SpringConfig;
  state : SimulationState
}.

Definition setState (e : PhysicsEngine) (s : SimulationState) : PhysicsEngine :=
  {| dt := dt e; integratorName := integratorName e; forces := forces e;
     pointMassIndexById := pointMassIndexById e; springs := springs e;
     state := s |}.

(** The calls [this.pointMassIndexById.set(pm.id, idx)] made by the
    constructor's [map] callback, in index order. *)
Fixpoint setIndexById (idx : nat) (pms : list PointMassConfig)
    (m : gmap string nat) : gmap string nat :=
  match pms with
  | [] => m
  | pm :: rest => setIndexById (S idx) rest (<[pmc_id pm := idx]> m)
  end.

Definition construct (config : SimulationConfig) : PhysicsEngine :=
  let pms := default [] (cfg_pointMasses config) in
  {| dt := cfg_dt config;
     integratorName := cfg_integrator config;
     forces := cfg_forces config;
     pointMassIndexById := setIndexById 0 pms ∅;
     springs := default [] (cfg_springs config);
     state :=
       {| time := zero;
          stepIndex := 0;
          pointMasses :=
            map (λ pm, {| pm_id := pmc_id pm; pm_mass := pmc_mass pm;
                         pm_position := pmc_position pm;
                         pm_velocity := pmc_velocity pm |}) pms;
          rigidBodies :=
            map (λ rb, {| rb_id := rbc_id rb; rb_mass := rbc_mass rb;
                         rb_size := rbc_size rb;
                         rb_position := rbc_position rb;
                         rb_velocity := rbc_velocity rb;
                         rb_orientation := rbc_orientation rb;
                         rb_angularVelocity := rbc_angularVelocity rb |})
                (default [] (cfg_rigidBodies config)) |} |}.

(** The deep copy [JSON.parse(JSON.stringify(this.state))]: the same values
    in fresh objects.  (JSON keeps every finite number, but reads -0 back
    as 0 and writes NaN and the infinities as null.) *)
Definition getState (e : PhysicsEngine) : SimulationState :=
  cloneState (state e).

Definition getDt (e : PhysicsEngine) : num := dt e.

Definition applyImpulse (objectId : string) (impulse : Vector3)
    (e : PhysicsEngine) : option PhysicsEngine :=
  match pointMassIndexById e !! objectId with
  | Some pmIndex =>
      p ← pointMasses (state e) !! pmIndex;
      let p := pm_setVelocity p
                 (vecAdd (pm_velocity p) (vecScale impulse (div one (pm_mass p)))) in
      Some (setState e
              (st_setPointMasses (state e)
                 (<[pmIndex := p]> (pointMasses (state e)))))
  | None =>
      match list_find (λ r, rb_id r = objectId) (rigidBodies (state e)) with
      | Some (i, rb) =>
          let rb := rb_setVelocity rb
                      (vecAdd (rb_velocity rb)
                         (vecScale impulse (div one (rb_mass rb)))) in
          Some (setState e
                  (st_setRigidBodies (state e)
                     (<[i := rb]> (rigidBodies (state e)))))
      | None => Some e
      end
  end.

(** Body of the spring loop of [computeDerivative] in [step]. *)
Definition springBody (e : PhysicsEngine) (st : SimulationState)
    (pointAccelerations : list Vector3) (spring : SpringConfig)
  : option (list Vector3) :=
  match pointMassIndexById e !! aId spring,
        pointMassIndexById e !! bId spring with
  | Some ia, Some ib =>
      a ← pointMasses st !! ia;
      b ← pointMasses st !! ib;
      let delta := vecSub (pm_position b) (pm_position a) in
      let distance := vecLength delta in
      let direction :=
        if gtb distance zero then vecScale delta (div one distance)
        else vecZero in
      let extension := sub distance (restLength spring) in
      let relativeVel := vecSub (pm_velocity b) (pm_velocity a) in
      let dampingAlong :=
        mul (default zero (damping spring))
            (add (add (mul (v0 relativeVel) (v0 direction))
                      (mul (v1 relativeVel) (v1 direction)))
                 (mul (v2 relativeVel) (v2 direction))) in
      let forceMagnitude :=
        sub (mul (neg (stiffness spring)) extension) dampingAlong in
      let forceVec := vecScale direction forceMagnitude in
      accA ← pointAccelerations !! ia;
      let pointAccelerations :=
        <[ia := vecAdd accA (vecScale forceVec (div one (pm_mass a)))]>
          pointAccelerations in
      accB ← pointAccelerations !! ib;
      let pointAccelerations :=
        <[ib := vecAdd accB
                  (vecScale (vecScale forceVec (neg one)) (div one (pm_mass b)))]>
          pointAccelerations in
      Some pointAccelerations
  | _, _ => Some pointAccelerations
  end.

(** Linear acceleration of a rigid body: gravity and drag on the centre
    of mass. *)
Definition rigidLinearAcceleration (e : PhysicsEngine) (rb : RigidBodyBoxState)
  : Vector3 :=
  let gAcc :=
    match forces e ≫= gravity with
    | Some gr => vecScale (default (V3 zero (neg one) zero) (direction gr)) (g gr)
    | None => vecZero
    end in
  let dragAcc :=
    match forces e ≫= linearDrag with
    | Some ld => vecScale (rb_velocity rb) (div (neg (coefficient ld)) (rb_mass rb))
    | None => vecZero
    end in
  vecAdd gAcc dragAcc.

(** The closure [computeDerivative] of [step]. *)
Definition step_computeDerivative (e : PhysicsEngine) (st : SimulationState)
  : option Derivative :=
  let pointAccelerations :=
    map (λ pm, sumAccelerationsForPointMass pm (forces e)) (pointMasses st) in
  pointAccelerations ← forOf (springBody e st) pointAccelerations (springs e);
  let rigidLinearAccelerations :=
    map (rigidLinearAcceleration e) (rigidBodies st) in
  let rigidAngularAccelerations :=
    map (λ _rb, vecZero) (rigidBodies st) in
  Some {| pointAccelerations := pointAccelerations;
          rigidLinearAccelerations := rigidLinearAccelerations;
          rigidAngularAccelerations := rigidAngularAccelerations |}.

Definition step (e : PhysicsEngine) : option PhysicsEngine :=
  let ctx := {| ctx_dt := dt e; computeDerivative := step_computeDerivative e |} in
  let integrate := pickIntegrator (integratorName e) in
  st ← integrate ctx (state e);
  Some (setState e st).

(** A call made on the engine, and the engine after a sequence of calls. *)
Inductive Call : Type :=
| CallStep
| CallApplyImpulse (objectId : string) (impulse : Vector3).

Definition call (e : PhysicsEngine) (c : Call) : option PhysicsEngine :=
  match c with
  | CallStep => step e
  | CallApplyImpulse objectId impulse => applyImpulse objectId impulse e
  end.

Definition run (e : PhysicsEngine) (cs : list Call) : option PhysicsEngine :=
  forOf call e cs.
End Model.

Arguments Vector3 : clear implicits.
Arguments Quaternion : clear implicits.
Arguments PointMassConfig : clear implicits.
Arguments RigidBodyBoxConfig : clear implicits.
Arguments SpringConfig : clear implicits.
Arguments GravityForceConfig : clear implicits.
Arguments LinearDragForceConfig : clear implicits.
Arguments ForcesConfig : clear implicits.
Arguments SimulationConfig : clear implicits.
Arguments PointMassState : clear implicits.
Arguments RigidBodyBoxState : clear implicits.
Arguments SimulationState : clear implicits.
Arguments Derivative : clear implicits.
Arguments DynamicsContext : clear implicits.
Arguments PhysicsEngine : clear implicits.
Arguments Call : clear implicits.

(** ** Vocabulary of the properties *)

Section Vocabulary.
Context {num : Type} {arith : Number num}.

(** The invariant of the id→index map: an id it holds is mapped to the
    position of a point mass with that id, and the id of every point
    mass of the state is a key of it. *)
Definition indexConsistent (e : PhysicsEngine num) : Prop :=
  (∀ id i, pointMassIndexById e !! id = Some i →
           (pm_id <$> pointMasses (state e)) !! i = Some id) ∧
  (∀ id, id ∈ pm_id <$> pointMasses (state e) →
         is_Some (pointMassIndexById e !! id)).

(** [n] calls of [step()] in a row. *)
Fixpoint steps (n : nat) (e : PhysicsEngine num) : option (PhysicsEngine num) :=
  match n with
  | O => Some e
  | S n => e' ← step e; steps n e'
  end.

Definition isStep (c : Call num) : bool :=
  match c with CallStep => true | CallApplyImpulse _ _ => false end.

(** How many of the calls are [step()]. *)
Definition stepCount (cs : list (Call num)) : nat := length (filter isStep cs).

(** The same engine with another spring list. *)
Definition withSprings (e : PhysicsEngine num) (l : list (SpringConfig num))
  : PhysicsEngine num :=
  {| dt := dt e; integratorName := integratorName e; forces := forces e;
     pointMassIndexById := pointMassIndexById e; springs := l;
     state := state e |}.

(** A spring one of whose anchors is not a key of the id→index map. *)
Definition unresolved (e : PhysicsEngine num) (s : SpringConfig num) : Prop :=
  pointMassIndexById e !! aId s = None ∨ pointMassIndexById e !! bId s = None.

(** What a step may not change in a body. *)
Definition pm_frame (p : PointMassState num) : string * num := (pm_id p, pm_mass p).
Definition rb_frame (r : RigidBodyBoxState num) : string * num * Vector3 num :=
  (rb_id r, rb_mass r, rb_size r).

(** What a step may not change in the engine outside its state. *)
Definition sameSetup (e e' : PhysicsEngine num) : Prop :=
  dt e' = dt e ∧ integratorName e' = integratorName e ∧ forces e' = forces e ∧
  pointMassIndexById e' = pointMassIndexById e ∧ springs e' = springs e.

(** The derivative has one entry per body of the state. *)
Definition fits (d : Derivative num) (st : SimulationState num) : Prop :=
  length (pointAccelerations d) = length (pointMasses st) ∧
  length (rigidLinearAccelerations d) = length (rigidBodies st) ∧
  length (rigidAngularAccelerations d) = length (rigidBodies st).

(** Every index held by the id→index map is an index of the point-mass
    list of [st]. *)
Definition inRange (e : PhysicsEngine num) (st : SimulationState num) : Prop :=
  ∀ id i, pointMassIndexById e !! id = Some i → i < length (pointMasses st).

(** The context [step] hands to the integrator. *)
Definition contextOf (e : PhysicsEngine num) : DynamicsContext num :=
  {| ctx_dt := dt e; computeDerivative := step_computeDerivative e |}.

(** Mass times velocity. *)
Definition momentum (p : PointMassState num) : Vector3 num :=
  vecScale (pm_velocity p) (pm_mass p).
End Vocabulary.

(** ** Exact arithmetic: the real numbers *)

Definition Rgtb (x y : R) : bool := if Rlt_dec y x then true else false.
Definition Rleb (x y : R) : bool := if Rle_dec x y then true else false.
Definition Reqb (x y : R) : bool := if Req_dec_T x y then true else false.

#[export] Instance real_arithmetic : Number R := {|
  zero := 0%R;
  one := 1%R;
  two := 2%R;
  six := 6%R;
  half := 0.5%R;
  add := Rplus;
  sub := Rminus;
  mul := Rmult;
  div := Rdiv;
  neg := Ropp;
  sqrt := R_sqrt.sqrt;
  hypot4 := λ a b c d, R_sqrt.sqrt (a * a + b * b + c * c + d * d)%R;
  gtb := Rgtb;
  leb := Rleb;
  eqb := Reqb
|}.

(** The Euclidean norm of a quaternion. *)
Definition quatNorm (q : Quaternion R) : R :=
  R_sqrt.sqrt (q0 q * q0 q + q1 q * q1 q + q2 q * q2 q + q3 q * q3 q)%R.

(** ** Machine arithmetic: IEEE 754 binary64

    The arithmetic of a JavaScript engine, for running the embedding.
    ECMAScript leaves [Math.hypot] implementation-approximated (it asks
    that overflow and underflow be avoided); [hypot64] scales by the
    largest magnitude and sums the squares with compensation, the way
    V8 computes it. *)

Definition hypot64 (a b c d : float) : float :=
  let args := [a; b; c; d] in
  let oneArgIsNaN := existsb PrimFloat.is_nan args in
  let absValues :=
    map (λ x, if PrimFloat.is_nan x then 0%float else PrimFloat.abs x) args in
  let max :=
    fold_left (λ m x, if PrimFloat.ltb m x then x else m) absValues 0%float in
  if PrimFloat.eqb max PrimFloat.infinity then PrimFloat.infinity
  else if oneArgIsNaN then PrimFloat.nan
  else if PrimFloat.eqb max 0%float then 0%float
  else
    let '(sum, _) :=
      fold_left (λ '(sum, compensation) x,
                   let n := (x / max)%float in
                   let summand := (n * n - compensation)%float in
                   let preliminary := (sum + summand)%float in
                   (preliminary, (preliminary - sum - summand)%float))
                absValues (0%float, 0%float) in
    (PrimFloat.sqrt sum * max)%float.

#[export] Instance binary64_arithmetic : Number float := {|
  zero := 0%float;
  one := 1%float;
  two := 2%float;
  six := 6%float;
  half := 0.5%float;
  add := PrimFloat.add;
  sub := PrimFloat.sub;
  mul := PrimFloat.mul;
  div := PrimFloat.div;
  neg := PrimFloat.opp;
  sqrt := PrimFloat.sqrt;
  hypot4 := hypot64;
  gtb := λ x y, PrimFloat.ltb y x;
  leb := PrimFloat.leb;
  eqb := PrimFloat.eqb
|}.

(** ** Sample scenes *)

Module Sample.
Local Open Scope R_scope.

Definition origin : Vector3 R := V3 0 0 0.

Definition pointA : PointMassConfig R :=
  {| pmc_id := "a"; pmc_mass := 2; pmc_position := origin;
     pmc_velocity := V3 1 0 0; pmc_radius := None; pmc_color := None |}.

Definition pointB : PointMassConfig R :=
  {| pmc_id := "b"; pmc_mass := 3; pmc_position := V3 4 0 0;
     pmc_velocity := origin; pmc_radius := None; pmc_color := None |}.

Definition box : RigidBodyBoxConfig R :=
  {| rbc_id := "box"; rbc_mass := 1; rbc_size := V3 1 1 1;
     rbc_position := origin; rbc_velocity := origin;
     rbc_orientation := Quat 0 0 0 1; rbc_angularVelocity := V3 0 0 1;
     rbc_color := None |}.

(** A spring between the two point masses. *)
Definition link : SpringConfig R :=
  {| sp_id := "ab"; aId := "a"; bId := "b"; restLength := 1;
     stiffness := 10; damping := None |}.

(** A spring one of whose anchors names no point mass. *)
Definition dangling : SpringConfig R :=
  {| sp_id := "a?"; aId := "a"; bId := "ghost"; restLength := 1;
     stiffness := 10; damping := None |}.

Definition scene (name : IntegratorName) (springs : list (SpringConfig R))
  : SimulationConfig R :=
  {| cfg_dt := 1 / 100; cfg_integrator := name;
     cfg_snapshotIntervalMs := None; cfg_forces := None;
     cfg_pointMasses := Some [pointA; pointB];
     cfg_rigidBodies := Some [box];
     cfg_springs := Some springs; cfg_joints := None |}.

(** Two point masses that share the id "a". *)
Definition twinFirst : PointMassConfig R :=
  {| pmc_id := "a"; pmc_mass := 1; pmc_position := origin;
     pmc_velocity := origin; pmc_radius := None; pmc_color := None |}.

Definition twinSecond : PointMassConfig R :=
  {| pmc_id := "a"; pmc_mass := 2; pmc_position := V3 1 0 0;
     pmc_velocity := origin; pmc_radius := None; pmc_color := None |}.

Definition twins : SimulationConfig R :=
  {| cfg_dt := 1 / 100; cfg_integrator := rk4;
     cfg_snapshotIntervalMs := None; cfg_forces := None;
     cfg_pointMasses := Some [twinFirst; twinSecond];
     cfg_rigidBodies := None; cfg_springs := None; cfg_joints := None |}.

(** A rigid body configured with an orientation of norm 2. *)
Definition skewedBox : RigidBodyBoxConfig R :=
  {| rbc_id := "box"; rbc_mass := 1; rbc_size := V3 1 1 1;
     rbc_position := origin; rbc_velocity := origin;
     rbc_orientation := Quat 0 0 0 2; rbc_angularVelocity := V3 0 0 1;
     rbc_color := None |}.

Definition skewed : SimulationConfig R :=
  {| cfg_dt := 1 / 100; cfg_integrator := rk4;
     cfg_snapshotIntervalMs := None; cfg_forces := None;
     cfg_pointMasses := None; cfg_rigidBodies := Some [skewedBox];
     cfg_springs := None; cfg_joints := None |}.
End Sample.

(** Scenes in binary64; the first is the scenario of
    [src/test/energy-conservation.test.ts]. *)
Module Scenes64.
Local Open Scope float_scope.
#[local] Set Warnings "-inexact-float".

Definition kineticEnergy (m : float) (v : Vector3 float) : float :=
  let speed2 := v0 v * v0 v + v1 v * v1 v + v2 v * v2 v in
  0.5 * m * speed2.

Definition potentialEnergy (m y g : float) : float := m * g * y.

Definition gravityOf (strength : float) : ForcesConfig float :=
  {| gravity := Some {| g := strength; direction := Some (V3 0 (-1) 0) |};
     linearDrag := None |}.

Definition projectile : SimulationConfig float :=
  {| cfg_dt := 1 / 600; cfg_integrator := rk4;
     cfg_snapshotIntervalMs := Some 1000;
     cfg_forces := Some (gravityOf 9.81);
     cfg_pointMasses :=
       Some [ {| pmc_id := "proj"; pmc_mass := 1; pmc_position := V3 0 0 0;
                 pmc_velocity := V3 5 8 0; pmc_radius := None;
                 pmc_color := None |} ];
     cfg_rigidBodies := None; cfg_springs := None; cfg_joints := None |}.

(** [kineticEnergy(p.mass, p.velocity) + potentialEnergy(p.mass, p.position[1], g)]
    for the first point mass of a state. *)
Definition energy (s : SimulationState float) : option float :=
  p ← pointMasses s !! 0%nat;
  Some (kineticEnergy (pm_mass p) (pm_velocity p)
        + potentialEnergy (pm_mass p) (v1 (pm_position p)) 9.81).

(** [Math.max] on two numbers that are not NaN. *)
Definition max (x y : float) : float := if PrimFloat.ltb x y then y else x.

(** [Math.abs(Ef - E0) / Math.max(1, Math.abs(E0))] after [n] steps. *)
Definition relError (n : nat) : option float :=
  let engine := construct projectile in
  E0 ← energy (getState engine);
  engine ← steps n engine;
  Ef ← energy (getState engine);
  Some (abs (Ef - E0) / max 1 (abs E0)).

(** A point mass at rest at the origin under gravity g = 10, stepped with
    dt = 0.5. *)
Definition drop (name : IntegratorName) : SimulationConfig float :=
  {| cfg_dt := 0.5; cfg_integrator := name;
     cfg_snapshotIntervalMs := None;
     cfg_forces :=
       Some {| gravity := Some {| g := 10; direction := None |};
               linearDrag := None |};
     cfg_pointMasses :=
       Some [ {| pmc_id := "p"; pmc_mass := 2; pmc_position := V3 0 0 0;
                 pmc_velocity := V3 0 0 0; pmc_radius := None;
                 pmc_color := None |} ];
     cfg_rigidBodies := None; cfg_springs := None; cfg_joints := None |}.

(** The same point mass stepped with dt = 0.1, a step that binary64
    does not hold exactly. *)
Definition ticking (name : IntegratorName) : SimulationConfig float :=
  {| cfg_dt := 0.1; cfg_integrator := name;
     cfg_snapshotIntervalMs := None;
     cfg_forces :=
       Some {| gravity := Some {| g := 10; direction := None |};
               linearDrag := None |};
     cfg_pointMasses :=
       Some [ {| pmc_id := "p"; pmc_mass := 2; pmc_position := V3 0 0 0;
                 pmc_velocity := V3 0 0 0; pmc_radius := None;
                 pmc_color := None |} ];
     cfg_rigidBodies := None; cfg_springs := None; cfg_joints := None |}.

(** A point mass at rest whose mass, 1e-310, is so small that its
    reciprocal overflows. *)
Definition featherweight : SimulationConfig float :=
  {| cfg_dt := 0.01; cfg_integrator := rk4;
     cfg_snapshotIntervalMs := None; cfg_forces := None;
     cfg_pointMasses :=
       Some [ {| pmc_id := "p"; pmc_mass := 1e-310; pmc_position := V3 0 0 0;
                 pmc_velocity := V3 0 0 0; pmc_radius := None;
                 pmc_color := None |} ];
     cfg_rigidBodies := None; cfg_springs := None; cfg_joints := None |}.

(** A box with the unit orientation [0, 0, 0, 1] that spins at 1.7e308
    about each axis, stepped with dt = 2. *)
Definition whirl (name : IntegratorName) : SimulationConfig float :=
  {| cfg_dt := 2; cfg_integrator := name;
     cfg_snapshotIntervalMs := None; cfg_forces := None;
     cfg_pointMasses := None;
     cfg_rigidBodies :=
       Some [ {| rbc_id := "box"; rbc_mass := 1; rbc_size := V3 1 1 1;
                 rbc_position := V3 0 0 0; rbc_velocity := V3 0 0 0;
                 rbc_orientation := Quat 0 0 0 1;
                 rbc_angularVelocity := V3 1.7e308 1.7e308 1.7e308;
                 rbc_color := None |} ];
     cfg_springs := None; cfg_joints := None |}.

(** Two point masses joined by a damped spring, and a spinning box. *)
Definition springPair (name : IntegratorName) : SimulationConfig float :=
  {| cfg_dt := 0.01; cfg_integrator := name;
     cfg_snapshotIntervalMs := None; cfg_forces := None;
     cfg_pointMasses :=
       Some [ {| pmc_id := "a"; pmc_mass := 1; pmc_position := V3 0 0 0;
                 pmc_velocity := V3 0.5 0 0; pmc_radius := None;
                 pmc_color := None |};
              {| pmc_id := "b"; pmc_mass := 3; pmc_position := V3 2 0 0;
                 pmc_velocity := V3 0 0.25 0; pmc_radius := None;
                 pmc_color := None |} ];
     cfg_rigidBodies :=
       Some [ {| rbc_id := "box"; rbc_mass := 1; rbc_size := V3 1 1 1;
                 rbc_position := V3 0 0 0; rbc_velocity := V3 0 0 0;
                 rbc_orientation := Quat 0 0 0 1;
                 rbc_angularVelocity := V3 0.3 0.2 1; rbc_color := None |} ];
     cfg_springs :=
       Some [ {| sp_id := "ab"; aId := "a"; bId := "b"; restLength := 1;
                 stiffness := 10; damping := Some 0.5 |} ];
     cfg_joints := None |}.

(** The sum of mass × velocity over the point masses. *)
Definition totalMomentum (s : SimulationState float) : Vector3 float :=
  foldr (λ p acc, vecAdd (momentum p) acc) (V3 0 0 0) (pointMasses s).

Definition near (eps x y : float) : bool := PrimFloat.ltb (abs (x - y)) eps.

Definition nearVector (eps : float) (u v : Vector3 float) : bool :=
  near eps (v0 u) (v0 v) && near eps (v1 u) (v1 v) && near eps (v2 u) (v2 v).

Definition norm (q : Quaternion float) : float :=
  PrimFloat.sqrt (q0 q * q0 q + q1 q * q1 q + q2 q * q2 q + q3 q * q3 q).

(** After [n] steps: the total momentum is within 1e-12 of the initial
    one, and every orientation has a norm within 1e-9 of 1. *)
Definition conserved (name : IntegratorName) (n : nat) : option bool :=
  let engine := construct (springPair name) in
  engine' ← steps n engine;
  Some (nearVector 1e-12 (totalMomentum (getState engine'))
                         (totalMomentum (getState engine))
        && forallb (λ r, near 1e-9 (norm (rb_orientation r)) 1)
                   (rigidBodies (getState engine'))).
End Scenes64.

(** ** The worker (the second part of [types.ts])

    The module state of the worker script and its handlers.  A handler
    runs to completion; it takes what it reads from the environment (the
    clock [performance.now()], the timer handle [setInterval] returns) as an
    argument and returns the new state with the effects it had, in order.
    [None] stands for a throw of the engine. *)

Class WorkerNumber (num : Type) : Type := MkWorkerNumber {
  eight : num;                              (* the literal 8 *)
  fifty : num;                              (* the literal 50 *)
  thousand : num;                           (* the literal 1000 *)
  mathRound : num → num;                    (* Math.round(x) *)
  mathMax : num → num → num                 (* Math.max(x, y) *)
}.

Section WorkerModel.
Context {num : Type} {arith : Number num} {warith : WorkerNumber num}.

Inductive WorkerMessage : Type :=
| MsgSnapshot (payload : SimulationState num)
| MsgStarted
| MsgPaused
| MsgInitialized.

Inductive Effect : Type :=
| PostMessage (message : WorkerMessage)
| SetInterval (ms : num)
| ClearInterval (timer : Z).

Record Worker : Type := MkWorker {
  engine : option (PhysicsEngine num);
  running : bool;
  tickHandle : option Z;
  snapshotIntervalMs : num;
  lastSnapshotTime : num
}.

Definition initialWorker : Worker :=
  {| engine := None; running := false; tickHandle := None;
     snapshotIntervalMs := fifty; lastSnapshotTime := zero |}.

Definition setEngine (w : Worker) (e : PhysicsEngine num) : Worker :=
  {| engine := Some e; running := running w; tickHandle := tickHandle w;
     snapshotIntervalMs := snapshotIntervalMs w;
     lastSnapshotTime := lastSnapshotTime w |}.

Definition setLastSnapshotTime (w : Worker) (t : num) : Worker :=
  {| engine := engine w; running := running w; tickHandle := tickHandle w;
     snapshotIntervalMs := snapshotIntervalMs w; lastSnapshotTime := t |}.

(** A number in a condition: false for 0, -0 and NaN. *)
Definition truthy (x : num) : bool := negb (eqb x zero) && eqb x x.

Definition postSnapshot (w : Worker) : list Effect :=
  match engine w with
  | None => []
  | Some e => [PostMessage (MsgSnapshot (getState e))]
  end.

(** [now] is the value of [performance.now()], read after the step. *)
Definition loopTick (now : num) (w : Worker) : option (Worker * list Effect) :=
  match engine w with
  | None => Some (w, [])
  | Some e =>
      if negb (running w) then Some (w, [])
      else
        e ← step e;
        let w := setEngine w e in
        (* now - lastSnapshotTime >= snapshotIntervalMs *)
        if leb (snapshotIntervalMs w) (sub now (lastSnapshotTime w)) then
          let w := setLastSnapshotTime w now in
          Some (w, postSnapshot w)
        else Some (w, [])
  end.

Definition api_init (config : SimulationConfig num) (now : num) (w : Worker)
  : option (Worker * list Effect) :=
  Some ({| engine := Some (construct config);
           running := running w; tickHandle := tickHandle w;
           snapshotIntervalMs := default fifty (cfg_snapshotIntervalMs config);
           lastSnapshotTime := now |},
        [PostMessage MsgInitialized]).

(** [timer] is the value [self.setInterval] returns. *)
Definition api_start (timer : Z) (w : Worker) : option (Worker * list Effect) :=
  match engine w with
  | None => Some (w, [])
  | Some e =>
      if running w then Some (w, [])
      else
        let dt := getDt e in
        let targetMs :=
          if truthy dt then mathMax one (mathRound (mul dt thousand))
          else eight in
        Some ({| engine := engine w; running := true;
                 tickHandle := Some timer;
                 snapshotIntervalMs := snapshotIntervalMs w;
                 lastSnapshotTime := lastSnapshotTime w |},
              [SetInterval targetMs; PostMessage MsgStarted])
  end.

Definition api_pause (w : Worker) : option (Worker * list Effect) :=
  Some ({| engine := engine w; running := false; tickHandle := None;
           snapshotIntervalMs := snapshotIntervalMs w;
           lastSnapshotTime := lastSnapshotTime w |},
        match tickHandle w with
        | Some timer => [ClearInterval timer]
        | None => []
        end ++ [PostMessage MsgPaused]).

Definition api_step (w : Worker) : option (Worker * list Effect) :=
  match engine w with
  | None => Some (w, [])
  | Some e =>
      e ← step e;
      let w := setEngine w e in
      Some (w, postSnapshot w)
  end.

Definition api_applyImpulse (objectId : string) (impulseVec : Vector3 num)
    (w : Worker) : option (Worker * list Effect) :=
  match engine w with
  | None => Some (w, [])
  | Some e =>
      e ← applyImpulse objectId impulseVec e;
      Some (setEngine w e, [])
  end.

(** What reaches the worker: a command of the api or a tick of the
    interval timer. *)
Inductive Event : Type :=
| Init (config : SimulationConfig num) (now : num)
| Start (timer : Z)
| Pause
| Step
| ApplyImpulse (objectId : string) (impulseVec : Vector3 num)
| Tick (now : num).

Definition handle (w : Worker) (ev : Event) : option (Worker * list Effect) :=
  match ev with
  | Init config now => api_init config now w
  | Start timer => api_start timer w
  | Pause => api_pause w
  | Step => api_step w
  | ApplyImpulse objectId impulseVec => api_applyImpulse objectId impulseVec w
  | Tick now => loopTick now w
  end.

(** The worker after a sequence of events, with all effects in order. *)
Fixpoint handleAll (w : Worker) (evs : list Event)
  : option (Worker * list Effect) :=
  match evs with
  | [] => Some (w, [])
  | ev :: rest =>
      '(w', effects) ← handle w ev;
      '(w'', effects') ← handleAll w' rest;
      Some (w'', effects ++ effects')
  end.

(** The snapshots among the effects. *)
Definition snapshotsPosted (effects : list Effect) : list (SimulationState num) :=
  omap (λ eff, match eff with
               | PostMessage (MsgSnapshot s) => Some s
               | _ => None
               end) effects.

(** The state invariant of the worker: the timer handle is held exactly
    while running, running needs an engine, and the engine's id map is
    consistent. *)
Definition workerConsistent (w : Worker) : Prop :=
  (running w = true ↔ is_Some (tickHandle w)) ∧
  (running w = true → is_Some (engine w)) ∧
  (∀ e, engine w = Some e → indexConsistent e).
End WorkerModel.

Arguments WorkerMessage : clear implicits.
Arguments Effect : clear implicits.
Arguments Worker : clear implicits.
Arguments Event : clear implicits.

#[export] Instance real_worker_arithmetic : WorkerNumber R := {|
  eight := 8%R;
  fifty := 50%R;
  thousand := 1000%R;
  mathRound := λ x, IZR (Int_part (x + 0.5));
  mathMax := Rmax
|}.

Section WorkerVocabulary.
Context {num : Type} {arith : Number num} {warith : WorkerNumber num}.

(** How many interval timers the effects request, and how many they
    clear. *)
Definition intervalsSet (effects : list (Effect num)) : nat :=
  length (omap (λ eff, match eff with SetInterval ms => Some ms | _ => None end)
               effects).

Definition intervalsCleared (effects : list (Effect num)) : nat :=
  length (omap (λ eff, match eff with ClearInterval h => Some h | _ => None end)
               effects).

Definition isInit (ev : Event num) : bool :=
  match ev with Init _ _ => true | _ => false end.

Definition isPause (ev : Event num) : bool :=
  match ev with Pause => true | _ => false end.
End WorkerVocabulary.

(** ** Vocabulary of the further properties *)

Section Variants.
Context {num : Type} {arith : Number num}.

(** The same engine with another integrator. *)
Definition withIntegrator (e : PhysicsEngine num) (name : IntegratorName)
  : PhysicsEngine num :=
  {| dt := dt e; integratorName := name; forces := forces e;
     pointMassIndexById := pointMassIndexById e; springs := springs e;
     state := state e |}.
End Variants.

(** A scene under gravity with one point mass, a rigid body that does
    not rotate and a spring from the point mass to itself, and a worker
    that runs it. *)
Module Still.
Local Open Scope R_scope.

Definition restingBox : RigidBodyBoxConfig R :=
  {| rbc_id := "crate"; rbc_mass := 2; rbc_size := V3 1 1 1;
     rbc_position := Sample.origin; rbc_velocity := V3 1 0 0;
     rbc_orientation := Quat 0 0 0 1; rbc_angularVelocity := V3 0 0 0;
     rbc_color := None |}.

Definition loop : SpringConfig R :=
  {| sp_id := "aa"; aId := "a"; bId := "a"; restLength := 1;
     stiffness := 10; damping := Some 1 |}.

Definition scene (name : IntegratorName) (springs : list (SpringConfig R))
  : SimulationConfig R :=
  {| cfg_dt := 1 / 100; cfg_integrator := name;
     cfg_snapshotIntervalMs := None;
     cfg_forces :=
       Some {| gravity := Some {| g := 10; direction := None |};
               linearDrag := None |};
     cfg_pointMasses := Some [Sample.pointA];
     cfg_rigidBodies := Some [restingBox];
     cfg_springs := Some springs; cfg_joints := None |}.

Definition runningWorker : Worker R :=
  {| engine := Some (construct (scene semi [loop])); running := true;
     tickHandle := Some 1%Z; snapshotIntervalMs := 50;
     lastSnapshotTime := 0 |}.
End Still.

(** Closes an equation between vectors of real numbers built from the
    vector helpers. *)
Ltac vec_eq :=
  unfold vecAdd, vecScale, rk4Sum, vecZero; simpl; f_equal; (ring || field).

(** ** Proof automation *)

(** Reads a successful run of a sequence of binds as its steps. *)
Ltac unbind H :=
  repeat
    (let x := fresh "x" in
     let Hx := fresh "Hx" in
     apply bind_Some in H as (x & Hx & H));
  try (injection H as H).

(** Closes [is_Some (body ...)] for a loop body whose only source of a
    throw is a lookup within the bounds given by the hypotheses. *)
Ltac body_total :=
  repeat
    match goal with
    | |- context [?l !! ?j] =>
        let a := fresh "a" in
        let Ha := fresh "Ha" in
        destruct (lookup_lt_is_Some_2 l j) as [a Ha]; [lia|rewrite Ha; simpl]
    end;
  by eexists.

(** Splits a goal about each component [c ∈ [v0; v1; v2]] of a vector
    into the three components. *)
Ltac each_component H :=
  repeat (apply elem_of_cons in H as [->|H]);
  [..|by apply elem_of_nil in H].

(** * Properties *)

(** ** The loops *)

Section LoopFacts.
Context {A : Type}.
Implicit Types (body : nat → A → option A) (xs ys : list A).

Lemma loopFrom_length body i xs ys :
  loopFrom body i xs = Some ys → length ys = length xs.
Proof.
  revert i ys. induction xs as [|x rest IH]; intros i ys H; simpl in H.
  - by inversion H.
  - destruct (body i x) as [x'|]; simpl in H; [|done].
    destruct (loopFrom body (S i) rest) as [rest'|] eqn:E; simpl in H; [|done].
    inversion H; subst. simpl. f_equal. by eapply IH.
Qed.

(** Iteration [j] ran the body on the element the list held at [j]. *)
Lemma loopFrom_lookup body i xs ys j x :
  loopFrom body i xs = Some ys → xs !! j = Some x →
  ∃ y, ys !! j = Some y ∧ body (i + j) x = Some y.
Proof.
  revert i ys j. induction xs as [|x0 rest IH]; intros i ys j H Hj; [done|].
  simpl in H.
  destruct (body i x0) as [x'|] eqn:Eb; simpl in H; [|done].
  destruct (loopFrom body (S i) rest) as [rest'|] eqn:E; simpl in H; [|done].
  inversion H; subst. destruct j as [|j]; simpl in *.
  - inversion Hj; subst. exists x'. by rewrite Nat.add_0_r.
  - destruct (IH _ _ _ E Hj) as (y & Hy & Hb). exists y. split; [done|].
    by rewrite <- Nat.add_succ_comm.
Qed.

(** The loop completes when no iteration throws. *)
Lemma loopFrom_is_Some body i xs :
  (∀ j x, xs !! j = Some x → is_Some (body (i + j) x)) →
  is_Some (loopFrom body i xs).
Proof.
  revert i. induction xs as [|x rest IH]; intros i H; simpl; [by eexists|].
  destruct (H 0 x eq_refl) as [x' Hx]. rewrite Nat.add_0_r in Hx.
  rewrite Hx. simpl.
  destruct (IH (S i)) as [rest' Hrest].
  { intros j y Hj. rewrite Nat.add_succ_comm. by apply (H (S j)). }
  rewrite Hrest. by eexists.
Qed.

(** A projection that every iteration preserves is preserved. *)
Lemma loopFrom_fmap {B : Type} (f : A → B) body i xs ys :
  (∀ j x y, body j x = Some y → f y = f x) →
  loopFrom body i xs = Some ys → f <$> ys = f <$> xs.
Proof.
  intros Hf. revert i ys. induction xs as [|x rest IH]; intros i ys H; simpl in H.
  - by inversion H.
  - destruct (body i x) as [x'|] eqn:Eb; simpl in H; [|done].
    destruct (loopFrom body (S i) rest) as [rest'|] eqn:E; simpl in H; [|done].
    inversion H; subst. simpl. f_equal; eauto.
Qed.

(** Every element left by the loop is the result of an iteration. *)
Lemma loopFrom_elem_of body i xs ys y :
  loopFrom body i xs = Some ys → y ∈ ys →
  ∃ j x, xs !! j = Some x ∧ body (i + j) x = Some y.
Proof.
  intros H Hy. apply list_elem_of_lookup in Hy as [j Hj].
  pose proof (loopFrom_length _ _ _ _ H) as Hlen.
  destruct (lookup_lt_is_Some_2 xs j) as [x Hx].
  { rewrite <- Hlen. by eapply lookup_lt_Some. }
  destruct (loopFrom_lookup _ _ _ _ _ _ H Hx) as (y' & Hy' & Hb).
  exists j, x. split; [done|]. congruence.
Qed.

Lemma forOf_app {S : Type} (f : S → A → option S) acc xs ys :
  forOf f acc (xs ++ ys) = (forOf f acc xs ≫= λ acc', forOf f acc' ys).
Proof.
  revert acc. induction xs as [|x rest IH]; intros acc; simpl; [done|].
  destruct (f acc x); simpl; [apply IH|done].
Qed.
End LoopFacts.

(** ** The integrators *)

Section IntegratorFacts.
Context {num : Type} {arith : Number num}.
Implicit Types (ctx : DynamicsContext num) (current next : SimulationState num).
Implicit Types (d k : Derivative num).

Lemma cloneState_id current : cloneState current = current.
Proof.
  destruct current as [t n ps rs]. unfold cloneState. simpl. f_equal.
  - induction ps as [|[] ps IH]; simpl; [done|]. by rewrite IH.
  - induction rs as [|[] rs IH]; simpl; [done|]. by rewrite IH.
Qed.

Lemma integrateEuler_unfold ctx current :
  integrateEuler ctx current =
    (d ← computeDerivative ctx current;
     ps ← forEachIndex (eulerPoint (ctx_dt ctx) d) (pointMasses current);
     rs ← forEachIndex (eulerRigid (ctx_dt ctx) d) (rigidBodies current);
     Some {| time := add (time current) (ctx_dt ctx);
             stepIndex := stepIndex current + 1;
             pointMasses := ps; rigidBodies := rs |}).
Proof. unfold integrateEuler. by rewrite cloneState_id. Qed.

Lemma integrateSemiImplicitEuler_unfold ctx current :
  integrateSemiImplicitEuler ctx current =
    (d ← computeDerivative ctx current;
     ps ← forEachIndex (semiPoint (ctx_dt ctx) d) (pointMasses current);
     rs ← forEachIndex (semiRigid (ctx_dt ctx) d) (rigidBodies current);
     Some {| time := add (time current) (ctx_dt ctx);
             stepIndex := stepIndex current + 1;
             pointMasses := ps; rigidBodies := rs |}).
Proof. unfold integrateSemiImplicitEuler. by rewrite cloneState_id. Qed.

Lemma rk4Stage_unfold current k h :
  rk4Stage current k h =
    (ps ← forEachIndex (rk4StagePoint h k) (pointMasses current);
     rs ← forEachIndex (rk4StageRigid h k) (rigidBodies current);
     Some {| time := time current; stepIndex := stepIndex current;
             pointMasses := ps; rigidBodies := rs |}).
Proof. unfold rk4Stage. by rewrite cloneState_id. Qed.

Lemma integrateRK4_unfold ctx current :
  integrateRK4 ctx current =
    (k1 ← computeDerivative ctx current;
     s2 ← rk4Stage current k1 (mul (ctx_dt ctx) half);
     k2 ← computeDerivative ctx s2;
     s3 ← rk4Stage current k2 (mul (ctx_dt ctx) half);
     k3 ← computeDerivative ctx s3;
     s4 ← rk4Stage current k3 (ctx_dt ctx);
     k4 ← computeDerivative ctx s4;
     ps ← forEachIndex (rk4Point (ctx_dt ctx) k1 k2 k3 k4) (pointMasses current);
     rs ← forEachIndex (rk4Rigid (ctx_dt ctx) k1 k2 k3 k4) (rigidBodies current);
     Some {| time := add (time current) (ctx_dt ctx);
             stepIndex := stepIndex current + 1;
             pointMasses := ps; rigidBodies := rs |}).
Proof. unfold integrateRK4. by rewrite cloneState_id. Qed.
End IntegratorFacts.

Section IntegratorOutcome.
Context {num : Type} {arith : Number num}.
Implicit Types (ctx : DynamicsContext num) (current next : SimulationState num).
Implicit Types (d k : Derivative num).

Lemma forEachIndex_lookup {A} (body : nat → A → option A) xs ys j x :
  forEachIndex body xs = Some ys → xs !! j = Some x →
  ∃ y, ys !! j = Some y ∧ body j x = Some y.
Proof. intros H Hj. by apply (loopFrom_lookup _ 0 _ _ _ _ H Hj). Qed.

Lemma forEachIndex_is_Some {A} (body : nat → A → option A) xs :
  (∀ j x, xs !! j = Some x → is_Some (body j x)) →
  is_Some (forEachIndex body xs).
Proof. intros H. by apply loopFrom_is_Some. Qed.

Lemma forEachIndex_fmap {A B} (f : A → B) (body : nat → A → option A) xs ys :
  (∀ j x y, body j x = Some y → f y = f x) →
  forEachIndex body xs = Some ys → f <$> ys = f <$> xs.
Proof. intros Hf H. by eapply loopFrom_fmap. Qed.

Lemma forEachIndex_elem_of {A} (body : nat → A → option A) xs ys y :
  forEachIndex body xs = Some ys → y ∈ ys →
  ∃ j x, xs !! j = Some x ∧ body j x = Some y.
Proof. intros H Hy. by apply (loopFrom_elem_of _ 0 _ _ _ H Hy). Qed.

(** *** The intermediate states of RK4 *)

Lemma rk4Stage_is_Some current k h :
  fits k current → is_Some (rk4Stage current k h).
Proof.
  intros (Hp & Hl & Ha). rewrite rk4Stage_unfold.
  destruct (forEachIndex_is_Some (rk4StagePoint h k) (pointMasses current))
    as [ps Hps].
  { intros j x Hj%lookup_lt_Some. unfold rk4StagePoint. body_total. }
  destruct (forEachIndex_is_Some (rk4StageRigid h k) (rigidBodies current))
    as [rs Hrs].
  { intros j x Hj%lookup_lt_Some. unfold rk4StageRigid. body_total. }
  rewrite Hps, Hrs. by eexists.
Qed.

Lemma rk4Stage_shape current k h s :
  rk4Stage current k h = Some s →
  pm_frame <$> pointMasses s = pm_frame <$> pointMasses current ∧
  rb_frame <$> rigidBodies s = rb_frame <$> rigidBodies current.
Proof.
  rewrite rk4Stage_unfold. intros H. unbind H. subst s. simpl. split.
  - eapply forEachIndex_fmap; [|done].
    intros j p p' Hb. unfold rk4StagePoint in Hb. unbind Hb. by subst.
  - eapply forEachIndex_fmap; [|done].
    intros j r r' Hb. unfold rk4StageRigid in Hb. unbind Hb. by subst.
Qed.

Lemma rk4Stage_length current k h s :
  rk4Stage current k h = Some s →
  length (pointMasses s) = length (pointMasses current) ∧
  length (rigidBodies s) = length (rigidBodies current).
Proof.
  intros [Hp Hr]%rk4Stage_shape.
  apply (f_equal length) in Hp, Hr.
  rewrite !length_fmap in Hp. rewrite !length_fmap in Hr. done.
Qed.

(** The point masses of an intermediate state: the position advanced
    by [h] along the current velocity, the velocity by [h] along the
    stage acceleration. *)
Lemma rk4Stage_point current k h s i p :
  rk4Stage current k h = Some s → pointMasses current !! i = Some p →
  ∃ a, pointAccelerations k !! i = Some a ∧
       pointMasses s !! i =
         Some {| pm_id := pm_id p; pm_mass := pm_mass p;
                 pm_position := vecAdd (pm_position p) (vecScale (pm_velocity p) h);
                 pm_velocity := vecAdd (pm_velocity p) (vecScale a h) |}.
Proof.
  rewrite rk4Stage_unfold. intros H Hp. unbind H. subst s. simpl.
  destruct (forEachIndex_lookup _ _ _ _ _ Hx Hp) as (p' & Hp' & Hb).
  unfold rk4StagePoint in Hb. unbind Hb. subst p'. eauto.
Qed.

(** *** What every integrator does *)

Lemma integrate_time name ctx current next :
  pickIntegrator name ctx current = Some next →
  time next = add (time current) (ctx_dt ctx) ∧
  stepIndex next = (stepIndex current + 1)%Z.
Proof.
  destruct name; simpl;
    [rewrite integrateEuler_unfold
    |rewrite integrateSemiImplicitEuler_unfold
    |rewrite integrateRK4_unfold];
    intros H; unbind H; by subst next.
Qed.

Lemma integrate_frame name ctx current next :
  pickIntegrator name ctx current = Some next →
  pm_frame <$> pointMasses next = pm_frame <$> pointMasses current ∧
  rb_frame <$> rigidBodies next = rb_frame <$> rigidBodies current.
Proof.
  destruct name; simpl;
    [rewrite integrateEuler_unfold
    |rewrite integrateSemiImplicitEuler_unfold
    |rewrite integrateRK4_unfold];
    intros H; unbind H; subst next; simpl;
    (split; (eapply forEachIndex_fmap; [|done]); intros j b b' Hb).
  - unfold eulerPoint in Hb. unbind Hb. by subst.
  - unfold eulerRigid in Hb. unbind Hb. by subst.
  - unfold semiPoint in Hb. unbind Hb. by subst.
  - unfold semiRigid in Hb. unbind Hb. by subst.
  - unfold rk4Point in Hb. unbind Hb. by subst.
  - unfold rk4Rigid in Hb. unbind Hb. by subst.
Qed.

Lemma integrate_length name ctx current next :
  pickIntegrator name ctx current = Some next →
  length (pointMasses next) = length (pointMasses current) ∧
  length (rigidBodies next) = length (rigidBodies current).
Proof.
  intros [Hp Hr]%integrate_frame.
  apply (f_equal length) in Hp, Hr.
  rewrite !length_fmap in Hp. rewrite !length_fmap in Hr. done.
Qed.

(** Every rigid body leaves an integrator with the orientation
    [advanceOrientation] returned, a result of [quatNormalize]. *)
Lemma integrate_orientation name ctx current next r :
  pickIntegrator name ctx current = Some next → r ∈ rigidBodies next →
  ∃ q, rb_orientation r = quatNormalize q.
Proof.
  destruct name; simpl;
    [rewrite integrateEuler_unfold
    |rewrite integrateSemiImplicitEuler_unfold
    |rewrite integrateRK4_unfold];
    intros H Hr; unbind H; subst next; simpl in Hr;
    match goal with
    | Hl : forEachIndex _ (rigidBodies _) = Some _ |- _ =>
        destruct (forEachIndex_elem_of _ _ _ _ Hl Hr) as (j & r0 & _ & Hb)
    end.
  - unfold eulerRigid in Hb. unbind Hb. subst r. simpl.
    unfold advanceOrientation. eauto.
  - unfold semiRigid in Hb. unbind Hb. subst r. simpl.
    unfold advanceOrientation. eauto.
  - unfold rk4Rigid in Hb. unbind Hb. subst r. simpl.
    unfold advanceOrientation. eauto.
Qed.

(** An integrator returns when the derivative evaluator returns, with
    one entry per body, on every state of the shape of [current]. *)
Lemma integrate_is_Some name ctx current :
  (∀ st, length (pointMasses st) = length (pointMasses current) →
         length (rigidBodies st) = length (rigidBodies current) →
         ∃ d, computeDerivative ctx st = Some d ∧ fits d st) →
  is_Some (pickIntegrator name ctx current).
Proof.
  intros Hcd.
  assert (Hstage : ∀ k h, fits k current →
            ∃ s k', rk4Stage current k h = Some s ∧
                    computeDerivative ctx s = Some k' ∧ fits k' current).
  { intros k h Hk. destruct (rk4Stage_is_Some current k h Hk) as [s Hs].
    destruct (rk4Stage_length _ _ _ _ Hs) as [Lp Lr].
    destruct (Hcd s Lp Lr) as (k' & Hk' & F1 & F2 & F3).
    exists s, k'. repeat split; [done..|congruence|congruence|congruence]. }
  destruct (Hcd current eq_refl eq_refl) as (k1 & Hk1 & F1).
  destruct name; simpl.
  - rewrite integrateEuler_unfold, Hk1. simpl.
    destruct F1 as (Hp & Hl & Ha).
    destruct (forEachIndex_is_Some (eulerPoint (ctx_dt ctx) k1)
                (pointMasses current)) as [ps ->].
    { intros j x Hj%lookup_lt_Some. unfold eulerPoint. body_total. }
    destruct (forEachIndex_is_Some (eulerRigid (ctx_dt ctx) k1)
                (rigidBodies current)) as [rs ->].
    { intros j x Hj%lookup_lt_Some. unfold eulerRigid. body_total. }
    by eexists.
  - rewrite integrateSemiImplicitEuler_unfold, Hk1. simpl.
    destruct F1 as (Hp & Hl & Ha).
    destruct (forEachIndex_is_Some (semiPoint (ctx_dt ctx) k1)
                (pointMasses current)) as [ps ->].
    { intros j x Hj%lookup_lt_Some. unfold semiPoint. body_total. }
    destruct (forEachIndex_is_Some (semiRigid (ctx_dt ctx) k1)
                (rigidBodies current)) as [rs ->].
    { intros j x Hj%lookup_lt_Some. unfold semiRigid. body_total. }
    by eexists.
  - rewrite integrateRK4_unfold, Hk1. simpl.
    destruct (Hstage k1 (mul (ctx_dt ctx) half) F1) as (s2 & k2 & -> & Hk2 & F2).
    simpl. rewrite Hk2. simpl.
    destruct (Hstage k2 (mul (ctx_dt ctx) half) F2) as (s3 & k3 & -> & Hk3 & F3).
    simpl. rewrite Hk3. simpl.
    destruct (Hstage k3 (ctx_dt ctx) F3) as (s4 & k4 & -> & Hk4 & F4).
    simpl. rewrite Hk4. simpl.
    destruct F1 as (Hp1 & Hl1 & Ha1), F2 as (Hp2 & Hl2 & Ha2),
             F3 as (Hp3 & Hl3 & Ha3), F4 as (Hp4 & Hl4 & Ha4).
    destruct (forEachIndex_is_Some (rk4Point (ctx_dt ctx) k1 k2 k3 k4)
                (pointMasses current)) as [ps ->].
    { intros j x Hj%lookup_lt_Some. unfold rk4Point. body_total. }
    destruct (forEachIndex_is_Some (rk4Rigid (ctx_dt ctx) k1 k2 k3 k4)
                (rigidBodies current)) as [rs ->].
    { intros j x Hj%lookup_lt_Some. unfold rk4Rigid. body_total. }
    by eexists.
Qed.

(** *** The point masses after each integrator *)

Lemma integrateEuler_point ctx current next :
  integrateEuler ctx current = Some next →
  ∃ d, computeDerivative ctx current = Some d ∧
    ∀ i p, pointMasses current !! i = Some p →
      ∃ a, pointAccelerations d !! i = Some a ∧
        pointMasses next !! i =
          Some {| pm_id := pm_id p; pm_mass := pm_mass p;
                  pm_position :=
                    vecAdd (pm_position p) (vecScale (pm_velocity p) (ctx_dt ctx));
                  pm_velocity :=
                    vecAdd (pm_velocity p) (vecScale a (ctx_dt ctx)) |}.
Proof.
  rewrite integrateEuler_unfold. intros H. unbind H. subst next.
  eexists. split; [done|]. intros i p Hp. simpl.
  destruct (forEachIndex_lookup _ _ _ _ _ Hx0 Hp) as (p' & Hp' & Hb).
  unfold eulerPoint in Hb. unbind Hb. subst p'. eauto.
Qed.

Lemma integrateSemiImplicitEuler_point ctx current next :
  integrateSemiImplicitEuler ctx current = Some next →
  ∃ d, computeDerivative ctx current = Some d ∧
    ∀ i p, pointMasses current !! i = Some p →
      ∃ a, pointAccelerations d !! i = Some a ∧
        let velocity' := vecAdd (pm_velocity p) (vecScale a (ctx_dt ctx)) in
        pointMasses next !! i =
          Some {| pm_id := pm_id p; pm_mass := pm_mass p;
                  pm_position :=
                    vecAdd (pm_position p) (vecScale velocity' (ctx_dt ctx));
                  pm_velocity := velocity' |}.
Proof.
  rewrite integrateSemiImplicitEuler_unfold. intros H. unbind H. subst next.
  eexists. split; [done|]. intros i p Hp. simpl.
  destruct (forEachIndex_lookup _ _ _ _ _ Hx0 Hp) as (p' & Hp' & Hb).
  unfold semiPoint in Hb. unbind Hb. subst p'. eauto.
Qed.

Lemma integrateRK4_point ctx current next :
  integrateRK4 ctx current = Some next →
  ∃ k1 s2 k2 s3 k3 s4 k4,
    computeDerivative ctx current = Some k1 ∧
    rk4Stage current k1 (mul (ctx_dt ctx) half) = Some s2 ∧
    computeDerivative ctx s2 = Some k2 ∧
    rk4Stage current k2 (mul (ctx_dt ctx) half) = Some s3 ∧
    computeDerivative ctx s3 = Some k3 ∧
    rk4Stage current k3 (ctx_dt ctx) = Some s4 ∧
    computeDerivative ctx s4 = Some k4 ∧
    ∀ i p, pointMasses current !! i = Some p →
      ∃ a1 a2 a3 a4,
        pointAccelerations k1 !! i = Some a1 ∧
        pointAccelerations k2 !! i = Some a2 ∧
        pointAccelerations k3 !! i = Some a3 ∧
        pointAccelerations k4 !! i = Some a4 ∧
        let velocity' :=
          vecAdd (pm_velocity p)
                 (vecScale (rk4Sum a1 a2 a3 a4) (div (ctx_dt ctx) six)) in
        pointMasses next !! i =
          Some {| pm_id := pm_id p; pm_mass := pm_mass p;
                  pm_position :=
                    vecAdd (pm_position p) (vecScale velocity' (ctx_dt ctx));
                  pm_velocity := velocity' |}.
Proof.
  rewrite integrateRK4_unfold. intros H. unbind H. subst next.
  do 7 eexists. repeat (split; [done|]). intros i p Hp. simpl.
  destruct (forEachIndex_lookup _ _ _ _ _ Hx6 Hp) as (p' & Hp' & Hb).
  unfold rk4Point in Hb. unbind Hb. subst p'. eauto 10.
Qed.
End IntegratorOutcome.

(** ** The engine *)

Section EngineFacts.
Context {num : Type} {arith : Number num}.
Implicit Types (e : PhysicsEngine num) (st : SimulationState num).
Implicit Types (s : SpringConfig num) (accs : list (Vector3 num)).

Lemma indexConsistent_inRange e : indexConsistent e → inRange e (state e).
Proof.
  intros [H _] id i Hi. apply H in Hi.
  apply lookup_lt_Some in Hi. by rewrite length_fmap in Hi.
Qed.

Lemma inRange_length e st st' :
  length (pointMasses st') = length (pointMasses st) →
  inRange e st → inRange e st'.
Proof. intros Hl H id i Hi. rewrite Hl. by eapply H. Qed.

(** *** The derivative evaluator *)

Lemma springBody_Some e st accs s :
  inRange e st → length accs = length (pointMasses st) →
  ∃ accs', springBody e st accs s = Some accs' ∧ length accs' = length accs.
Proof.
  intros Hr Hl. unfold springBody.
  destruct (pointMassIndexById e !! aId s) as [ia|] eqn:Ea; [|by eauto].
  destruct (pointMassIndexById e !! bId s) as [ib|] eqn:Eb; [|by eauto].
  apply Hr in Ea, Eb.
  destruct (lookup_lt_is_Some_2 (pointMasses st) ia) as [a ->]; [done|].
  destruct (lookup_lt_is_Some_2 (pointMasses st) ib) as [b ->]; [done|].
  simpl.
  destruct (lookup_lt_is_Some_2 accs ia) as [accA ->]; [lia|]. simpl.
  match goal with
  | |- context [<[ia := ?v]> accs !! ib] =>
      destruct (lookup_lt_is_Some_2 (<[ia := v]> accs) ib) as [accB ->];
        [rewrite length_insert; lia|]
  end.
  simpl. eexists. split; [done|]. by rewrite !length_insert.
Qed.

Lemma forOf_springBody_Some e st l accs :
  inRange e st → length accs = length (pointMasses st) →
  ∃ accs', forOf (springBody e st) accs l = Some accs' ∧
           length accs' = length accs.
Proof.
  intros Hr. revert accs. induction l as [|s l IH]; intros accs Hl; simpl.
  - by eauto.
  - destruct (springBody_Some e st accs s Hr Hl) as (accs1 & -> & Hl1). simpl.
    destruct (IH accs1) as (accs' & -> & Hl'); [congruence|].
    eexists. split; [done|]. congruence.
Qed.

Lemma step_computeDerivative_Some e st :
  inRange e st → ∃ d, step_computeDerivative e st = Some d ∧ fits d st.
Proof.
  intros Hr. unfold step_computeDerivative.
  destruct (forOf_springBody_Some e st (springs e)
              (map (λ pm, sumAccelerationsForPointMass pm (forces e))
                   (pointMasses st)) Hr) as (accs & -> & Hl).
  { by rewrite length_map. }
  simpl. eexists. split; [done|]. unfold fits. simpl.
  rewrite Hl, !length_map. done.
Qed.

(** *** [step] *)

Lemma step_is_Some e : inRange e (state e) → is_Some (step e).
Proof.
  intros Hr. unfold step.
  destruct (integrate_is_Some (integratorName e) (contextOf e) (state e))
    as [next Hnext].
  { intros st Hp _. apply step_computeDerivative_Some.
    by eapply inRange_length. }
  unfold contextOf in Hnext. rewrite Hnext. by eexists.
Qed.

Lemma step_Some e e' :
  step e = Some e' →
  pickIntegrator (integratorName e) (contextOf e) (state e) = Some (state e') ∧
  sameSetup e e'.
Proof.
  unfold step. intros H. unbind H. subst e'. by repeat split.
Qed.

Lemma step_indexConsistent e e' :
  step e = Some e' → indexConsistent e → indexConsistent e'.
Proof.
  intros [Hi (_ & _ & _ & Hm & _)]%step_Some [H1 H2].
  apply integrate_frame in Hi as [Hp _].
  assert (Hid : pm_id <$> pointMasses (state e') = pm_id <$> pointMasses (state e)).
  { apply (f_equal (fmap fst)) in Hp.
    by rewrite <- !list_fmap_compose in Hp. }
  unfold indexConsistent. rewrite Hid, Hm. by split.
Qed.

(** *** [applyImpulse] *)

Lemma applyImpulse_is_Some objectId impulse e :
  inRange e (state e) → is_Some (applyImpulse objectId impulse e).
Proof.
  intros Hr. unfold applyImpulse.
  destruct (pointMassIndexById e !! objectId) as [i|] eqn:E.
  - apply Hr in E.
    destruct (lookup_lt_is_Some_2 (pointMasses (state e)) i) as [p ->]; [done|].
    by eexists.
  - destruct (list_find _ _) as [[i rb]|]; by eexists.
Qed.

Lemma applyImpulse_Some objectId impulse e e' :
  applyImpulse objectId impulse e = Some e' →
  sameSetup e e' ∧
  time (state e') = time (state e) ∧
  stepIndex (state e') = stepIndex (state e) ∧
  pm_frame <$> pointMasses (state e') = pm_frame <$> pointMasses (state e) ∧
  rb_frame <$> rigidBodies (state e') = rb_frame <$> rigidBodies (state e) ∧
  rb_orientation <$> rigidBodies (state e')
    = rb_orientation <$> rigidBodies (state e).
Proof.
  unfold applyImpulse. intros H.
  destruct (pointMassIndexById e !! objectId) as [i|] eqn:E.
  - unbind H. subst e'. simpl. repeat split.
    rewrite list_fmap_insert. simpl. apply list_insert_id.
    by rewrite list_lookup_fmap, Hx.
  - destruct (list_find _ _) as [[i rb]|] eqn:F.
    + injection H as <-. apply list_find_Some in F as (Hi & _ & _).
      simpl. repeat split.
      * rewrite list_fmap_insert. simpl. apply list_insert_id.
        by rewrite list_lookup_fmap, Hi.
      * rewrite list_fmap_insert. simpl. apply list_insert_id.
        by rewrite list_lookup_fmap, Hi.
    + injection H as <-. by repeat split.
Qed.

Lemma applyImpulse_indexConsistent objectId impulse e e' :
  applyImpulse objectId impulse e = Some e' →
  indexConsistent e → indexConsistent e'.
Proof.
  intros ((_ & _ & _ & Hm & _) & _ & _ & Hp & _)%applyImpulse_Some [H1 H2].
  assert (Hid : pm_id <$> pointMasses (state e') = pm_id <$> pointMasses (state e)).
  { apply (f_equal (fmap fst)) in Hp.
    by rewrite <- !list_fmap_compose in Hp. }
  unfold indexConsistent. rewrite Hid, Hm. by split.
Qed.

(** *** Sequences of calls *)

Lemma call_indexConsistent e c e' :
  call e c = Some e' → indexConsistent e → indexConsistent e'.
Proof.
  destruct c; simpl;
    [apply step_indexConsistent | apply applyImpulse_indexConsistent].
Qed.

Lemma call_is_Some e c : indexConsistent e → is_Some (call e c).
Proof.
  intros H%indexConsistent_inRange.
  destruct c; simpl; [by apply step_is_Some | by apply applyImpulse_is_Some].
Qed.

Lemma run_is_Some e cs : indexConsistent e → is_Some (run e cs).
Proof.
  revert e. induction cs as [|c cs IH]; intros e He; simpl; [by eexists|].
  destruct (call_is_Some e c He) as [e' Hc].
  unfold run. simpl. rewrite Hc. simpl.
  apply IH. by eapply call_indexConsistent.
Qed.

Lemma run_indexConsistent e cs e' :
  run e cs = Some e' → indexConsistent e → indexConsistent e'.
Proof.
  revert e. induction cs as [|c cs IH]; intros e H He.
  - by injection H as <-.
  - unfold run in H. simpl in H. unbind H.
    eapply IH; [exact H|]. by eapply call_indexConsistent.
Qed.

Lemma steps_is_Some n e : indexConsistent e → is_Some (steps n e).
Proof.
  revert e. induction n as [|n IH]; intros e He; simpl; [by eexists|].
  destruct (step_is_Some e (indexConsistent_inRange e He)) as [e' Hs].
  rewrite Hs. simpl. apply IH. by eapply step_indexConsistent.
Qed.
End EngineFacts.

(** ** The constructor *)

Section ConstructFacts.
Context {num : Type} {arith : Number num}.
Implicit Types (pms : list (PointMassConfig num)) (m : gmap string nat).

(** An entry of the map built by the constructor is an entry of the
    initial map that no point mass overwrote, or the position of a
    point mass with that id. *)
Lemma setIndexById_lookup idx pms m id j :
  setIndexById idx pms m !! id = Some j →
  m !! id = Some j ∨ (idx ≤ j ∧ (pmc_id <$> pms) !! (j - idx) = Some id).
Proof.
  revert idx m. induction pms as [|pm rest IH]; intros idx m H; simpl in H.
  - by left.
  - apply IH in H as [H|[Hle H]].
    + destruct (decide (pmc_id pm = id)) as [<-|Hne].
      * rewrite lookup_insert_eq in H. injection H as <-.
        right. split; [done|]. by rewrite Nat.sub_diag.
      * rewrite lookup_insert_ne in H by done. by left.
    + right. split; [lia|].
      replace (j - idx) with (S (j - S idx)) by lia. done.
Qed.

Lemma setIndexById_is_Some idx pms m id :
  is_Some (m !! id) ∨ id ∈ pmc_id <$> pms →
  is_Some (setIndexById idx pms m !! id).
Proof.
  revert idx m. induction pms as [|pm rest IH]; intros idx m H; simpl.
  - destruct H as [H|H]; [done|]. by apply elem_of_nil in H.
  - apply IH. destruct H as [H|H].
    + left. destruct (decide (pmc_id pm = id)) as [<-|Hne].
      * rewrite lookup_insert_eq. by eexists.
      * by rewrite lookup_insert_ne.
    + simpl in H. apply elem_of_cons in H as [->|H]; [|by right].
      left. rewrite lookup_insert_eq. by eexists.
Qed.

Lemma construct_indexConsistent (config : SimulationConfig num) :
  indexConsistent (construct config).
Proof.
  split; simpl.
  - intros id i H. apply setIndexById_lookup in H as [H|[_ H]]; [done|].
    rewrite Nat.sub_0_r in H. by rewrite <- list_fmap_compose.
  - intros id H. apply setIndexById_is_Some. right.
    by rewrite <- list_fmap_compose in H.
Qed.

Lemma run_construct_is_Some (config : SimulationConfig num) cs :
  ∃ e, run (construct config) cs = Some e ∧ indexConsistent e.
Proof.
  destruct (run_is_Some (construct config) cs) as [e He].
  { apply construct_indexConsistent. }
  exists e. split; [done|].
  eapply run_indexConsistent; [done|]. apply construct_indexConsistent.
Qed.
End ConstructFacts.

(** ** The integration formulas *)

Section StepFormulas.
Context {num : Type} {arith : Number num}.
Implicit Types (e : PhysicsEngine num).

(** C6. One semi-implicit Euler step returns and, for every point mass
    and in each of the three components [c], first sets
    velocity' = velocity + acceleration·dt and then
    position' = position + velocity'·dt with the new velocity, where
    acceleration is the entry of that point mass in the derivative
    evaluated at the current state; id and mass are kept.  The sums and
    products are those of the engine's arithmetic, in the order of the
    source. *)
Theorem semi_implicit_step_point_mass e :
  indexConsistent e → integratorName e = semi →
  ∃ d e',
    step_computeDerivative e (state e) = Some d ∧
    step e = Some e' ∧
    ∀ i p, pointMasses (state e) !! i = Some p →
      ∃ a p',
        pointAccelerations d !! i = Some a ∧
        pointMasses (state e') !! i = Some p' ∧
        pm_id p' = pm_id p ∧ pm_mass p' = pm_mass p ∧
        ∀ c, c ∈ [v0; v1; v2] →
          c (pm_velocity p') = (c (pm_velocity p) + c a * dt e)%num ∧
          c (pm_position p') =
            (c (pm_position p) + c (pm_velocity p') * dt e)%num.
Proof.
  intros Hc Hn.
  destruct (step_is_Some e (indexConsistent_inRange e Hc)) as [e' Hs].
  destruct (step_Some _ _ Hs) as [Hi _]. rewrite Hn in Hi. simpl in Hi.
  apply integrateSemiImplicitEuler_point in Hi as (d & Hd & Hp).
  exists d, e'. split; [exact Hd|]. split; [exact Hs|]. intros i p Hi.
  destruct (Hp i p Hi) as (a & Ha & Hnext). simpl in Hnext.
  eexists a, _. split; [exact Ha|]. split; [exact Hnext|].
  split; [done|]. split; [done|].
  intros c Hin. each_component Hin; by split.
Qed.

(** C3. One RK4 step returns and, for every point mass i and in each of
    the three components [c], sets the new velocity to
    velocity + (k1_i + 2·k2_i + 2·k3_i + k4_i)·(dt/6) and the new
    position to the old position + (new velocity)·dt, where k1 is the
    derivative at the current state, k2 and k3 the derivatives at the
    intermediate states [s2] and [s3], advanced from the current state
    by dt·0.5 with k1 and with k2, and k4 the derivative at the
    intermediate state [s4], advanced by dt with k3.  An intermediate
    state holds position + velocity·h and velocity + k_i·h, of the
    current position and velocity.  The sums and products are those of
    the engine's arithmetic, in the order of the source. *)
Theorem rk4_step_point_mass e :
  indexConsistent e → integratorName e = rk4 →
  ∃ k1 s2 k2 s3 k3 s4 k4 e',
    step_computeDerivative e (state e) = Some k1 ∧
    rk4Stage (state e) k1 (dt e * half)%num = Some s2 ∧
    step_computeDerivative e s2 = Some k2 ∧
    rk4Stage (state e) k2 (dt e * half)%num = Some s3 ∧
    step_computeDerivative e s3 = Some k3 ∧
    rk4Stage (state e) k3 (dt e) = Some s4 ∧
    step_computeDerivative e s4 = Some k4 ∧
    step e = Some e' ∧
    ∀ i p, pointMasses (state e) !! i = Some p →
      ∃ a1 a2 a3 a4 p2 p3 p4 p',
        pointAccelerations k1 !! i = Some a1 ∧
        pointAccelerations k2 !! i = Some a2 ∧
        pointAccelerations k3 !! i = Some a3 ∧
        pointAccelerations k4 !! i = Some a4 ∧
        pointMasses s2 !! i = Some p2 ∧
        pointMasses s3 !! i = Some p3 ∧
        pointMasses s4 !! i = Some p4 ∧
        pointMasses (state e') !! i = Some p' ∧
        pm_frame <$> [p2; p3; p4; p'] = replicate 4 (pm_id p, pm_mass p) ∧
        ∀ c, c ∈ [v0; v1; v2] →
          let x := c (pm_position p) in
          let v := c (pm_velocity p) in
          c (pm_position p2) = (x + v * (dt e * half))%num ∧
          c (pm_velocity p2) = (v + c a1 * (dt e * half))%num ∧
          c (pm_position p3) = (x + v * (dt e * half))%num ∧
          c (pm_velocity p3) = (v + c a2 * (dt e * half))%num ∧
          c (pm_position p4) = (x + v * dt e)%num ∧
          c (pm_velocity p4) = (v + c a3 * dt e)%num ∧
          c (pm_velocity p') =
            (v + (c a1 + two * c a2 + two * c a3 + c a4) * (dt e / six))%num ∧
          c (pm_position p') = (x + c (pm_velocity p') * dt e)%num.
Proof.
  intros Hc Hn.
  destruct (step_is_Some e (indexConsistent_inRange e Hc)) as [e' Hs].
  destruct (step_Some _ _ Hs) as [Hi _]. rewrite Hn in Hi. simpl in Hi.
  apply integrateRK4_point in Hi
    as (k1 & s2 & k2 & s3 & k3 & s4 & k4 & H1 & S2 & H2 & S3 & H3 & S4 & H4 & Hp).
  simpl in *.
  exists k1, s2, k2, s3, k3, s4, k4, e'. repeat split; [done..|].
  intros i p Hi.
  destruct (Hp i p Hi) as (a1 & a2 & a3 & a4 & A1 & A2 & A3 & A4 & Hnext).
  destruct (rk4Stage_point _ _ _ _ _ _ S2 Hi) as (b1 & B1 & P2).
  destruct (rk4Stage_point _ _ _ _ _ _ S3 Hi) as (b2 & B2 & P3).
  destruct (rk4Stage_point _ _ _ _ _ _ S4 Hi) as (b3 & B3 & P4).
  assert (b1 = a1) as -> by congruence.
  assert (b2 = a2) as -> by congruence.
  assert (b3 = a3) as -> by congruence.
  simpl in Hnext.
  exists a1, a2, a3, a4. eexists _, _, _, _.
  split; [exact A1|]. split; [exact A2|]. split; [exact A3|].
  split; [exact A4|]. split; [exact P2|]. split; [exact P3|].
  split; [exact P4|]. split; [exact Hnext|]. split; [done|].
  intros c Hin. each_component Hin; by repeat split.
Qed.
End StepFormulas.

Section StepFormulasWitnesses.
Local Open Scope R_scope.

Lemma semi_implicit_step_point_mass_witness :
  let e := construct (Sample.scene semi [Sample.link]) in
  (indexConsistent e ∧ integratorName e = semi) ∧
  ∃ d e' a p',
    step_computeDerivative e (state e) = Some d ∧
    step e = Some e' ∧
    pointAccelerations d !! 0%nat = Some a ∧
    pointMasses (state e') !! 0%nat = Some p' ∧
    v0 (pm_velocity p') = 1 + v0 a * (1 / 100) ∧
    v0 (pm_position p') = 0 + v0 (pm_velocity p') * (1 / 100).
Proof.
  intros e.
  assert (Hc : indexConsistent e) by apply construct_indexConsistent.
  split; [split; [exact Hc|reflexivity]|].
  destruct (semi_implicit_step_point_mass e Hc eq_refl) as (d & e' & Hd & Hs & Hp).
  destruct (Hp 0%nat _ eq_refl) as (a & p' & Ha & Hp' & _ & _ & Hcomp).
  destruct (Hcomp v0) as [Hv Hx]; [apply elem_of_cons; by left|].
  exists d, e', a, p'. repeat split; assumption.
Defined.

Lemma rk4_step_point_mass_witness :
  let e := construct (Sample.scene rk4 [Sample.link]) in
  (indexConsistent e ∧ integratorName e = rk4) ∧
  ∃ e' p', step e = Some e' ∧
    pointMasses (state e') !! 0%nat = Some p' ∧
    v0 (pm_position p') = 0 + v0 (pm_velocity p') * (1 / 100).
Proof.
  intros e.
  assert (Hc : indexConsistent e) by apply construct_indexConsistent.
  split; [split; [exact Hc|reflexivity]|].
  destruct (rk4_step_point_mass e Hc eq_refl)
    as (k1 & s2 & k2 & s3 & k3 & s4 & k4 & e'
        & _ & _ & _ & _ & _ & _ & _ & Hs & Hp).
  destruct (Hp 0%nat _ eq_refl)
    as (a1 & a2 & a3 & a4 & p2 & p3 & p4 & p'
        & _ & _ & _ & _ & _ & _ & _ & Hp' & _ & Hcomp).
  destruct (Hcomp v0) as (_ & _ & _ & _ & _ & _ & _ & Hx);
    [apply elem_of_cons; by left|].
  exists e', p'. split; [exact Hs|]. split; [exact Hp'|exact Hx].
Defined.
End StepFormulasWitnesses.

(** ** Springs with an unresolved anchor *)

Section UnresolvedSprings.
Context {num : Type} {arith : Number num}.
Implicit Types (e : PhysicsEngine num) (st : SimulationState num).
Implicit Types (s : SpringConfig num) (accs : list (Vector3 num)).

Lemma springBody_unresolved e st accs s :
  unresolved e s → springBody e st accs s = Some accs.
Proof.
  unfold springBody. intros [-> | ->]; [done|].
  by destruct (pointMassIndexById e !! aId s).
Qed.

Lemma forOf_springBody_skip e st accs s l1 l2 :
  unresolved e s →
  forOf (springBody e st) accs (l1 ++ s :: l2)
    = forOf (springBody e st) accs (l1 ++ l2).
Proof.
  intros Hs. rewrite !forOf_app.
  destruct (forOf (springBody e st) accs l1) as [accs1|]; simpl; [|done].
  by rewrite springBody_unresolved.
Qed.

Lemma step_computeDerivative_skip e s l1 l2 st :
  springs e = l1 ++ s :: l2 → unresolved e s →
  step_computeDerivative e st
    = step_computeDerivative (withSprings e (l1 ++ l2)) st.
Proof.
  intros Hl Hs. unfold step_computeDerivative. rewrite Hl. simpl.
  change (springBody (withSprings e (l1 ++ l2)) st) with (springBody e st).
  by rewrite forOf_springBody_skip.
Qed.

(** An integrator depends on the derivative evaluator through its
    results only. *)
Lemma pickIntegrator_ext name (ctx ctx' : DynamicsContext num) current :
  ctx_dt ctx = ctx_dt ctx' →
  (∀ st, computeDerivative ctx st = computeDerivative ctx' st) →
  pickIntegrator name ctx current = pickIntegrator name ctx' current.
Proof.
  intros Hdt H. destruct name; simpl.
  - rewrite !integrateEuler_unfold, Hdt, H. done.
  - rewrite !integrateSemiImplicitEuler_unfold, Hdt, H. done.
  - rewrite !integrateRK4_unfold, Hdt, H.
    destruct (computeDerivative ctx' current) as [k1|]; simpl; [|done].
    destruct (rk4Stage current k1 _) as [s2|]; simpl; [|done]. rewrite H.
    destruct (computeDerivative ctx' s2) as [k2|]; simpl; [|done].
    destruct (rk4Stage current k2 _) as [s3|]; simpl; [|done]. rewrite H.
    destruct (computeDerivative ctx' s3) as [k3|]; simpl; [|done].
    destruct (rk4Stage current k3 _) as [s4|]; simpl; [|done]. rewrite H.
    done.
Qed.

(** C7. A spring whose aId or bId is not a key of the id→index map is
    skipped: the derivative evaluator returns, on every state, what it
    returns without that spring in the list, and [step()] returns (it
    does not throw) the state it returns without that spring.  The
    engine has no other output on which a warning could appear. *)
Theorem unresolved_spring_is_skipped e s l1 l2 :
  indexConsistent e → springs e = l1 ++ s :: l2 → unresolved e s →
  (∀ st, step_computeDerivative e st
         = step_computeDerivative (withSprings e (l1 ++ l2)) st) ∧
  ∃ e1 e2,
    step e = Some e1 ∧
    step (withSprings e (l1 ++ l2)) = Some e2 ∧
    state e1 = state e2.
Proof.
  intros Hc Hl Hs. split.
  { intros st. by apply (step_computeDerivative_skip e s). }
  destruct (step_is_Some e (indexConsistent_inRange e Hc)) as [e1 H1].
  exists e1.
  pose proof (step_Some _ _ H1) as [Hi _].
  rewrite (pickIntegrator_ext _ _ (contextOf (withSprings e (l1 ++ l2)))) in Hi;
    [|done|intros st; by apply (step_computeDerivative_skip e s)].
  exists (setState (withSprings e (l1 ++ l2)) (state e1)).
  split; [done|]. split; [|done].
  unfold step. fold (contextOf (withSprings e (l1 ++ l2))).
  change (integratorName (withSprings e (l1 ++ l2))) with (integratorName e).
  change (state (withSprings e (l1 ++ l2))) with (state e).
  by rewrite Hi.
Qed.
End UnresolvedSprings.

Lemma unresolved_spring_is_skipped_witness :
  let e := construct (Sample.scene euler [Sample.link; Sample.dangling]) in
  indexConsistent e ∧
  springs e = [Sample.link] ++ Sample.dangling :: [] ∧
  unresolved e Sample.dangling ∧
  ∃ e1 e2, step e = Some e1 ∧
           step (withSprings e ([Sample.link] ++ [])) = Some e2 ∧
           state e1 = state e2.
Proof.
  intros e.
  assert (Hc : indexConsistent e) by apply construct_indexConsistent.
  assert (Hl : springs e = [Sample.link] ++ Sample.dangling :: []) by reflexivity.
  assert (Hu : unresolved e Sample.dangling) by (right; reflexivity).
  split; [exact Hc|]. split; [exact Hl|]. split; [exact Hu|].
  exact (proj2 (unresolved_spring_is_skipped e Sample.dangling
                  [Sample.link] [] Hc Hl Hu)).
Defined.

(** ** Impulses on unknown ids, the frame of a step *)

Section EngineProperties.
Context {num : Type} {arith : Number num}.
Implicit Types (e : PhysicsEngine num) (cs : list (Call num)).

(** C8. For an id that is the id of no point mass and of no rigid body
    of the state, [applyImpulse(id, J)] returns without throwing and
    leaves the engine, hence the whole simulation state, as it was. *)
Theorem applyImpulse_unknown_id e objectId (J : Vector3 num) :
  indexConsistent e →
  objectId ∉ pm_id <$> pointMasses (state e) →
  objectId ∉ rb_id <$> rigidBodies (state e) →
  applyImpulse objectId J e = Some e.
Proof.
  intros [H1 _] Hp Hr. unfold applyImpulse.
  destruct (pointMassIndexById e !! objectId) as [i|] eqn:E.
  - exfalso. apply Hp. apply H1 in E. by eapply list_elem_of_lookup_2.
  - destruct (list_find _ _) as [[i rb]|] eqn:F; [|done].
    exfalso. apply Hr. apply list_find_Some in F as (Hi & Hid & _).
    rewrite <- Hid. apply list_elem_of_fmap_2.
    by eapply list_elem_of_lookup_2.
Qed.

(** C10. A step returns and leaves unchanged the number and the order of
    the point masses and of the rigid bodies, the id and the mass of
    every body and the size of every rigid body, for every integrator;
    the engine's configuration outside the state is unchanged too. *)
Theorem step_frame e :
  indexConsistent e →
  ∃ e', step e = Some e' ∧
    length (pointMasses (state e')) = length (pointMasses (state e)) ∧
    length (rigidBodies (state e')) = length (rigidBodies (state e)) ∧
    pm_id <$> pointMasses (state e') = pm_id <$> pointMasses (state e) ∧
    pm_mass <$> pointMasses (state e') = pm_mass <$> pointMasses (state e) ∧
    rb_id <$> rigidBodies (state e') = rb_id <$> rigidBodies (state e) ∧
    rb_mass <$> rigidBodies (state e') = rb_mass <$> rigidBodies (state e) ∧
    rb_size <$> rigidBodies (state e') = rb_size <$> rigidBodies (state e) ∧
    sameSetup e e'.
Proof.
  intros Hc.
  destruct (step_is_Some e (indexConsistent_inRange e Hc)) as [e' Hs].
  exists e'. split; [done|].
  destruct (step_Some _ _ Hs) as [Hi Hsame].
  destruct (integrate_length _ _ _ _ Hi) as [Lp Lr].
  destruct (integrate_frame _ _ _ _ Hi) as [Fp Fr].
  repeat split; try done.
  - apply (f_equal (fmap fst)) in Fp. by rewrite <- !list_fmap_compose in Fp.
  - apply (f_equal (fmap snd)) in Fp. by rewrite <- !list_fmap_compose in Fp.
  - apply (f_equal (fmap (λ x, x.1.1))) in Fr.
    by rewrite <- !list_fmap_compose in Fr.
  - apply (f_equal (fmap (λ x, x.1.2))) in Fr.
    by rewrite <- !list_fmap_compose in Fr.
  - apply (f_equal (fmap snd)) in Fr. by rewrite <- !list_fmap_compose in Fr.
  - apply Hsame.
  - apply Hsame.
  - apply Hsame.
  - apply Hsame.
  - apply Hsame.
Qed.

End EngineProperties.

Lemma applyImpulse_unknown_id_witness :
  let e := construct (Sample.scene rk4 [Sample.link]) in
  indexConsistent e ∧
  ("ghost" ∉ pm_id <$> pointMasses (state e)) ∧
  ("ghost" ∉ rb_id <$> rigidBodies (state e)) ∧
  applyImpulse "ghost" (V3 1 2 3)%R e = Some e.
Proof.
  intros e.
  assert (Hc : indexConsistent e) by apply construct_indexConsistent.
  assert (Hp : "ghost" ∉ pm_id <$> pointMasses (state e)).
  { simpl. rewrite !not_elem_of_cons. repeat split; [done..|]. apply not_elem_of_nil. }
  assert (Hr : "ghost" ∉ rb_id <$> rigidBodies (state e)).
  { simpl. rewrite !not_elem_of_cons. repeat split; [done..|]. apply not_elem_of_nil. }
  split; [exact Hc|]. split; [exact Hp|]. split; [exact Hr|].
  exact (applyImpulse_unknown_id e "ghost" (V3 1 2 3)%R Hc Hp Hr).
Defined.

Lemma step_frame_witness :
  let e := construct (Sample.scene euler [Sample.link]) in
  indexConsistent e ∧
  ∃ e', step e = Some e' ∧
        pm_id <$> pointMasses (state e') = ["a"; "b"] ∧
        rb_id <$> rigidBodies (state e') = ["box"].
Proof.
  intros e.
  assert (Hc : indexConsistent e) by apply construct_indexConsistent.
  split; [exact Hc|].
  destruct (step_frame e Hc) as (e' & Hs & _ & _ & Hp & _ & Hr & _).
  exists e'. split; [exact Hs|]. split; [exact Hp|exact Hr].
Defined.

(** ** Time and step index *)

Section Clock.
Context {num : Type} {arith : Number num}.
Implicit Types (e : PhysicsEngine num) (cs : list (Call num)).

Lemma call_clock e c e' :
  call e c = Some e' →
  dt e' = dt e ∧
  time (state e') =
    (if isStep c then add (time (state e)) (dt e) else time (state e)) ∧
  stepIndex (state e') =
    (if isStep c then stepIndex (state e) + 1 else stepIndex (state e))%Z.
Proof.
  destruct c; simpl; intros H.
  - apply step_Some in H as [Hi (Hdt & _)].
    apply integrate_time in Hi as [Ht Hn]. by rewrite Hdt.
  - apply applyImpulse_Some in H as ((Hdt & _) & Ht & Hn & _). done.
Qed.

(** After a sequence of calls, [dt] has been added to the time once per
    [step()] among them, and 1 to the step index. *)
Lemma run_clock e cs e' :
  run e cs = Some e' →
  dt e' = dt e ∧
  time (state e') =
    Nat.iter (stepCount cs) (λ t, add t (dt e)) (time (state e)) ∧
  stepIndex (state e') = (stepIndex (state e) + Z.of_nat (stepCount cs))%Z.
Proof.
  revert e. induction cs as [|c cs IH]; intros e H.
  - injection H as <-. unfold stepCount. simpl. split; [done|]. split; [done|]. lia.
  - unfold run in H. simpl in H. unbind H.
    destruct (call_clock _ _ _ Hx) as (Hdt & Ht & Hn).
    destruct (IH _ H) as (Hdt' & Ht' & Hn').
    split; [congruence|]. rewrite Ht', Hn', Hdt, Ht, Hn.
    destruct c as [|objectId impulse]; cbn [isStep].
    + change (stepCount (CallStep :: cs)) with (S (stepCount cs)).
      rewrite Nat.iter_succ_r. split; [done|lia].
    + change (stepCount (CallApplyImpulse objectId impulse :: cs))
        with (stepCount cs).
      split; [done|lia].
Qed.
End Clock.

Section ExactClock.
Local Open Scope R_scope.

Lemma iter_add_dt (n : nat) (h : R) :
  Nat.iter n (λ t, add t h) 0 = INR n * h.
Proof.
  induction n as [|n IH].
  - simpl. lra.
  - rewrite Nat.iter_succ, IH, S_INR. simpl. lra.
Qed.
End ExactClock.

(** C2, amended.  After construction time = 0 and stepIndex = 0.
    Whatever calls have been made since, with any of the three
    integrators, the next [step()] returns, replaces the time by
    time + dt, the sum being that of the engine's arithmetic, and adds
    exactly 1 to the step index; after calls of which n are [step()],
    the time is 0 with dt added n times in that arithmetic and
    stepIndex = n.  In exact real arithmetic that time is n·dt. *)
Theorem time_and_stepIndex_lockstep :
  (∀ (num : Type) (arith : Number num)
     (config : SimulationConfig num) (cs : list (Call num)),
     time (state (construct config)) = zero ∧
     stepIndex (state (construct config)) = 0%Z ∧
     ∃ e e',
       run (construct config) cs = Some e ∧
       time (state e) =
         Nat.iter (stepCount cs) (λ t, t + cfg_dt config)%num zero ∧
       stepIndex (state e) = Z.of_nat (stepCount cs) ∧
       step e = Some e' ∧
       time (state e') = (time (state e) + cfg_dt config)%num ∧
       stepIndex (state e') = (stepIndex (state e) + 1)%Z) ∧
  (∀ (config : SimulationConfig R) (cs : list (Call R)),
     ∃ e, run (construct config) cs = Some e ∧
          time (state e) = (INR (stepCount cs) * cfg_dt config)%R).
Proof.
  assert (Hany : ∀ (num : Type) (arith : Number num)
            (config : SimulationConfig num) (cs : list (Call num)),
            ∃ e e',
              run (construct config) cs = Some e ∧
              time (state e) =
                Nat.iter (stepCount cs) (λ t, add t (cfg_dt config)) zero ∧
              stepIndex (state e) = Z.of_nat (stepCount cs) ∧
              step e = Some e' ∧
              time (state e') = add (time (state e)) (cfg_dt config) ∧
              stepIndex (state e') = (stepIndex (state e) + 1)%Z).
  { intros num arith config cs.
    destruct (run_construct_is_Some config cs) as (e & Hrun & Hc).
    destruct (step_is_Some e (indexConsistent_inRange e Hc)) as [e' Hs].
    exists e, e'.
    destruct (run_clock _ _ _ Hrun) as (Hdt & Ht & Hn).
    destruct (call_clock e CallStep e' Hs) as (_ & Ht' & Hn').
    simpl in *. rewrite Hdt in Ht'.
    split; [done|]. split; [done|].
    split; [rewrite Hn; simpl; lia|].
    split; [done|]. split; [done|]. done. }
  split.
  - intros num arith config cs. split; [done|]. split; [done|]. apply Hany.
  - intros config cs.
    destruct (Hany R _ config cs) as (e & _ & Hrun & Ht & _).
    exists e. split; [exact Hrun|]. rewrite Ht. apply iter_add_dt.
Qed.

Section ClockRounding.
Local Open Scope float_scope.
#[local] Set Warnings "-inexact-float".

(** C2 as stated fails in binary64.  With dt = 0.1 and each of the three
    integrators, ten steps bring the step index to 10 and the time to
    0.1 added ten times, which is 0.99999999999999989, below
    10·dt = 1; and the third step raises the time from
    0.2 to 0.30000000000000004, by more than dt. *)
Lemma clock_rounding_counterexample :
  Forall (λ name,
    ∃ e2 e3 e10,
      steps 2 (construct (Scenes64.ticking name)) = Some e2 ∧
      step e2 = Some e3 ∧
      steps 7 e3 = Some e10 ∧
      stepIndex (state e10) = 10%Z ∧
      time (state e2) = 0.2 ∧
      time (state e3) = 0.30000000000000004 ∧
      PrimFloat.eqb (time (state e3) - time (state e2)) 0.1 = false ∧
      time (state e10) = 0.99999999999999989 ∧
      10 * cfg_dt (Scenes64.ticking name) = 1 ∧
      PrimFloat.eqb (time (state e10)) (10 * cfg_dt (Scenes64.ticking name))
        = false)
    [euler; semi; rk4].
Proof.
  repeat (apply Forall_cons; split); [..|apply Forall_nil];
    do 3 eexists;
    (split; [vm_compute; reflexivity|]);
    (split; [vm_compute; reflexivity|]);
    (split; [vm_compute; reflexivity|]);
    vm_compute; repeat split.
Qed.
End ClockRounding.

(** ** Impulses on point masses *)

Section Impulse.
Context {num : Type} {arith : Number num}.
Implicit Types (e : PhysicsEngine num).

(** The impulse goes to the point mass the id→index map holds for the
    id: its velocity becomes [velocity + impulse * (1 / mass)], nothing
    else changes. *)
Lemma applyImpulse_resolved e objectId (J : Vector3 num) i p :
  pointMassIndexById e !! objectId = Some i →
  pointMasses (state e) !! i = Some p →
  ∃ e',
    applyImpulse objectId J e = Some e' ∧
    pointMasses (state e') !! i =
      Some {| pm_id := pm_id p; pm_mass := pm_mass p;
              pm_position := pm_position p;
              pm_velocity :=
                vecAdd (pm_velocity p) (vecScale J (div one (pm_mass p))) |} ∧
    (∀ j, j ≠ i → pointMasses (state e') !! j = pointMasses (state e) !! j) ∧
    rigidBodies (state e') = rigidBodies (state e) ∧
    time (state e') = time (state e) ∧
    stepIndex (state e') = stepIndex (state e) ∧
    sameSetup e e'.
Proof.
  intros Hm Hp. unfold applyImpulse. rewrite Hm, Hp. simpl.
  eexists. split; [done|]. simpl. split.
  { apply list_lookup_insert_eq. by eapply lookup_lt_Some. }
  split; [|done]. intros j Hj. by apply list_lookup_insert_ne.
Qed.

(** The map holds, for the id of a point mass that no other point mass
    shares, the position of that point mass. *)
Lemma indexConsistent_resolves e i p :
  indexConsistent e →
  pointMasses (state e) !! i = Some p →
  (∀ j q, pointMasses (state e) !! j = Some q → pm_id q = pm_id p → j = i) →
  pointMassIndexById e !! pm_id p = Some i.
Proof.
  intros [H1 H2] Hp Honly.
  assert (Hi : (pm_id <$> pointMasses (state e)) !! i = Some (pm_id p)).
  { by rewrite list_lookup_fmap, Hp. }
  destruct (H2 (pm_id p)) as [j Hj].
  { by eapply list_elem_of_lookup_2. }
  rewrite Hj. f_equal. apply H1 in Hj.
  rewrite list_lookup_fmap in Hj.
  destruct (pointMasses (state e) !! j) as [q|] eqn:Hq; [|done].
  injection Hj as Hid. by apply (Honly j q).
Qed.

(** C1, amended.  In an engine whose state holds a point mass with id
    objectId and mass m (the only point mass with that id: ids are
    unique in the data model), [applyImpulse(objectId, J)] returns,
    whatever integrator is configured, and changes the velocity of that
    point mass in each component [c] to velocity + J·(1/m), sum,
    product and quotient being those of the engine's arithmetic; in an
    arithmetic where x·(1/y) = x/y, as in exact arithmetic, that is
    velocity + J/m.  The position, id and mass of the point mass, every
    other point mass, the rigid bodies, the time, the step index and
    the configuration are unchanged. *)
Theorem applyImpulse_point_mass e objectId (J : Vector3 num) i p :
  indexConsistent e →
  pointMasses (state e) !! i = Some p → pm_id p = objectId →
  (∀ j q, pointMasses (state e) !! j = Some q → pm_id q = objectId → j = i) →
  ∃ e' p',
    applyImpulse objectId J e = Some e' ∧
    pointMasses (state e') !! i = Some p' ∧
    (∀ c, c ∈ [v0; v1; v2] →
       c (pm_velocity p') = (c (pm_velocity p) + c J * (one / pm_mass p))%num) ∧
    ((∀ x y : num, (x * (one / y))%num = (x / y)%num) →
     ∀ c, c ∈ [v0; v1; v2] →
       c (pm_velocity p') = (c (pm_velocity p) + c J / pm_mass p)%num) ∧
    pm_position p' = pm_position p ∧
    pm_id p' = pm_id p ∧ pm_mass p' = pm_mass p ∧
    (∀ j, j ≠ i → pointMasses (state e') !! j = pointMasses (state e) !! j) ∧
    rigidBodies (state e') = rigidBodies (state e) ∧
    time (state e') = time (state e) ∧
    stepIndex (state e') = stepIndex (state e) ∧
    sameSetup e e'.
Proof.
  intros Hc Hp <- Honly.
  pose proof (indexConsistent_resolves e i p Hc Hp Honly) as Hm.
  destruct (applyImpulse_resolved e (pm_id p) J i p Hm Hp)
    as (e' & Ha & Hp' & Hothers & Hr & Ht & Hn & Hsame).
  exists e'. eexists. split; [exact Ha|]. split; [exact Hp'|]. simpl.
  assert (Hcode : ∀ c, c ∈ [v0; v1; v2] →
            c (vecAdd (pm_velocity p) (vecScale J (div one (pm_mass p))))
            = add (c (pm_velocity p)) (mul (c J) (div one (pm_mass p)))).
  { intros c Hin. by each_component Hin. }
  split; [exact Hcode|]. split.
  { intros Hexact c Hin. by rewrite Hcode, Hexact. }
  split; [done|]. split; [done|]. split; [done|]. split; [exact Hothers|].
  split; [exact Hr|]. split; [exact Ht|]. split; [exact Hn|exact Hsame].
Qed.
End Impulse.

Section ExactImpulse.
Local Open Scope R_scope.

Lemma applyImpulse_point_mass_witness :
  let e := construct (Sample.scene euler [Sample.link]) in
  let b := {| pm_id := "b"; pm_mass := 3; pm_position := V3 4 0 0;
              pm_velocity := Sample.origin |} in
  (indexConsistent e ∧ pointMasses (state e) !! 1%nat = Some b ∧
   pm_id b = "b" ∧
   (∀ j q, pointMasses (state e) !! j = Some q → pm_id q = "b" → j = 1%nat) ∧
   (∀ x y : R, x * (1 / y) = x / y)) ∧
  ∃ e' p',
    applyImpulse "b" (V3 3 0 0) e = Some e' ∧
    pointMasses (state e') !! 1%nat = Some p' ∧
    v0 (pm_velocity p') = 0 + 3 * (1 / 3) ∧
    v0 (pm_velocity p') = 0 + 3 / 3.
Proof.
  intros e b.
  assert (Hc : indexConsistent e) by apply construct_indexConsistent.
  assert (Honly : ∀ j q, pointMasses (state e) !! j = Some q →
                         pm_id q = "b" → j = 1%nat).
  { intros [|[|j]] q Hq Hid; [|reflexivity|].
    - injection Hq as <-. discriminate Hid.
    - discriminate Hq. }
  assert (Hexact : ∀ x y : R, x * (1 / y) = x / y).
  { intros x y. unfold Rdiv. ring. }
  split.
  { split; [exact Hc|]. split; [reflexivity|]. split; [reflexivity|].
    split; [exact Honly|exact Hexact]. }
  destruct (applyImpulse_point_mass e "b" (V3 3 0 0) 1 b Hc eq_refl eq_refl Honly)
    as (e' & p' & Ha & Hp' & Hcode & Hdiv & _).
  assert (Hin : v0 ∈ [v0; v1; v2 (num := R)]) by (apply elem_of_cons; by left).
  exists e', p'. split; [exact Ha|]. split; [exact Hp'|].
  split; [exact (Hcode v0 Hin)|exact (Hdiv Hexact v0 Hin)].
Defined.

(** Outside the data model, with two point masses of one id: the
    constructor keeps one index per id, so [applyImpulse("a", [1, 0, 0])]
    reaches the last point mass with id "a" and leaves the first as it
    was. *)
Lemma applyImpulse_duplicate_id :
  let e := construct Sample.twins in
  ∃ p e' p' q',
    pointMasses (state e) !! 0%nat = Some p ∧
    pm_id p = "a" ∧ pm_mass p = 1 ∧
    applyImpulse "a" (V3 1 0 0) e = Some e' ∧
    pointMasses (state e') !! 0%nat = Some p' ∧
    v0 (pm_velocity p') = v0 (pm_velocity p) ∧
    pointMasses (state e') !! 1%nat = Some q' ∧
    v0 (pm_velocity q') = 0 + 1 * (1 / 2).
Proof.
  intros e. do 4 eexists.
  split; [reflexivity|]. split; [reflexivity|]. split; [reflexivity|].
  split; [reflexivity|]. split; [reflexivity|]. split; [reflexivity|].
  split; reflexivity.
Qed.
End ExactImpulse.

Section ImpulseRounding.
Local Open Scope float_scope.
#[local] Set Warnings "-inexact-float".

(** C1 as stated fails in binary64 for a mass whose reciprocal
    overflows.  The point mass "p" is the only one with its id, is at
    rest and has the mass m = 1e-310 > 0; the impulse is
    J = [1e-310, 0, 0], so that J/m = [1, 0, 0].  The code multiplies J
    by 1/m, which is infinite: the velocity becomes
    [Infinity, NaN, NaN]. *)
Lemma applyImpulse_reciprocal_counterexample :
  let J := V3 1e-310 0 0 in
  ∃ p e p',
    pointMasses (state (construct Scenes64.featherweight)) = [p] ∧
    pm_id p = "p" ∧
    PrimFloat.ltb 0 (pm_mass p) = true ∧
    pm_velocity p = V3 0 0 0 ∧
    V3 (v0 J / pm_mass p) (v1 J / pm_mass p) (v2 J / pm_mass p) = V3 1 0 0 ∧
    1 / pm_mass p = PrimFloat.infinity ∧
    applyImpulse "p" J (construct Scenes64.featherweight) = Some e ∧
    pointMasses (state e) = [p'] ∧
    v0 (pm_velocity p') = PrimFloat.infinity ∧
    PrimFloat.is_nan (v1 (pm_velocity p')) = true ∧
    PrimFloat.is_nan (v2 (pm_velocity p')) = true.
Proof.
  intros J. do 3 eexists.
  split; [vm_compute; reflexivity|].
  split; [reflexivity|].
  split; [vm_compute; reflexivity|].
  split; [reflexivity|].
  split; [vm_compute; reflexivity|].
  split; [vm_compute; reflexivity|].
  split; [vm_compute; reflexivity|].
  split; [reflexivity|].
  vm_compute. repeat split.
Qed.
End ImpulseRounding.


(** ** Orientation *)

Section OrientationFacts.
Context {num : Type} {arith : Number num}.
Implicit Types (e : PhysicsEngine num) (cs : list (Call num)).
Implicit Types (q : Quaternion num).

(** What holds of every result of [quatNormalize] holds of every
    orientation once a [step()] has been made, and of every orientation
    if it held of those the run started with. *)
Lemma call_orientation (P : Quaternion num → Prop) e c e' :
  (∀ q, P (quatNormalize q)) →
  call e c = Some e' →
  isStep c ∨ (∀ r, r ∈ rigidBodies (state e) → P (rb_orientation r)) →
  ∀ r, r ∈ rigidBodies (state e') → P (rb_orientation r).
Proof.
  intros HP. destruct c as [|objectId impulse]; simpl; intros H Hor r Hr.
  - apply step_Some in H as [Hi _].
    destruct (integrate_orientation _ _ _ _ _ Hi Hr) as [q ->]. apply HP.
  - destruct Hor as [[]|Hstart].
    apply applyImpulse_Some in H as (_ & _ & _ & _ & _ & Ho).
    assert (Hq : rb_orientation r ∈ rb_orientation <$> rigidBodies (state e')).
    { by apply list_elem_of_fmap_2. }
    rewrite Ho in Hq. apply list_elem_of_fmap in Hq as (r0 & -> & Hr0).
    by apply Hstart.
Qed.

Lemma run_orientation (P : Quaternion num → Prop) e cs e' :
  (∀ q, P (quatNormalize q)) →
  run e cs = Some e' →
  CallStep ∈ cs ∨ (∀ r, r ∈ rigidBodies (state e) → P (rb_orientation r)) →
  ∀ r, r ∈ rigidBodies (state e') → P (rb_orientation r).
Proof.
  intros HP. revert e. induction cs as [|c cs IH]; intros e H Hor.
  - injection H as <-. destruct Hor as [Hin|Hstart]; [|done].
    by apply elem_of_nil in Hin.
  - unfold run in H. simpl in H. unbind H.
    apply (IH x H).
    destruct Hor as [Hin|Hstart].
    + apply elem_of_cons in Hin as [<-|Hin]; [|by left].
      right. eapply call_orientation; [exact HP|exact Hx|]. by left.
    + right. eapply call_orientation; [exact HP|exact Hx|]. by right.
Qed.

(** Impulses leave the orientations as they are. *)
Lemma run_without_step_orientation e cs e' :
  run e cs = Some e' → CallStep ∉ cs →
  rb_orientation <$> rigidBodies (state e')
    = rb_orientation <$> rigidBodies (state e).
Proof.
  revert e. induction cs as [|c cs IH]; intros e H Hno.
  - by injection H as <-.
  - unfold run in H. simpl in H. unbind H.
    apply not_elem_of_cons in Hno as [Hc Hno].
    rewrite (IH x H Hno).
    destruct c as [|objectId impulse]; [done|]. simpl in Hx.
    by apply applyImpulse_Some in Hx as (_ & _ & _ & _ & _ & Ho).
Qed.
End OrientationFacts.

Section ExactOrientation.
Local Open Scope R_scope.
Implicit Types (e : PhysicsEngine R) (cs : list (Call R)) (q : Quaternion R).

Lemma quatNormalize_unit q : quatNorm (quatNormalize q) = 1.
Proof.
  unfold quatNormalize, quatNorm.
  cbn [hypot4 eqb zero one div real_arithmetic]. unfold Reqb.
  set (S := q0 q * q0 q + q1 q * q1 q + q2 q * q2 q + q3 q * q3 q).
  assert (HS : 0 <= S) by (unfold S; nra).
  destruct (Req_dec_T (R_sqrt.sqrt S) 0) as [Hz|Hnz]; simpl.
  - replace (0 * 0 + 0 * 0 + 0 * 0 + 1 * 1) with 1 by ring. apply sqrt_1.
  - pose proof (sqrt_sqrt S HS) as Hsq.
    set (l := R_sqrt.sqrt S) in *.
    replace (q0 q / l * (q0 q / l) + q1 q / l * (q1 q / l)
             + q2 q / l * (q2 q / l) + q3 q / l * (q3 q / l))
      with (S / (l * l)) by (unfold S; field; exact Hnz).
    rewrite Hsq.
    assert (S ≠ 0).
    { intros HS0. apply Hnz. unfold l. rewrite HS0. apply sqrt_0. }
    replace (S / S) with 1 by (field; done). apply sqrt_1.
Qed.
End ExactOrientation.

(** C5, amended.  No call throws.  In any arithmetic, the engine's
    state holds the configured orientations until the first [step()],
    and after a [step()], with any integrator, every orientation in it
    is a quaternion q divided by [Math.hypot] of its four components, or
    [0, 0, 0, 1] when that is 0.  In exact real arithmetic such a
    quotient has norm exactly 1: with configured orientations of norm 1,
    as the data model requires, every state read through [getState()],
    after construction and after any calls, holds orientations of norm 1
    only, for every angular velocity and any number of steps; after a
    [step()] this holds for any configured orientation. *)
Theorem orientation_unit_norm :
  (∀ (num : Type) (arith : Number num)
     (config : SimulationConfig num) (cs : list (Call num)),
     ∃ e, run (construct config) cs = Some e ∧
       (CallStep ∉ cs →
        rb_orientation <$> rigidBodies (state e)
          = rbc_orientation <$> default [] (cfg_rigidBodies config)) ∧
       (CallStep ∈ cs →
        ∀ r, r ∈ rigidBodies (state e) →
          ∃ q, let len := hypot4 (q0 q) (q1 q) (q2 q) (q3 q) in
            rb_orientation r =
              if eqb len zero then Quat zero zero zero one
              else Quat (q0 q / len) (q1 q / len)
                        (q2 q / len) (q3 q / len))%num) ∧
  (∀ (config : SimulationConfig R) (cs : list (Call R)),
     ∃ e, run (construct config) cs = Some e ∧
       ((∀ rb, rb ∈ default [] (cfg_rigidBodies config) →
               quatNorm (rbc_orientation rb) = 1%R) →
        ∀ r, r ∈ rigidBodies (getState e) →
             quatNorm (rb_orientation r) = 1%R) ∧
       (CallStep ∈ cs →
        ∀ r, r ∈ rigidBodies (getState e) →
             quatNorm (rb_orientation r) = 1%R)).
Proof.
  split.
  - intros num arith config cs.
    destruct (run_construct_is_Some config cs) as (e & Hrun & _).
    exists e. split; [done|]. split.
    + intros Hno. rewrite (run_without_step_orientation _ _ _ Hrun Hno).
      simpl. change (map ?f ?l) with (f <$> l).
      by rewrite <- list_fmap_compose.
    + intros Hin.
      apply (run_orientation (λ o, ∃ q, o = quatNormalize q) _ _ _
               (λ q, ex_intro _ q eq_refl) Hrun).
      by left.
  - intros config cs.
    destruct (run_construct_is_Some config cs) as (e & Hrun & _).
    exists e. split; [done|]. unfold getState. rewrite cloneState_id. split.
    + intros Hunit.
      apply (run_orientation (λ o, quatNorm o = 1%R) _ _ _
               quatNormalize_unit Hrun). right.
      intros r Hr. simpl in Hr.
      apply list_elem_of_fmap in Hr as (rb & -> & Hrb). simpl. by apply Hunit.
    + intros Hin.
      apply (run_orientation (λ o, quatNorm o = 1%R) _ _ _
               quatNormalize_unit Hrun). by left.
Qed.

Section ExactOrientationInstances.
Local Open Scope R_scope.

(** The constructor copies the configured orientation as it is: an
    orientation of norm 2, which the data model excludes, is read back
    with norm 2 until the first [step()]. *)
Lemma construction_keeps_orientation :
  ∃ r,
    rigidBodies (getState (construct Sample.skewed)) = [r] ∧
    rb_angularVelocity r = V3 0 0 1 ∧
    quatNorm (rb_orientation r) = 2.
Proof.
  eexists. split; [reflexivity|]. split; [reflexivity|].
  unfold quatNorm. simpl.
  replace (0 * 0 + 0 * 0 + 0 * 0 + 2 * 2) with (2 * 2) by ring.
  apply sqrt_square. lra.
Qed.

Lemma orientation_unit_norm_witness :
  let cs := [CallStep; CallApplyImpulse "box" (V3 0 1 0); CallStep] in
  let config := Sample.scene rk4 [Sample.link] in
  ((∀ rb, rb ∈ default [] (cfg_rigidBodies config) →
          quatNorm (rbc_orientation rb) = 1) ∧
   (CallStep ∉ [CallApplyImpulse "box" (V3 0 1 0)]) ∧
   CallStep ∈ cs) ∧
  (∃ e, run (construct config) [CallApplyImpulse "box" (V3 0 1 0)] = Some e ∧
     rb_orientation <$> rigidBodies (state e) = [Quat 0 0 0 1] ∧
     ∀ r, r ∈ rigidBodies (getState e) → quatNorm (rb_orientation r) = 1) ∧
  (∃ e, run (construct Sample.skewed) cs = Some e ∧
     ∀ r, r ∈ rigidBodies (getState e) → quatNorm (rb_orientation r) = 1).
Proof.
  intros cs config.
  assert (Hunit : ∀ rb, rb ∈ default [] (cfg_rigidBodies config) →
                        quatNorm (rbc_orientation rb) = 1).
  { intros rb Hrb. apply list_elem_of_singleton in Hrb as ->.
    unfold quatNorm. simpl.
    replace (0 * 0 + 0 * 0 + 0 * 0 + 1 * 1) with 1 by ring. apply sqrt_1. }
  assert (Hno : CallStep ∉ [CallApplyImpulse "box" (V3 0 1 0)]).
  { intros [H|H]%elem_of_cons; [discriminate H|by apply elem_of_nil in H]. }
  assert (Hin : CallStep ∈ cs) by (apply elem_of_cons; by left).
  split; [split; [exact Hunit|split; [exact Hno|exact Hin]]|].
  destruct orientation_unit_norm as [Hany Hexact]. split.
  - destruct (Hexact config [CallApplyImpulse "box" (V3 0 1 0)])
      as (e & Hrun & Hconfigured & _).
    destruct (Hany R _ config [CallApplyImpulse "box" (V3 0 1 0)])
      as (e0 & Hrun0 & Hkept & _).
    assert (e0 = e) as -> by congruence.
    exists e. split; [exact Hrun|]. split; [exact (Hkept Hno)|].
    exact (Hconfigured Hunit).
  - destruct (Hexact Sample.skewed cs) as (e & Hrun & _ & Hstepped).
    exists e. split; [exact Hrun|exact (Hstepped Hin)].
Defined.
End ExactOrientationInstances.

Section OrientationOverflow.
Local Open Scope float_scope.
#[local] Set Warnings "-inexact-float".

(** C5 as stated fails in binary64 for an angular velocity so large that
    orientation + dq overflows.  The box is configured with the unit
    orientation [0, 0, 0, 1] and the angular velocity
    [1.7e308, 1.7e308, 1.7e308]; with dt = 2 the quaternion to normalise
    is [1.7e308, 1.7e308, 1.7e308, 1], whose norm, about 2.9e308, is
    above the largest binary64 number: [Math.hypot] returns Infinity
    and after one step, with each integrator, the orientation is
    [0, 0, 0, 0], of norm 0.  (All numbers of that state are finite and
    none is -0, so [getState()] returns them as they are.) *)
Lemma orientation_overflow_counterexample :
  Forall (λ name,
    ∃ r0 e r,
      rigidBodies (getState (construct (Scenes64.whirl name))) = [r0] ∧
      rb_orientation r0 = Quat 0 0 0 1 ∧
      Scenes64.norm (rb_orientation r0) = 1 ∧
      hypot4 1.7e308 1.7e308 1.7e308 1 = PrimFloat.infinity ∧
      step (construct (Scenes64.whirl name)) = Some e ∧
      rigidBodies (getState e) = [r] ∧
      rb_angularVelocity r = V3 1.7e308 1.7e308 1.7e308 ∧
      rb_orientation r = Quat 0 0 0 0 ∧
      Scenes64.norm (rb_orientation r) = 0 ∧
      Scenes64.near 1e-9 (Scenes64.norm (rb_orientation r)) 1 = false)
    [euler; semi; rk4].
Proof.
  repeat (apply Forall_cons; split); [..|apply Forall_nil];
    do 3 eexists;
    (split; [vm_compute; reflexivity|]);
    (split; [reflexivity|]);
    (split; [vm_compute; reflexivity|]);
    (split; [vm_compute; reflexivity|]);
    (split; [vm_compute; reflexivity|]);
    (split; [vm_compute; reflexivity|]);
    vm_compute; repeat split.
Qed.
End OrientationOverflow.

(** ** Momentum of two point masses joined by a spring *)

Section ExactMomentum.
Local Open Scope R_scope.
Implicit Types (e : PhysicsEngine R) (st : SimulationState R).
Implicit Types (s : SpringConfig R) (a b : PointMassState R).

(** The engine's only spring joins the point masses at positions [ia]
    and [ib], of masses [ma] and [mb]; neither gravity nor linear drag is
    configured. *)
Variables (e : PhysicsEngine R) (s : SpringConfig R) (ia ib : nat) (ma mb : R).
Hypothesis Hsprings : springs e = [s].
Hypothesis Hgravity : forces e ≫= gravity = None.
Hypothesis Hdrag : forces e ≫= linearDrag = None.
Hypothesis Ha : pointMassIndexById e !! aId s = Some ia.
Hypothesis Hb : pointMassIndexById e !! bId s = Some ib.
Hypothesis Hne : ia ≠ ib.
Hypothesis Hma : ma ≠ 0.
Hypothesis Hmb : mb ≠ 0.

(** The accelerations of the two point masses are +F/ma and −F/mb for
    one force vector F. *)
Lemma single_spring_force st a b d :
  pointMasses st !! ia = Some a → pointMasses st !! ib = Some b →
  pm_mass a = ma → pm_mass b = mb →
  step_computeDerivative e st = Some d →
  ∃ F accA accB,
    pointAccelerations d !! ia = Some accA ∧
    pointAccelerations d !! ib = Some accB ∧
    (v0 accA = v0 F / ma ∧ v1 accA = v1 F / ma ∧ v2 accA = v2 F / ma) ∧
    (v0 accB = - v0 F / mb ∧ v1 accB = - v1 F / mb ∧ v2 accB = - v2 F / mb).
Proof using Hsprings Hgravity Hdrag Ha Hb Hne.
  intros Hpa Hpb Hmassa Hmassb Hd.
  unfold step_computeDerivative in Hd. rewrite Hsprings in Hd.
  simpl in Hd. unfold springBody in Hd. rewrite Ha, Hb, Hpa, Hpb in Hd.
  simpl in Hd.
  change (map (λ pm, sumAccelerationsForPointMass pm (forces e)) (pointMasses st))
    with ((λ pm, sumAccelerationsForPointMass pm (forces e)) <$> pointMasses st)
    in Hd.
  set (accs := (λ pm, sumAccelerationsForPointMass pm (forces e))
                 <$> pointMasses st) in *.
  assert (Hacca : accs !! ia = Some (vecAdd vecZero vecZero)).
  { unfold accs. rewrite list_lookup_fmap, Hpa. simpl.
    unfold sumAccelerationsForPointMass. by rewrite Hgravity, Hdrag. }
  assert (Haccb : accs !! ib = Some (vecAdd vecZero vecZero)).
  { unfold accs. rewrite list_lookup_fmap, Hpb. simpl.
    unfold sumAccelerationsForPointMass. by rewrite Hgravity, Hdrag. }
  rewrite Hacca in Hd. simpl in Hd.
  rewrite list_lookup_insert_ne, Haccb in Hd by done. simpl in Hd.
  injection Hd as <-. simpl.
  match goal with
  | |- context [vecScale (vecScale ?F (- (1))) _] => exists F; generalize F
  end.
  intros F.
  rewrite list_lookup_insert_ne by done.
  rewrite list_lookup_insert_eq by (by eapply lookup_lt_Some).
  rewrite list_lookup_insert_eq
    by (rewrite length_insert; by eapply lookup_lt_Some).
  do 2 eexists. split; [done|]. split; [done|].
  rewrite Hmassa, Hmassb. simpl. unfold Rdiv. repeat split; ring.
Qed.

(** Weighted by the masses, the two accelerations cancel. *)
Lemma single_spring_accelerations st a b d :
  pointMasses st !! ia = Some a → pointMasses st !! ib = Some b →
  pm_mass a = ma → pm_mass b = mb →
  step_computeDerivative e st = Some d →
  ∃ accA accB,
    pointAccelerations d !! ia = Some accA ∧
    pointAccelerations d !! ib = Some accB ∧
    ma * v0 accA + mb * v0 accB = 0 ∧
    ma * v1 accA + mb * v1 accB = 0 ∧
    ma * v2 accA + mb * v2 accB = 0.
Proof using All.
  intros Hpa Hpb Hmassa Hmassb Hd.
  destruct (single_spring_force _ _ _ _ Hpa Hpb Hmassa Hmassb Hd)
    as (F & accA & accB & HA & HB & (A0 & A1 & A2) & (B0 & B1 & B2)).
  exists accA, accB. split; [done|]. split; [done|].
  rewrite A0, A1, A2, B0, B1, B2. repeat split; field; done.
Qed.

(** One step keeps the sum of the two momenta, with any integrator. *)
Lemma spring_momentum_step a b e' :
  pointMasses (state e) !! ia = Some a → pointMasses (state e) !! ib = Some b →
  pm_mass a = ma → pm_mass b = mb →
  step e = Some e' →
  ∃ a' b',
    pointMasses (state e') !! ia = Some a' ∧
    pointMasses (state e') !! ib = Some b' ∧
    pm_mass a' = ma ∧ pm_mass b' = mb ∧
    vecAdd (momentum a') (momentum b') = vecAdd (momentum a) (momentum b).
Proof using All.
  intros Hpa Hpb Hmassa Hmassb [Hi _]%step_Some.
  destruct (integratorName e); simpl in Hi.
  - apply integrateEuler_point in Hi as (d & Hd & Hp). simpl in Hd.
    destruct (single_spring_accelerations _ _ _ _ Hpa Hpb Hmassa Hmassb Hd)
      as (xa & xb & Hxa & Hxb & E0 & E1 & E2).
    destruct (Hp _ _ Hpa) as (xa' & Hxa' & Hna).
    destruct (Hp _ _ Hpb) as (xb' & Hxb' & Hnb).
    assert (xa' = xa) as -> by congruence.
    assert (xb' = xb) as -> by congruence.
    do 2 eexists. split; [exact Hna|]. split; [exact Hnb|].
    split; [done|]. split; [done|].
    unfold momentum, vecAdd, vecScale. simpl. rewrite Hmassa, Hmassb.
    f_equal; apply Rminus_diag_uniq.
    + transitivity (dt e * (ma * v0 xa + mb * v0 xb)); [ring|rewrite E0; ring].
    + transitivity (dt e * (ma * v1 xa + mb * v1 xb)); [ring|rewrite E1; ring].
    + transitivity (dt e * (ma * v2 xa + mb * v2 xb)); [ring|rewrite E2; ring].
  - apply integrateSemiImplicitEuler_point in Hi as (d & Hd & Hp). simpl in Hd.
    destruct (single_spring_accelerations _ _ _ _ Hpa Hpb Hmassa Hmassb Hd)
      as (xa & xb & Hxa & Hxb & E0 & E1 & E2).
    destruct (Hp _ _ Hpa) as (xa' & Hxa' & Hna).
    destruct (Hp _ _ Hpb) as (xb' & Hxb' & Hnb).
    assert (xa' = xa) as -> by congruence.
    assert (xb' = xb) as -> by congruence.
    do 2 eexists. split; [exact Hna|]. split; [exact Hnb|].
    split; [done|]. split; [done|].
    unfold momentum, vecAdd, vecScale. simpl. rewrite Hmassa, Hmassb.
    f_equal; apply Rminus_diag_uniq.
    + transitivity (dt e * (ma * v0 xa + mb * v0 xb)); [ring|rewrite E0; ring].
    + transitivity (dt e * (ma * v1 xa + mb * v1 xb)); [ring|rewrite E1; ring].
    + transitivity (dt e * (ma * v2 xa + mb * v2 xb)); [ring|rewrite E2; ring].
  - apply integrateRK4_point in Hi
      as (k1 & s2 & k2 & s3 & k3 & s4 & k4
          & H1 & S2 & H2 & S3 & H3 & S4 & H4 & Hp).
    simpl in H1, H2, H3, H4.
    destruct (rk4Stage_point _ _ _ _ _ _ S2 Hpa) as (? & _ & Hpa2).
    destruct (rk4Stage_point _ _ _ _ _ _ S2 Hpb) as (? & _ & Hpb2).
    destruct (rk4Stage_point _ _ _ _ _ _ S3 Hpa) as (? & _ & Hpa3).
    destruct (rk4Stage_point _ _ _ _ _ _ S3 Hpb) as (? & _ & Hpb3).
    destruct (rk4Stage_point _ _ _ _ _ _ S4 Hpa) as (? & _ & Hpa4).
    destruct (rk4Stage_point _ _ _ _ _ _ S4 Hpb) as (? & _ & Hpb4).
    destruct (single_spring_accelerations _ _ _ _ Hpa Hpb Hmassa Hmassb H1)
      as (xa1 & xb1 & Hxa1 & Hxb1 & E10 & E11 & E12).
    destruct (single_spring_accelerations _ _ _ _ Hpa2 Hpb2 Hmassa Hmassb H2)
      as (xa2 & xb2 & Hxa2 & Hxb2 & E20 & E21 & E22).
    destruct (single_spring_accelerations _ _ _ _ Hpa3 Hpb3 Hmassa Hmassb H3)
      as (xa3 & xb3 & Hxa3 & Hxb3 & E30 & E31 & E32).
    destruct (single_spring_accelerations _ _ _ _ Hpa4 Hpb4 Hmassa Hmassb H4)
      as (xa4 & xb4 & Hxa4 & Hxb4 & E40 & E41 & E42).
    destruct (Hp _ _ Hpa)
      as (ya1 & ya2 & ya3 & ya4 & Ya1 & Ya2 & Ya3 & Ya4 & Hna).
    destruct (Hp _ _ Hpb)
      as (yb1 & yb2 & yb3 & yb4 & Yb1 & Yb2 & Yb3 & Yb4 & Hnb).
    assert (ya1 = xa1) as -> by congruence.
    assert (ya2 = xa2) as -> by congruence.
    assert (ya3 = xa3) as -> by congruence.
    assert (ya4 = xa4) as -> by congruence.
    assert (yb1 = xb1) as -> by congruence.
    assert (yb2 = xb2) as -> by congruence.
    assert (yb3 = xb3) as -> by congruence.
    assert (yb4 = xb4) as -> by congruence.
    do 2 eexists. split; [exact Hna|]. split; [exact Hnb|].
    split; [done|]. split; [done|].
    unfold momentum, vecAdd, vecScale, rk4Sum. simpl. rewrite Hmassa, Hmassb.
    f_equal; apply Rminus_diag_uniq.
    + transitivity
        (dt e / 6 *
           ((ma * v0 xa1 + mb * v0 xb1) + 2 * (ma * v0 xa2 + mb * v0 xb2)
            + 2 * (ma * v0 xa3 + mb * v0 xb3) + (ma * v0 xa4 + mb * v0 xb4)));
        [unfold Rdiv; ring|rewrite E10, E20, E30, E40; ring].
    + transitivity
        (dt e / 6 *
           ((ma * v1 xa1 + mb * v1 xb1) + 2 * (ma * v1 xa2 + mb * v1 xb2)
            + 2 * (ma * v1 xa3 + mb * v1 xb3) + (ma * v1 xa4 + mb * v1 xb4)));
        [unfold Rdiv; ring|rewrite E11, E21, E31, E41; ring].
    + transitivity
        (dt e / 6 *
           ((ma * v2 xa1 + mb * v2 xb1) + 2 * (ma * v2 xa2 + mb * v2 xb2)
            + 2 * (ma * v2 xa3 + mb * v2 xb3) + (ma * v2 xa4 + mb * v2 xb4)));
        [unfold Rdiv; ring|rewrite E12, E22, E32, E42; ring].
Qed.
End ExactMomentum.

Section ExactMomentumSteps.
Local Open Scope R_scope.

(** C4. Two point masses of nonzero mass joined by the engine's only
    spring, with neither gravity nor linear drag configured: the
    derivative evaluator gives them the accelerations +F/mass_a and
    −F/mass_b for one force vector F, and after any number of [step()]
    calls, with any integrator, mass_a·velocity_a + mass_b·velocity_b is
    what it was (real arithmetic). *)
Theorem spring_momentum_conserved (n : nat) (e : PhysicsEngine R)
    (s : SpringConfig R) (ia ib : nat) (a b : PointMassState R) :
  indexConsistent e → springs e = [s] →
  forces e ≫= gravity = None → forces e ≫= linearDrag = None →
  pointMassIndexById e !! aId s = Some ia →
  pointMassIndexById e !! bId s = Some ib → ia ≠ ib →
  pointMasses (state e) !! ia = Some a →
  pointMasses (state e) !! ib = Some b →
  pm_mass a ≠ 0 → pm_mass b ≠ 0 →
  (∃ d F accA accB,
     step_computeDerivative e (state e) = Some d ∧
     pointAccelerations d !! ia = Some accA ∧
     pointAccelerations d !! ib = Some accB ∧
     (v0 accA = v0 F / pm_mass a ∧ v1 accA = v1 F / pm_mass a
      ∧ v2 accA = v2 F / pm_mass a) ∧
     (v0 accB = - v0 F / pm_mass b ∧ v1 accB = - v1 F / pm_mass b
      ∧ v2 accB = - v2 F / pm_mass b)) ∧
  ∃ e' a' b',
    steps n e = Some e' ∧
    pointMasses (state e') !! ia = Some a' ∧
    pointMasses (state e') !! ib = Some b' ∧
    pm_mass a' = pm_mass a ∧ pm_mass b' = pm_mass b ∧
    vecAdd (momentum a') (momentum b') = vecAdd (momentum a) (momentum b).
Proof.
  intros Hc Hs Hg Hd Ha Hb Hne Hpa Hpb Hma Hmb. split.
  { destruct (step_computeDerivative_Some e (state e)
                (indexConsistent_inRange e Hc)) as (d & Hder & _).
    destruct (single_spring_force e s ia ib (pm_mass a) (pm_mass b)
                Hs Hg Hd Ha Hb Hne _ _ _ _ Hpa Hpb eq_refl eq_refl Hder)
      as (F & accA & accB & H).
    by exists d, F, accA, accB. }
  revert e a b Hc Hs Hg Hd Ha Hb Hpa Hpb Hma Hmb.
  induction n as [|n IH]; intros e a b Hc Hs Hg Hd Ha Hb Hpa Hpb Hma Hmb.
  - exists e, a, b. by repeat split.
  - destruct (step_is_Some e (indexConsistent_inRange e Hc)) as [e1 Hstep].
    destruct (spring_momentum_step e s ia ib (pm_mass a) (pm_mass b)
                Hs Hg Hd Ha Hb Hne Hma Hmb a b e1 Hpa Hpb eq_refl eq_refl Hstep)
      as (a1 & b1 & Hpa1 & Hpb1 & Hma1 & Hmb1 & Hmom1).
    destruct (step_Some _ _ Hstep) as [_ (_ & _ & Hf & Hm & Hsp)].
    destruct (IH e1 a1 b1) as (e' & a' & b' & Hsteps & Hpa' & Hpb' & Hma' & Hmb' & Hmom');
      try congruence.
    { by eapply step_indexConsistent. }
    exists e', a', b'. simpl. rewrite Hstep. simpl.
    repeat split; try done; congruence.
Qed.
End ExactMomentumSteps.

Lemma spring_momentum_conserved_witness :
  let e := construct (Sample.scene rk4 [Sample.link]) in
  let a := {| pm_id := "a"; pm_mass := 2%R; pm_position := Sample.origin;
              pm_velocity := (V3 1 0 0)%R |} in
  let b := {| pm_id := "b"; pm_mass := 3%R; pm_position := (V3 4 0 0)%R;
              pm_velocity := Sample.origin |} in
  (indexConsistent e ∧ springs e = [Sample.link] ∧
   forces e ≫= gravity = None ∧ forces e ≫= linearDrag = None ∧
   pointMassIndexById e !! aId Sample.link = Some 0 ∧
   pointMassIndexById e !! bId Sample.link = Some 1 ∧ 0 ≠ 1 ∧
   pointMasses (state e) !! 0 = Some a ∧ pointMasses (state e) !! 1 = Some b ∧
   pm_mass a ≠ 0%R ∧ pm_mass b ≠ 0%R) ∧
  ∃ e' a' b',
    steps 3 e = Some e' ∧
    pointMasses (state e') !! 0 = Some a' ∧
    pointMasses (state e') !! 1 = Some b' ∧
    vecAdd (momentum a') (momentum b') = vecAdd (momentum a) (momentum b).
Proof.
  intros e a b.
  assert (Hc : indexConsistent e) by apply construct_indexConsistent.
  assert (Hma : pm_mass a ≠ 0%R) by (simpl; lra).
  assert (Hmb : pm_mass b ≠ 0%R) by (simpl; lra).
  assert (Hne : 0 ≠ 1) by lia.
  split.
  { split; [exact Hc|]. repeat split; try reflexivity; [exact Hne|exact Hma|exact Hmb]. }
  destruct (spring_momentum_conserved 3 e Sample.link 0 1 a b
              Hc eq_refl eq_refl eq_refl eq_refl eq_refl Hne eq_refl eq_refl
              Hma Hmb)
    as (_ & e' & a' & b' & Hs & Hpa & Hpb & _ & _ & Hmom).
  exists e', a', b'.
  split; [exact Hs|]. split; [exact Hpa|]. split; [exact Hpb|exact Hmom].
Defined.

(** ** Runs in binary64 *)

Section Runs.
Local Open Scope float_scope.
#[local] Set Warnings "-inexact-float".

(** One explicit Euler step: the position moves along the old velocity
    (zero), the velocity takes the acceleration. *)
Example drop_euler :
  getState <$> step (construct (Scenes64.drop euler)) =
    Some {| time := 0.5; stepIndex := 1;
            pointMasses :=
              [ {| pm_id := "p"; pm_mass := 2; pm_position := V3 0 0 0;
                   pm_velocity := V3 0 (-5) 0 |} ];
            rigidBodies := [] |}.
Proof. vm_compute. reflexivity. Qed.

(** One semi-implicit step: the position moves along the new velocity. *)
Example drop_semi :
  getState <$> step (construct (Scenes64.drop semi)) =
    Some {| time := 0.5; stepIndex := 1;
            pointMasses :=
              [ {| pm_id := "p"; pm_mass := 2; pm_position := V3 0 (-2.5) 0;
                   pm_velocity := V3 0 (-5) 0 |} ];
            rigidBodies := [] |}.
Proof. vm_compute. reflexivity. Qed.

(** One RK4 step: as the semi-implicit step under a constant force. *)
Example drop_rk4 :
  getState <$> step (construct (Scenes64.drop rk4)) =
    Some {| time := 0.5; stepIndex := 1;
            pointMasses :=
              [ {| pm_id := "p"; pm_mass := 2; pm_position := V3 0 (-2.5) 0;
                   pm_velocity := V3 0 (-5) 0 |} ];
            rigidBodies := [] |}.
Proof. vm_compute. reflexivity. Qed.

(** An impulse of 3 on a mass of 2 adds 3 * (1 / 2) to the velocity. *)
Example drop_impulse :
  getState <$> applyImpulse "p" (V3 3 0 0) (construct (Scenes64.drop euler)) =
    Some {| time := 0; stepIndex := 0;
            pointMasses :=
              [ {| pm_id := "p"; pm_mass := 2; pm_position := V3 0 0 0;
                   pm_velocity := V3 1.5 0 0 |} ];
            rigidBodies := [] |}.
Proof. vm_compute. reflexivity. Qed.

(** The projectile of the energy test after 3000 RK4 steps of 1/600 s:
    the relative drift of the mechanical energy lies between 0.009 and
    0.0091; it comes from the position update along the new velocity.  (The
    test file expects a drift below 0.001.) *)
Example projectile_energy_drift :
  (r ← Scenes64.relError 3000;
   Some (PrimFloat.ltb 0.009 r && PrimFloat.ltb r 0.0091)) = Some true.
Proof. vm_compute. reflexivity. Qed.

(** 100 steps of two point masses on a spring and a spinning box: the
    total momentum stays within 1e-12 and the norm of the orientation
    within 1e-9 of 1, with each integrator. *)
Example spring_pair_runs :
  Scenes64.conserved euler 100 = Some true ∧
  Scenes64.conserved semi 100 = Some true ∧
  Scenes64.conserved rk4 100 = Some true.
Proof. vm_compute. repeat split. Qed.
End Runs.

(** * Further properties *)

(** ** Vectors and quaternions *)

Section ExactAlgebra.
Local Open Scope R_scope.
Implicit Types (a b c q : Quaternion R) (u v : Vector3 R).

Lemma quatNorm_nonneg_sum q :
  0 <= q0 q * q0 q + q1 q * q1 q + q2 q * q2 q + q3 q * q3 q.
Proof. nra. Qed.

(** X1. The Hamilton product multiplies norms; in particular the product
    of two unit quaternions is a unit quaternion. *)
Theorem quatMultiply_norm a b :
  quatNorm (quatMultiply a b) = quatNorm a * quatNorm b ∧
  (quatNorm a = 1 → quatNorm b = 1 → quatNorm (quatMultiply a b) = 1).
Proof.
  assert (H : quatNorm (quatMultiply a b) = quatNorm a * quatNorm b).
  { unfold quatNorm. rewrite <- sqrt_mult by apply quatNorm_nonneg_sum.
    f_equal. destruct a, b. simpl. ring. }
  split; [exact H|]. intros Ha Hb. rewrite H, Ha, Hb. ring.
Qed.

(** X2. [0, 0, 0, 1] is a left and right identity of the Hamilton product,
    and the product is associative. *)
Theorem quatMultiply_monoid a b c :
  quatMultiply (Quat 0 0 0 1) a = a ∧
  quatMultiply a (Quat 0 0 0 1) = a ∧
  quatMultiply (quatMultiply a b) c = quatMultiply a (quatMultiply b c).
Proof.
  destruct a, b, c. unfold quatMultiply. simpl.
  repeat split; f_equal; ring.
Qed.

Lemma quatNormalize_of_unit q : quatNorm q = 1 → quatNormalize q = q.
Proof.
  intros H. unfold quatNormalize.
  cbn [hypot4 eqb zero one div real_arithmetic]. unfold Reqb.
  fold (quatNorm q). rewrite H.
  destruct (Req_dec_T 1 0) as [E|_]; [lra|].
  destruct q. simpl. f_equal; field.
Qed.

(** X3. [quatNormalize] returns the identity [0, 0, 0, 1] for a quaternion
    of norm 0, returns a unit quaternion unchanged, and is idempotent. *)
Theorem quatNormalize_fixpoints q :
  (quatNorm q = 0 → quatNormalize q = Quat 0 0 0 1) ∧
  (quatNorm q = 1 → quatNormalize q = q) ∧
  quatNormalize (quatNormalize q) = quatNormalize q.
Proof.
  split; [|split].
  - intros H. unfold quatNormalize.
    cbn [hypot4 eqb zero one div real_arithmetic]. unfold Reqb.
    fold (quatNorm q). rewrite H.
    by destruct (Req_dec_T 0 0) as [_|E].
  - apply quatNormalize_of_unit.
  - apply quatNormalize_of_unit, quatNormalize_unit.
Qed.

Lemma vecDot_self_nonneg v : 0 <= vecDot v v.
Proof. unfold vecDot. simpl. nra. Qed.

Lemma vecLength_zero_iff v : vecLength v = 0 ↔ v = V3 0 0 0.
Proof.
  unfold vecLength. cbn [sqrt real_arithmetic]. split.
  - intros H. apply sqrt_eq_0 in H; [|apply vecDot_self_nonneg].
    unfold vecDot in H. simpl in H. destruct v as [x y z]. simpl in H.
    assert (x = 0) by nra. assert (y = 0) by nra. assert (z = 0) by nra.
    by subst.
  - intros ->. unfold vecDot. simpl.
    replace (0 * 0 + 0 * 0 + 0 * 0) with 0 by ring. apply sqrt_0.
Qed.

(** X4. [vecNormalize] returns the zero vector for the zero vector (it
    does not divide by the zero length) and a vector of length 1 for
    every other vector. *)
Theorem vecNormalize_length v :
  vecNormalize (V3 0 0 0) = V3 0 0 0 ∧
  (v ≠ V3 0 0 0 → vecLength (vecNormalize v) = 1).
Proof.
  split.
  - unfold vecNormalize. cbn [eqb zero real_arithmetic]. unfold Reqb.
    destruct (Req_dec_T _ 0) as [_|E]; [done|].
    exfalso. apply E. by apply vecLength_zero_iff.
  - intros Hv. unfold vecNormalize. cbn [eqb zero one div real_arithmetic].
    unfold Reqb. destruct (Req_dec_T (vecLength v) 0) as [E|E].
    { by apply vecLength_zero_iff in E. }
    pose proof (vecDot_self_nonneg v) as Hd.
    pose proof (sqrt_sqrt _ Hd) as Hsq.
    unfold vecLength in *. cbn [sqrt real_arithmetic] in *.
    set (l := R_sqrt.sqrt (vecDot v v)) in *.
    replace (vecDot (vecScale v (1 / l)) (vecScale v (1 / l)))
      with (vecDot v v / (l * l)).
    2:{ unfold vecDot, vecScale. simpl. field. exact E. }
    rewrite Hsq.
    assert (vecDot v v ≠ 0).
    { intros H0. apply E. unfold l. rewrite H0. apply sqrt_0. }
    replace (vecDot v v / vecDot v v) with 1 by (field; done). apply sqrt_1.
Qed.

(** X5. The length of a vector is zero exactly for the zero vector, and
    scaling a vector by s scales its length by |s|. *)
Theorem vecLength_scale v (s : R) :
  (vecLength v = 0 ↔ v = V3 0 0 0) ∧
  vecLength (vecScale v s) = Rabs s * vecLength v.
Proof.
  split; [apply vecLength_zero_iff|].
  unfold vecLength. cbn [sqrt real_arithmetic].
  rewrite <- (sqrt_Rsqr_abs s). unfold Rsqr.
  rewrite <- sqrt_mult; [|nra|apply vecDot_self_nonneg].
  f_equal. unfold vecDot, vecScale. simpl. ring.
Qed.
End ExactAlgebra.

Section ExactAlgebraWitnesses.
Local Open Scope R_scope.

Lemma quatMultiply_norm_witness :
  quatNorm (Quat 0 0 0 1) = 1 ∧ quatNorm (Quat 1 0 0 0) = 1 ∧
  quatNorm (quatMultiply (Quat 0 0 0 1) (Quat 1 0 0 0)) = 1.
Proof.
  assert (Ha : quatNorm (Quat 0 0 0 1) = 1).
  { unfold quatNorm. simpl.
    replace (0 * 0 + 0 * 0 + 0 * 0 + 1 * 1) with 1 by ring. apply sqrt_1. }
  assert (Hb : quatNorm (Quat 1 0 0 0) = 1).
  { unfold quatNorm. simpl.
    replace (1 * 1 + 0 * 0 + 0 * 0 + 0 * 0) with 1 by ring. apply sqrt_1. }
  split; [exact Ha|]. split; [exact Hb|].
  exact (proj2 (quatMultiply_norm (Quat 0 0 0 1) (Quat 1 0 0 0)) Ha Hb).
Defined.

Lemma quatNormalize_fixpoints_witness :
  quatNorm (Quat 0 0 0 0) = 0 ∧ quatNormalize (Quat 0 0 0 0) = Quat 0 0 0 1.
Proof.
  assert (H : quatNorm (Quat 0 0 0 0) = 0).
  { unfold quatNorm. simpl.
    replace (0 * 0 + 0 * 0 + 0 * 0 + 0 * 0) with 0 by ring. apply sqrt_0. }
  split; [exact H|].
  exact (proj1 (quatNormalize_fixpoints (Quat 0 0 0 0)) H).
Defined.

Lemma vecNormalize_length_witness :
  V3 3 4 0 ≠ V3 0 0 0 ∧ vecLength (vecNormalize (V3 3 4 0)) = 1.
Proof.
  assert (H : V3 3 4 0 ≠ V3 0 0 0).
  { intros E. apply (f_equal v0) in E. simpl in E. lra. }
  split; [exact H|]. exact (proj2 (vecNormalize_length (V3 3 4 0)) H).
Defined.
End ExactAlgebraWitnesses.

(** ** Force fields *)

Section ExactForces.
Local Open Scope R_scope.
Implicit Types (p q : PointMassState R).

(** X6. With gravity configured and no linear drag, every point mass gets
    the acceleration direction·g, whatever its mass (also zero or
    negative), position and velocity; with the default direction this is
    [0, -g, 0]. *)
Theorem gravity_is_mass_independent (gr : GravityForceConfig R) p q :
  let forces := Some {| gravity := Some gr; linearDrag := None |} in
  sumAccelerationsForPointMass p forces = sumAccelerationsForPointMass q forces ∧
  sumAccelerationsForPointMass p forces
    = vecScale (default (V3 0 (- (1)) 0) (direction gr)) (g gr) ∧
  (direction gr = None →
   sumAccelerationsForPointMass p forces = V3 0 (- g gr) 0).
Proof.
  simpl. unfold sumAccelerationsForPointMass. simpl. split; [done|]. split.
  - unfold vecAdd, vecScale, vecZero. simpl. f_equal; ring.
  - intros ->. unfold vecAdd, vecScale, vecZero. simpl. f_equal; ring.
Qed.

(** X7. Linear drag on a body of positive mass m with coefficient b gives
    the acceleration a = v·(−b/m) in each component, so m·a = −b·v, which
    opposes the velocity when b ≥ 0; on a body of mass ≤ 0 the drag is
    the zero vector (the guard of [linearDragAcceleration]). *)
Theorem linear_drag_opposes_velocity (m : R) (x v : Vector3 R)
    (ld : LinearDragForceConfig R) :
  (m <= 0 → linearDragAcceleration m x v (Some ld) = V3 0 0 0) ∧
  (0 < m →
   let a := linearDragAcceleration m x v (Some ld) in
   vecScale a m = vecScale v (- coefficient ld) ∧
   (0 <= coefficient ld → vecDot a v <= 0) ∧
   (∀ c, c ∈ [v0; v1; v2] → c a = c v * (- coefficient ld / m)) ∧
   (0 <= coefficient ld → v0 a * v0 v + v1 a * v1 v + v2 a * v2 v <= 0)).
Proof.
  unfold linearDragAcceleration. cbn [leb zero div neg real_arithmetic].
  unfold Rleb. split.
  - intros Hm. by destruct (Rle_dec m 0).
  - intros Hm. destruct (Rle_dec m 0) as [Hle|_]; [lra|]. simpl.
    assert (Hdot : 0 <= coefficient ld →
              vecDot (vecScale v (- coefficient ld / m)) v <= 0);
      [|split; [|split; [exact Hdot|split; [|exact Hdot]]]].
    + intros Hb. unfold vecDot, vecScale. simpl.
      assert (Hq : - coefficient ld / m <= 0).
      { assert (0 < / m) by (apply Rinv_0_lt_compat; lra). unfold Rdiv. nra. }
      set (c := - coefficient ld / m) in *.
      destruct v as [vx vy vz]. simpl.
      replace (vx * c * vx + vy * c * vy + vz * c * vz)
        with (c * (vx * vx + vy * vy + vz * vz)) by ring.
      assert (0 <= vx * vx + vy * vy + vz * vz) by nra. nra.
    + unfold vecScale. simpl. f_equal; field; lra.
    + intros c Hin. by each_component Hin.
Qed.
End ExactForces.

Section ExactForcesWitnesses.
Local Open Scope R_scope.

Lemma gravity_is_mass_independent_witness :
  direction {| g := 10; direction := None |} = None ∧
  sumAccelerationsForPointMass
    {| pm_id := "p"; pm_mass := 0; pm_position := V3 0 0 0;
       pm_velocity := V3 0 0 0 |}
    (Some {| gravity := Some {| g := 10; direction := None |};
             linearDrag := None |})
  = V3 0 (- 10) 0.
Proof.
  split; [reflexivity|].
  exact (proj2 (proj2 (gravity_is_mass_independent
                         {| g := 10; direction := None |}
                         {| pm_id := "p"; pm_mass := 0; pm_position := V3 0 0 0;
                            pm_velocity := V3 0 0 0 |}
                         {| pm_id := "p"; pm_mass := 0; pm_position := V3 0 0 0;
                            pm_velocity := V3 0 0 0 |})) eq_refl).
Defined.

Lemma linear_drag_opposes_velocity_witness :
  0 < 2 ∧ 0 <= 3 ∧
  vecDot (linearDragAcceleration 2 (V3 0 0 0) (V3 1 0 0)
            (Some {| coefficient := 3 |})) (V3 1 0 0) <= 0.
Proof.
  assert (Hm : 0 < 2) by lra. assert (Hb : 0 <= 3) by lra.
  split; [exact Hm|]. split; [exact Hb|].
  exact (proj1 (proj2 (proj2 (linear_drag_opposes_velocity 2 (V3 0 0 0)
                                (V3 1 0 0) {| coefficient := 3 |}) Hm)) Hb).
Defined.
End ExactForcesWitnesses.

(** ** More on the integrators *)

Section DerivativeShape.
Context {num : Type} {arith : Number num}.
Implicit Types (e : PhysicsEngine num) (st : SimulationState num).
Implicit Types (ctx : DynamicsContext num) (d : Derivative num).

Lemma loopFrom_ext {A} (f h : nat → A → option A) i xs :
  (∀ j x, f j x = h j x) → loopFrom f i xs = loopFrom h i xs.
Proof.
  intros H. revert i. induction xs as [|x rest IH]; intros i; simpl; [done|].
  rewrite H. destruct (h i x); simpl; [|done]. by rewrite IH.
Qed.

Lemma fmap_eq_lookup {A B} (f : A → B) (l l' : list A) :
  length l' = length l →
  (∀ i x, l !! i = Some x → ∃ y, l' !! i = Some y ∧ f y = f x) →
  f <$> l' = f <$> l.
Proof.
  intros Hlen H. apply list_eq. intros i. rewrite !list_lookup_fmap.
  destruct (l !! i) as [x|] eqn:E.
  - destruct (H i x E) as (y & -> & Hy). simpl. by rewrite Hy.
  - apply lookup_ge_None in E. rewrite <- Hlen in E.
    apply lookup_ge_None in E. by rewrite E.
Qed.

Lemma const_fmap_lookup {A B} (c : B) (l : list A) i w :
  ((λ _, c) <$> l) !! i = Some w → w = c.
Proof.
  rewrite list_lookup_fmap. destruct (l !! i); simpl; congruence.
Qed.

(** The rigid-body part of the derivative: gravity and drag on the centre
    of mass, and no angular acceleration. *)
Lemma step_computeDerivative_rigid e st d :
  step_computeDerivative e st = Some d →
  rigidLinearAccelerations d = rigidLinearAcceleration e <$> rigidBodies st ∧
  rigidAngularAccelerations d = (λ _, vecZero) <$> rigidBodies st.
Proof.
  unfold step_computeDerivative. intros H. unbind H. by subst d.
Qed.

Lemma forOf_springBody_unresolved e st accs l :
  Forall (unresolved e) l → forOf (springBody e st) accs l = Some accs.
Proof.
  induction 1 as [|s l Hs _ IH]; simpl; [done|].
  by rewrite springBody_unresolved.
Qed.

(** Without a resolved spring, the point-mass part of the derivative is
    the force-field acceleration of each point mass. *)
Lemma step_computeDerivative_point e st d :
  Forall (unresolved e) (springs e) →
  step_computeDerivative e st = Some d →
  pointAccelerations d
    = (λ pm, sumAccelerationsForPointMass pm (forces e)) <$> pointMasses st.
Proof.
  intros Hs. unfold step_computeDerivative.
  rewrite forOf_springBody_unresolved by done. simpl.
  intros H. injection H as <-. done.
Qed.

Lemma step_withIntegrator e name e' :
  step (withIntegrator e name) = Some e' →
  pickIntegrator name (contextOf e) (state e) = Some (state e').
Proof. intros [H _]%step_Some. exact H. Qed.

Lemma step_withIntegrator_is_Some e name :
  indexConsistent e → is_Some (step (withIntegrator e name)).
Proof.
  intros Hc. apply step_is_Some.
  exact (indexConsistent_inRange e Hc).
Qed.

(** *** The rigid bodies after each integrator *)

Lemma integrateEuler_rigid ctx current next i r :
  integrateEuler ctx current = Some next → rigidBodies current !! i = Some r →
  ∃ d r', computeDerivative ctx current = Some d ∧
          rigidBodies next !! i = Some r' ∧
          eulerRigid (ctx_dt ctx) d i r = Some r'.
Proof.
  rewrite integrateEuler_unfold. intros H Hr. unbind H. subst next. simpl.
  destruct (forEachIndex_lookup _ _ _ _ _ Hx1 Hr) as (r' & Hr' & Hb).
  by exists x, r'.
Qed.

Lemma integrateSemiImplicitEuler_rigid ctx current next i r :
  integrateSemiImplicitEuler ctx current = Some next →
  rigidBodies current !! i = Some r →
  ∃ d r', computeDerivative ctx current = Some d ∧
          rigidBodies next !! i = Some r' ∧
          semiRigid (ctx_dt ctx) d i r = Some r'.
Proof.
  rewrite integrateSemiImplicitEuler_unfold. intros H Hr. unbind H.
  subst next. simpl.
  destruct (forEachIndex_lookup _ _ _ _ _ Hx1 Hr) as (r' & Hr' & Hb).
  by exists x, r'.
Qed.

Lemma integrateRK4_rigid ctx current next i r :
  integrateRK4 ctx current = Some next → rigidBodies current !! i = Some r →
  ∃ k1 s2 k2 s3 k3 s4 k4 r',
    computeDerivative ctx current = Some k1 ∧
    rk4Stage current k1 (mul (ctx_dt ctx) half) = Some s2 ∧
    computeDerivative ctx s2 = Some k2 ∧
    rk4Stage current k2 (mul (ctx_dt ctx) half) = Some s3 ∧
    computeDerivative ctx s3 = Some k3 ∧
    rk4Stage current k3 (ctx_dt ctx) = Some s4 ∧
    computeDerivative ctx s4 = Some k4 ∧
    rigidBodies next !! i = Some r' ∧
    rk4Rigid (ctx_dt ctx) k1 k2 k3 k4 i r = Some r'.
Proof.
  rewrite integrateRK4_unfold. intros H Hr. unbind H. subst next. simpl.
  destruct (forEachIndex_lookup _ _ _ _ _ Hx7 Hr) as (r' & Hr' & Hb).
  exists x, x0, x1, x2, x3, x4, x5, r'. by repeat split.
Qed.
End DerivativeShape.

Section ExactIntegrators.
Local Open Scope R_scope.
Implicit Types (e : PhysicsEngine R) (v a : Vector3 R) (q : Quaternion R).

Lemma rk4Sum_constant v a (h : R) :
  vecAdd v (vecScale (rk4Sum a a a a) (h / 6)) = vecAdd v (vecScale a h).
Proof. destruct v, a. vec_eq. Qed.

Lemma vecAdd_zero_acceleration v (h : R) : vecAdd v (vecScale vecZero h) = v.
Proof. destruct v. vec_eq. Qed.

Lemma vecAdd_zero_rk4 v (h : R) :
  vecAdd v (vecScale (rk4Sum vecZero vecZero vecZero vecZero) (h / 6)) = v.
Proof. rewrite rk4Sum_constant. apply vecAdd_zero_acceleration. Qed.

Lemma no_force_acceleration (p : PointMassState R) (f : option (ForcesConfig R)) :
  f ≫= gravity = None → f ≫= linearDrag = None →
  sumAccelerationsForPointMass p f = vecZero.
Proof.
  intros Hg Hd. unfold sumAccelerationsForPointMass. rewrite Hg, Hd. simpl.
  vec_eq.
Qed.

Lemma no_force_rigid_acceleration e (r : RigidBodyBoxState R) :
  forces e ≫= gravity = None → forces e ≫= linearDrag = None →
  rigidLinearAcceleration e r = vecZero.
Proof.
  intros Hg Hd. unfold rigidLinearAcceleration. rewrite Hg, Hd. vec_eq.
Qed.

(** With a zero angular velocity [advanceOrientation] only normalises. *)
Lemma advanceOrientation_still q (h : R) :
  advanceOrientation q (V3 0 0 0) h = quatNormalize q.
Proof.
  unfold advanceOrientation. f_equal. destruct q. unfold quatMultiply. simpl.
  f_equal; ring.
Qed.

(** In every integrator the rigid bodies keep their angular velocity, and
    their orientation is advanced by it over [dt]. *)
Lemma step_rigid_rotation e e' i (r : RigidBodyBoxState R) :
  step e = Some e' → rigidBodies (state e) !! i = Some r →
  ∃ r', rigidBodies (state e') !! i = Some r' ∧
        rb_angularVelocity r' = rb_angularVelocity r ∧
        rb_orientation r' =
          advanceOrientation (rb_orientation r) (rb_angularVelocity r) (dt e).
Proof.
  intros [Hi _]%step_Some Hr. destruct (integratorName e); simpl in Hi.
  - destruct (integrateEuler_rigid _ _ _ _ _ Hi Hr) as (d & r' & Hd & Hr' & Hb).
    apply step_computeDerivative_rigid in Hd as [_ Hang].
    exists r'. split; [done|]. unfold eulerRigid in Hb. unbind Hb. subst r'.
    rewrite Hang in Hx0. apply const_fmap_lookup in Hx0 as ->. simpl.
    by rewrite vecAdd_zero_acceleration.
  - destruct (integrateSemiImplicitEuler_rigid _ _ _ _ _ Hi Hr)
      as (d & r' & Hd & Hr' & Hb).
    apply step_computeDerivative_rigid in Hd as [_ Hang].
    exists r'. split; [done|]. unfold semiRigid in Hb. unbind Hb. subst r'.
    rewrite Hang in Hx0. apply const_fmap_lookup in Hx0 as ->. simpl.
    by rewrite vecAdd_zero_acceleration.
  - destruct (integrateRK4_rigid _ _ _ _ _ Hi Hr)
      as (k1 & s2 & k2 & s3 & k3 & s4 & k4 & r'
          & H1 & _ & H2 & _ & H3 & _ & H4 & Hr' & Hb).
    apply step_computeDerivative_rigid in H1 as [_ A1].
    apply step_computeDerivative_rigid in H2 as [_ A2].
    apply step_computeDerivative_rigid in H3 as [_ A3].
    apply step_computeDerivative_rigid in H4 as [_ A4].
    exists r'. split; [done|]. unfold rk4Rigid in Hb. unbind Hb. subst r'.
    rewrite A1 in Hx3. apply const_fmap_lookup in Hx3 as ->.
    rewrite A2 in Hx4. apply const_fmap_lookup in Hx4 as ->.
    rewrite A3 in Hx5. apply const_fmap_lookup in Hx5 as ->.
    rewrite A4 in Hx6. apply const_fmap_lookup in Hx6 as ->.
    simpl. by rewrite vecAdd_zero_rk4.
Qed.

(** X8. A step, with any integrator, returns and leaves the angular
    velocity of every rigid body unchanged (the engine applies no
    torque); the new orientation is
    [advanceOrientation(orientation, angularVelocity, dt)]. *)
Theorem step_rotation e :
  indexConsistent e →
  ∃ e', step e = Some e' ∧
    rb_angularVelocity <$> rigidBodies (state e')
      = rb_angularVelocity <$> rigidBodies (state e) ∧
    ∀ i r, rigidBodies (state e) !! i = Some r →
      ∃ r', rigidBodies (state e') !! i = Some r' ∧
            rb_orientation r' =
              advanceOrientation (rb_orientation r) (rb_angularVelocity r) (dt e).
Proof.
  intros Hc.
  destruct (step_is_Some e (indexConsistent_inRange e Hc)) as [e' Hs].
  exists e'. split; [done|]. split.
  - apply fmap_eq_lookup.
    + destruct (step_Some _ _ Hs) as [Hi _].
      by destruct (integrate_length _ _ _ _ Hi).
    + intros i r Hr.
      destruct (step_rigid_rotation _ _ _ _ Hs Hr) as (r' & Hr' & Hw & _).
      by exists r'.
  - intros i r Hr.
    destruct (step_rigid_rotation _ _ _ _ Hs Hr) as (r' & Hr' & _ & Ho).
    by exists r'.
Qed.

(** X9. A rigid body with zero angular velocity and a unit orientation
    keeps both through any number of steps, with any integrator. *)
Theorem still_body_keeps_orientation (n : nat) e i (r : RigidBodyBoxState R) :
  indexConsistent e → rigidBodies (state e) !! i = Some r →
  rb_angularVelocity r = V3 0 0 0 → quatNorm (rb_orientation r) = 1 →
  ∃ e' r', steps n e = Some e' ∧
    rigidBodies (state e') !! i = Some r' ∧
    rb_orientation r' = rb_orientation r ∧
    rb_angularVelocity r' = V3 0 0 0.
Proof.
  revert e r. induction n as [|n IH]; intros e r Hc Hr Hw Hq.
  - by exists e, r.
  - destruct (step_is_Some e (indexConsistent_inRange e Hc)) as [e1 Hs].
    destruct (step_rigid_rotation _ _ _ _ Hs Hr) as (r1 & Hr1 & Hw1 & Ho1).
    rewrite Hw in Hw1, Ho1. rewrite advanceOrientation_still in Ho1.
    rewrite (quatNormalize_of_unit _ Hq) in Ho1.
    destruct (IH e1 r1) as (e' & r' & Hsteps & Hr' & Ho' & Hw');
      [by eapply step_indexConsistent|done|done|by rewrite Ho1|].
    exists e', r'. simpl. rewrite Hs. simpl.
    split; [done|]. split; [done|]. split; [congruence|done].
Qed.
End ExactIntegrators.

Section ExactIntegratorRelations.
Local Open Scope R_scope.
Implicit Types (e : PhysicsEngine R) (st : SimulationState R).

(** X10. From the same state, the explicit and the semi-implicit Euler
    step use the same derivative and give every point mass the same new
    velocity v + a·dt; the explicit step moves the position along the old
    velocity, position + v·dt, and the semi-implicit position is that
    plus a·dt². *)
Theorem euler_versus_semi_implicit e :
  indexConsistent e →
  ∃ d eE eS,
    step_computeDerivative e (state e) = Some d ∧
    step (withIntegrator e euler) = Some eE ∧
    step (withIntegrator e semi) = Some eS ∧
    ∀ i p, pointMasses (state e) !! i = Some p →
      ∃ a pE pS,
        pointAccelerations d !! i = Some a ∧
        pointMasses (state eE) !! i = Some pE ∧
        pointMasses (state eS) !! i = Some pS ∧
        pm_position pE = vecAdd (pm_position p) (vecScale (pm_velocity p) (dt e)) ∧
        pm_velocity pE = vecAdd (pm_velocity p) (vecScale a (dt e)) ∧
        pm_velocity pS = pm_velocity pE ∧
        pm_position pS = vecAdd (pm_position pE) (vecScale a (dt e * dt e)) ∧
        ∀ c, c ∈ [v0; v1; v2] →
          c (pm_position pE) = c (pm_position p) + c (pm_velocity p) * dt e ∧
          c (pm_velocity pE) = c (pm_velocity p) + c a * dt e ∧
          c (pm_velocity pS) = c (pm_velocity pE) ∧
          c (pm_position pS) = c (pm_position pE) + c a * (dt e * dt e).
Proof.
  intros Hc.
  destruct (step_withIntegrator_is_Some e euler Hc) as [eE HE].
  destruct (step_withIntegrator_is_Some e semi Hc) as [eS HS].
  pose proof (step_withIntegrator _ _ _ HE) as HiE.
  pose proof (step_withIntegrator _ _ _ HS) as HiS. simpl in HiE, HiS.
  apply integrateEuler_point in HiE as (d & Hd & HpE).
  apply integrateSemiImplicitEuler_point in HiS as (d' & Hd' & HpS).
  assert (d' = d) as -> by congruence. simpl in Hd.
  exists d, eE, eS. repeat split; [done..|]. intros i p Hp.
  destruct (HpE i p Hp) as (a & Ha & HE').
  destruct (HpS i p Hp) as (a' & Ha' & HS').
  assert (a' = a) as -> by congruence. simpl in HE', HS'.
  eexists a, _, _. split; [done|]. split; [exact HE'|]. split; [exact HS'|].
  simpl. split; [done|]. split; [done|]. split; [done|]. split.
  { destruct p as [pid m [x y z] [vx vy vz]], a. simpl. vec_eq. }
  intros c Hin. each_component Hin; simpl; repeat split; ring.
Qed.

Lemma fmap_independent {A B} (f : A → B) (l l' : list A) :
  (∀ x y, f x = f y) → length l = length l' → f <$> l = f <$> l'.
Proof.
  intros Hf. revert l'. induction l as [|x l IH]; intros [|y l'] Hl; try done.
  simpl in *. f_equal; [apply Hf|]. apply IH. lia.
Qed.

(** Without linear drag and without a resolved spring the derivative
    depends on the number of bodies only. *)
Lemma derivative_without_drag e st st' :
  forces e ≫= linearDrag = None → Forall (unresolved e) (springs e) →
  length (pointMasses st) = length (pointMasses st') →
  length (rigidBodies st) = length (rigidBodies st') →
  step_computeDerivative e st = step_computeDerivative e st' ∧
  ∃ d, step_computeDerivative e st = Some d ∧ fits d st.
Proof.
  intros Hd Hs Lp Lr. unfold step_computeDerivative.
  rewrite !forOf_springBody_unresolved by done. simpl. split.
  - do 2 f_equal.
    + apply fmap_independent; [|done]. intros p q.
      unfold sumAccelerationsForPointMass. by rewrite Hd.
    + apply fmap_independent; [|done]. intros p q.
      unfold rigidLinearAcceleration. by rewrite Hd.
    + by apply fmap_independent.
  - eexists. split; [done|]. unfold fits. simpl. by rewrite !length_map.
Qed.

Lemma rk4Point_constant (h : R) (d : Derivative R) i p :
  rk4Point h d d d d i p = semiPoint h d i p.
Proof.
  unfold rk4Point, semiPoint.
  destruct (pointAccelerations d !! i) as [a|]; simpl; [|done].
  unfold pm_setPosition, pm_setVelocity. simpl. by rewrite rk4Sum_constant.
Qed.

Lemma rk4Rigid_constant (h : R) (d : Derivative R) i r :
  rk4Rigid h d d d d i r = semiRigid h d i r.
Proof.
  unfold rk4Rigid, semiRigid.
  destruct (rigidLinearAccelerations d !! i) as [l|]; simpl; [|done].
  destruct (rigidAngularAccelerations d !! i) as [w|]; simpl; [|done].
  unfold rb_setPosition, rb_setVelocity, rb_setAngularVelocity,
    rb_setOrientation. simpl. by rewrite !rk4Sum_constant.
Qed.

Lemma integrateRK4_without_drag e :
  forces e ≫= linearDrag = None → Forall (unresolved e) (springs e) →
  integrateRK4 (contextOf e) (state e)
    = integrateSemiImplicitEuler (contextOf e) (state e).
Proof.
  intros Hd Hs.
  destruct (derivative_without_drag e (state e) (state e) Hd Hs eq_refl eq_refl)
    as (_ & d & Hder & Hfit).
  assert (Hstage : ∀ h, ∃ s, rk4Stage (state e) d h = Some s ∧
                             step_computeDerivative e s = Some d).
  { intros h. destruct (rk4Stage_is_Some (state e) d h Hfit) as [s Hst].
    exists s. split; [done|].
    destruct (rk4Stage_length _ _ _ _ Hst) as [Lp Lr].
    destruct (derivative_without_drag e s (state e) Hd Hs Lp Lr) as [-> _].
    done. }
  rewrite integrateRK4_unfold, integrateSemiImplicitEuler_unfold.
  change (computeDerivative (contextOf e)) with (step_computeDerivative e).
  change (ctx_dt (contextOf e)) with (dt e).
  rewrite Hder. cbn [mbind option_bind].
  destruct (Hstage (mul (dt e) half)) as (s2 & E2 & Hd2).
  rewrite E2. cbn [mbind option_bind]. rewrite Hd2. cbn [mbind option_bind].
  rewrite E2. cbn [mbind option_bind]. rewrite Hd2. cbn [mbind option_bind].
  destruct (Hstage (dt e)) as (s4 & E4 & Hd4).
  rewrite E4. cbn [mbind option_bind]. rewrite Hd4. cbn [mbind option_bind].
  unfold forEachIndex.
  rewrite (loopFrom_ext _ _ 0 _ (rk4Point_constant (dt e) d)).
  rewrite (loopFrom_ext _ _ 0 _ (rk4Rigid_constant (dt e) d)).
  done.
Qed.

(** X11. Without linear drag and without a resolved spring (gravity or no
    force at all), the RK4 step returns exactly the state the
    semi-implicit Euler step returns. *)
Theorem rk4_is_semi_implicit_without_drag e :
  indexConsistent e →
  forces e ≫= linearDrag = None → Forall (unresolved e) (springs e) →
  ∃ e4 eS,
    step (withIntegrator e rk4) = Some e4 ∧
    step (withIntegrator e semi) = Some eS ∧
    state e4 = state eS.
Proof.
  intros Hc Hd Hs.
  destruct (step_withIntegrator_is_Some e rk4 Hc) as [e4 H4].
  destruct (step_withIntegrator_is_Some e semi Hc) as [eS HS].
  exists e4, eS. split; [done|]. split; [done|].
  apply step_withIntegrator in H4, HS. simpl in H4, HS.
  rewrite integrateRK4_without_drag in H4 by done. congruence.
Qed.
End ExactIntegratorRelations.

Section ExactFreeMotion.
Local Open Scope R_scope.
Implicit Types (e : PhysicsEngine R).

(** X12. With no gravity, no linear drag and no resolved spring, a step
    with any integrator leaves every velocity unchanged and moves every
    point mass and every rigid body by velocity·dt. *)
Theorem free_motion_is_uniform e :
  indexConsistent e →
  forces e ≫= gravity = None → forces e ≫= linearDrag = None →
  Forall (unresolved e) (springs e) →
  ∃ e', step e = Some e' ∧
    (∀ i p, pointMasses (state e) !! i = Some p →
       pointMasses (state e') !! i =
         Some {| pm_id := pm_id p; pm_mass := pm_mass p;
                 pm_position :=
                   vecAdd (pm_position p) (vecScale (pm_velocity p) (dt e));
                 pm_velocity := pm_velocity p |}) ∧
    (∀ i r, rigidBodies (state e) !! i = Some r →
       ∃ r', rigidBodies (state e') !! i = Some r' ∧
             rb_velocity r' = rb_velocity r ∧
             rb_position r' =
               vecAdd (rb_position r) (vecScale (rb_velocity r) (dt e))) ∧
    (∀ c, c ∈ [v0; v1; v2] →
       (∀ i p p', pointMasses (state e) !! i = Some p →
          pointMasses (state e') !! i = Some p' →
          c (pm_velocity p') = c (pm_velocity p) ∧
          c (pm_position p') = c (pm_position p) + c (pm_velocity p) * dt e) ∧
       (∀ i r r', rigidBodies (state e) !! i = Some r →
          rigidBodies (state e') !! i = Some r' →
          c (rb_velocity r') = c (rb_velocity r) ∧
          c (rb_position r') = c (rb_position r) + c (rb_velocity r) * dt e)).
Proof.
  intros Hc Hg Hd Hs.
  destruct (step_is_Some e (indexConsistent_inRange e Hc)) as [e' Hstep].
  exists e'. split; [done|].
  cut ((∀ i p, pointMasses (state e) !! i = Some p →
          pointMasses (state e') !! i =
            Some {| pm_id := pm_id p; pm_mass := pm_mass p;
                    pm_position :=
                      vecAdd (pm_position p) (vecScale (pm_velocity p) (dt e));
                    pm_velocity := pm_velocity p |}) ∧
       (∀ i r, rigidBodies (state e) !! i = Some r →
          ∃ r', rigidBodies (state e') !! i = Some r' ∧
                rb_velocity r' = rb_velocity r ∧
                rb_position r' =
                  vecAdd (rb_position r) (vecScale (rb_velocity r) (dt e)))).
  { intros [Hpoints Hrigids]. split; [exact Hpoints|]. split; [exact Hrigids|].
    intros c Hin. split.
    - intros i p p' Hp Hp'. rewrite (Hpoints i p Hp) in Hp'.
      injection Hp' as <-. by each_component Hin.
    - intros i r r' Hr Hr'.
      destruct (Hrigids i r Hr) as (r0 & Hr0 & Hv & Hx).
      assert (r0 = r') as -> by congruence. rewrite Hv, Hx.
      by each_component Hin. }
  destruct (step_Some _ _ Hstep) as [Hi _].
  assert (Hpoint : ∀ st d i a,
            step_computeDerivative e st = Some d →
            pointAccelerations d !! i = Some a → a = vecZero).
  { intros st d i a Hder Ha.
    rewrite (step_computeDerivative_point _ _ _ Hs Hder) in Ha.
    rewrite list_lookup_fmap in Ha.
    destruct (pointMasses st !! i) as [p|]; simpl in Ha; [|done].
    injection Ha as <-. by apply no_force_acceleration. }
  assert (Hrigid : ∀ st d i a,
            step_computeDerivative e st = Some d →
            rigidLinearAccelerations d !! i = Some a → a = vecZero).
  { intros st d i a Hder Ha.
    apply step_computeDerivative_rigid in Hder as [Hl _].
    rewrite Hl, list_lookup_fmap in Ha.
    destruct (rigidBodies st !! i) as [r|]; simpl in Ha; [|done].
    injection Ha as <-. by apply no_force_rigid_acceleration. }
  assert (Hsemi : integratorName e ≠ euler →
            integrateSemiImplicitEuler (contextOf e) (state e) = Some (state e')).
  { intros Hn. destruct (integratorName e); simpl in Hi; [done|done|].
    by rewrite <- integrateRK4_without_drag. }
  assert (Hcase : integratorName e = euler ∨ integratorName e ≠ euler).
  { destruct (integratorName e); [by left|by right|by right]. }
  destruct Hcase as [He|Hne].
  - rewrite He in Hi. simpl in Hi. split.
    + intros i p Hp.
      apply integrateEuler_point in Hi as (d & Hder & Hpt).
      destruct (Hpt i p Hp) as (a & Ha & ->). simpl.
      rewrite (Hpoint _ _ _ _ Hder Ha). by rewrite vecAdd_zero_acceleration.
    + intros i r Hr.
      destruct (integrateEuler_rigid _ _ _ _ _ Hi Hr) as (d & r' & Hder & Hr' & Hb).
      exists r'. split; [done|]. unfold eulerRigid in Hb. unbind Hb. subst r'.
      simpl. rewrite (Hrigid _ _ _ _ Hder Hx).
      by rewrite vecAdd_zero_acceleration.
  - specialize (Hsemi Hne). split.
    + intros i p Hp.
      apply integrateSemiImplicitEuler_point in Hsemi as (d & Hder & Hpt).
      destruct (Hpt i p Hp) as (a & Ha & ->). simpl.
      rewrite (Hpoint _ _ _ _ Hder Ha). by rewrite vecAdd_zero_acceleration.
    + intros i r Hr.
      destruct (integrateSemiImplicitEuler_rigid _ _ _ _ _ Hsemi Hr)
        as (d & r' & Hder & Hr' & Hb).
      exists r'. split; [done|]. unfold semiRigid in Hb. unbind Hb. subst r'.
      simpl. rewrite (Hrigid _ _ _ _ Hder Hx).
      by rewrite vecAdd_zero_acceleration.
Qed.
End ExactFreeMotion.

(** ** More on the engine *)

Section ConstructorIndex.
Context {num : Type} {arith : Number num}.
Implicit Types (pms : list (PointMassConfig num)) (m : gmap string nat).

Lemma setIndexById_snoc idx pms pm m :
  setIndexById idx (pms ++ [pm]) m
    = <[pmc_id pm := idx + length pms]> (setIndexById idx pms m).
Proof.
  revert idx m. induction pms as [|p rest IH]; intros idx m; simpl.
  - by rewrite Nat.add_0_r.
  - rewrite IH. by rewrite Nat.add_succ_comm.
Qed.

Lemma setIndexById_last pms id i :
  setIndexById 0 pms ∅ !! id = Some i ↔
  (pmc_id <$> pms) !! i = Some id ∧
  ∀ k, i < k → (pmc_id <$> pms) !! k ≠ Some id.
Proof.
  revert i. induction pms as [|pm pms IH] using rev_ind; intros i.
  - simpl. rewrite lookup_empty. split; [done|]. by intros [? _].
  - rewrite setIndexById_snoc, fmap_app. simpl.
    assert (Hlen : length (pmc_id <$> pms) = length pms) by apply length_fmap.
    destruct (decide (pmc_id pm = id)) as [<-|Hne].
    + rewrite lookup_insert_eq. split.
      * intros [= <-]. split.
        -- rewrite lookup_app_r by lia. by rewrite Hlen, Nat.sub_diag.
        -- intros k Hk. rewrite lookup_ge_None_2; [done|].
           rewrite length_app. simpl. lia.
      * intros [Hi Hlater]. f_equal.
        destruct (Nat.lt_trichotomy i (length pms)) as [Hlt|[->|Hgt]]; [|done|].
        -- exfalso. apply (Hlater (length pms) Hlt).
           rewrite lookup_app_r by lia. by rewrite Hlen, Nat.sub_diag.
        -- apply lookup_lt_Some in Hi. rewrite length_app in Hi.
           simpl in Hi. lia.
    + rewrite lookup_insert_ne by done. rewrite IH. split.
      * intros [Hi Hlater]. split.
        -- by apply lookup_app_l_Some.
        -- intros k Hk. destruct (decide (k < length pms)) as [Hlt|Hge].
           ++ rewrite lookup_app_l by lia. by apply Hlater.
           ++ rewrite lookup_app_r by lia. rewrite Hlen.
              destruct (k - length pms) as [|n]; simpl; [congruence|done].
      * intros [Hi Hlater].
        assert (Hlt : i < length pms).
        { destruct (decide (i < length pms)) as [?|Hge]; [done|].
          rewrite lookup_app_r in Hi by lia. rewrite Hlen in Hi.
          destruct (i - length pms) as [|n]; simpl in Hi; [congruence|done]. }
        rewrite lookup_app_l in Hi by lia. split; [done|].
        intros k Hk Hk'. apply (Hlater k Hk). by apply lookup_app_l_Some.
Qed.

(** X13. The id→index map the constructor builds holds, for an id, the
    position of the last point mass of the configuration with that id,
    and holds nothing for an id no point mass has. *)
Theorem construct_index_is_last (config : SimulationConfig num) id :
  let ids := pmc_id <$> default [] (cfg_pointMasses config) in
  (∀ i, pointMassIndexById (construct config) !! id = Some i ↔
        ids !! i = Some id ∧ ∀ k, i < k → ids !! k ≠ Some id) ∧
  (pointMassIndexById (construct config) !! id = None ↔ id ∉ ids).
Proof.
  simpl. split; [intros i; apply setIndexById_last|].
  split.
  - intros Hnone Hin.
    destruct (setIndexById_is_Some 0 (default [] (cfg_pointMasses config)) ∅ id)
      as [j Hj]; [by right|]. congruence.
  - intros Hnot.
    destruct (setIndexById 0 _ ∅ !! id) as [j|] eqn:E; [|done].
    exfalso. apply Hnot. apply setIndexById_last in E as [E _].
    by eapply list_elem_of_lookup_2.
Qed.
End ConstructorIndex.

Section ImpulseFacts.
Context {num : Type} {arith : Number num}.
Implicit Types (e : PhysicsEngine num) (J : Vector3 num).

(** An id that is not a point mass's reaches the first rigid body with
    that id. *)
Lemma applyImpulse_find e objectId J i (r : RigidBodyBoxState num) :
  pointMassIndexById e !! objectId = None →
  list_find (λ r, rb_id r = objectId) (rigidBodies (state e)) = Some (i, r) →
  applyImpulse objectId J e =
    Some (setState e
            (st_setRigidBodies (state e)
               (<[i := rb_setVelocity r
                         (vecAdd (rb_velocity r)
                                 (vecScale J (div one (rb_mass r))))]>
                  (rigidBodies (state e))))).
Proof. intros Hm Hf. unfold applyImpulse. by rewrite Hm, Hf. Qed.

Lemma list_find_insert_same {A} (P : A → Prop) `{∀ x, Decision (P x)}
    (l : list A) i x y :
  list_find P l = Some (i, x) → P y →
  list_find P (<[i := y]> l) = Some (i, y).
Proof.
  intros Hf Hy. apply list_find_Some in Hf as (Hi & Hx & Hbefore).
  apply list_find_Some. split.
  { apply list_lookup_insert_eq. by eapply lookup_lt_Some. }
  split; [done|]. intros j z Hj Hlt.
  rewrite list_lookup_insert_ne in Hj by lia. by eapply Hbefore.
Qed.

Lemma indexConsistent_unknown e objectId :
  indexConsistent e → objectId ∉ pm_id <$> pointMasses (state e) →
  pointMassIndexById e !! objectId = None.
Proof.
  intros [H1 _] Hp.
  destruct (pointMassIndexById e !! objectId) as [i|] eqn:E; [|done].
  exfalso. apply Hp. apply H1 in E. by eapply list_elem_of_lookup_2.
Qed.

(** X14. An id shared by a point mass and a rigid body reaches the point
    mass only: when the id is a point mass's, [applyImpulse] returns and
    leaves every rigid body as it was. *)
Theorem applyImpulse_prefers_point_mass e objectId J :
  indexConsistent e → objectId ∈ pm_id <$> pointMasses (state e) →
  ∃ e', applyImpulse objectId J e = Some e' ∧
        rigidBodies (state e') = rigidBodies (state e).
Proof.
  intros Hc Hin. pose proof Hc as [H1 H2].
  destruct (H2 objectId Hin) as [i Hi].
  pose proof (H1 _ _ Hi) as Hid. rewrite list_lookup_fmap in Hid.
  destruct (pointMasses (state e) !! i) as [p|] eqn:Hp; [|done].
  destruct (applyImpulse_resolved e objectId J i p Hi Hp)
    as (e' & Ha & _ & _ & Hr & _).
  by exists e'.
Qed.

(** X15. Calls never change what the constructor took from the
    configuration: after any sequence of [step()] and [applyImpulse()]
    calls, [getDt()] returns the configured dt, and the integrator, the
    forces and the springs are the configured ones. *)
Theorem calls_keep_configuration (config : SimulationConfig num)
    (cs : list (Call num)) :
  ∃ e, run (construct config) cs = Some e ∧
    getDt e = cfg_dt config ∧
    integratorName e = cfg_integrator config ∧
    forces e = cfg_forces config ∧
    springs e = default [] (cfg_springs config) ∧
    pointMassIndexById e = pointMassIndexById (construct config).
Proof.
  destruct (run_construct_is_Some config cs) as (e & Hrun & _).
  exists e. split; [done|].
  assert (Hkeep : ∀ cs e0 e1, run e0 cs = Some e1 → sameSetup e0 e1).
  { clear. intros cs. induction cs as [|c cs IH]; intros e0 e1 H.
    - injection H as <-. by repeat split.
    - unfold run in H. simpl in H. unbind H.
      assert (Hc : sameSetup e0 x).
      { destruct c; simpl in Hx.
        - by apply step_Some in Hx as [_ ?].
        - by apply applyImpulse_Some in Hx as [? _]. }
      specialize (IH _ _ H).
      destruct Hc as (? & ? & ? & ? & ?), IH as (? & ? & ? & ? & ?).
      repeat split; congruence. }
  destruct (Hkeep _ _ _ Hrun) as (H1 & H2 & H3 & H4 & H5).
  unfold getDt. by rewrite H1, H2, H3, H4, H5.
Qed.
End ImpulseFacts.

Section ExactImpulses.
Local Open Scope R_scope.
Implicit Types (e : PhysicsEngine R) (J : Vector3 R).

(** X16. For an id that is no point mass's but a rigid body's,
    [applyImpulse(id, J)] changes the velocity of the first rigid body
    with that id by J/m in each component and nothing else: its position,
    orientation and angular velocity, the other rigid bodies, the point
    masses, the time and the step index stay as they were. *)
Theorem applyImpulse_rigid_body e objectId J (i : nat)
    (r : RigidBodyBoxState R) :
  indexConsistent e →
  objectId ∉ pm_id <$> pointMasses (state e) →
  rigidBodies (state e) !! i = Some r → rb_id r = objectId →
  (∀ j r0, (j < i)%nat →
           rigidBodies (state e) !! j = Some r0 → rb_id r0 ≠ objectId) →
  ∃ e' r',
    applyImpulse objectId J e = Some e' ∧
    rigidBodies (state e') !! i = Some r' ∧
    v0 (rb_velocity r') = v0 (rb_velocity r) + v0 J / rb_mass r ∧
    v1 (rb_velocity r') = v1 (rb_velocity r) + v1 J / rb_mass r ∧
    v2 (rb_velocity r') = v2 (rb_velocity r) + v2 J / rb_mass r ∧
    rb_position r' = rb_position r ∧
    rb_orientation r' = rb_orientation r ∧
    rb_angularVelocity r' = rb_angularVelocity r ∧
    rb_frame r' = rb_frame r ∧
    (∀ j, j ≠ i → rigidBodies (state e') !! j = rigidBodies (state e) !! j) ∧
    pointMasses (state e') = pointMasses (state e) ∧
    time (state e') = time (state e) ∧
    stepIndex (state e') = stepIndex (state e).
Proof.
  intros Hc Hp Hr Hid Hfirst.
  pose proof (indexConsistent_unknown e objectId Hc Hp) as Hm.
  assert (Hf : list_find (λ r, rb_id r = objectId) (rigidBodies (state e))
               = Some (i, r)).
  { apply list_find_Some. split; [done|]. split; [done|].
    intros j r0 Hj Hlt. by eapply Hfirst. }
  rewrite (applyImpulse_find e objectId J i r Hm Hf).
  eexists _, _. split; [done|]. simpl. split.
  { apply list_lookup_insert_eq. by eapply lookup_lt_Some. }
  simpl. unfold Rdiv. repeat split; try lra.
  intros j Hj. by apply list_lookup_insert_ne.
Qed.

Lemma impulse_sum (v J1 J2 : Vector3 R) (m : R) :
  vecAdd (vecAdd v (vecScale J1 (1 / m))) (vecScale J2 (1 / m))
    = vecAdd v (vecScale (vecAdd J1 J2) (1 / m)).
Proof. destruct v, J1, J2. unfold vecAdd, vecScale. simpl. f_equal; ring. Qed.

(** X17. Impulses on the same id add up: [applyImpulse(id, J1)] followed
    by [applyImpulse(id, J2)] leaves the engine as [applyImpulse(id, J1 +
    J2)] does, whether the id is a point mass's, a rigid body's or
    unknown. *)
Theorem impulses_add_up e objectId J1 J2 :
  indexConsistent e →
  applyImpulse objectId J1 e ≫= applyImpulse objectId J2
    = applyImpulse objectId (vecAdd J1 J2) e ∧
  is_Some (applyImpulse objectId (vecAdd J1 J2) e).
Proof.
  intros Hc. split; [|by apply applyImpulse_is_Some, indexConsistent_inRange].
  destruct (pointMassIndexById e !! objectId) as [i|] eqn:Hm.
  - pose proof (proj1 Hc _ _ Hm) as Hid. rewrite list_lookup_fmap in Hid.
    destruct (pointMasses (state e) !! i) as [p|] eqn:Hp; [|done].
    unfold applyImpulse at 2 3. rewrite Hm, Hp. simpl.
    unfold applyImpulse. simpl. rewrite Hm.
    rewrite list_lookup_insert_eq by (by eapply lookup_lt_Some). simpl.
    rewrite list_insert_insert_eq. unfold pm_setVelocity. simpl.
    change (div one (pm_mass p)) with (1 / pm_mass p).
    by rewrite impulse_sum.
  - destruct (list_find (λ r, rb_id r = objectId) (rigidBodies (state e)))
      as [[i r]|] eqn:Hf.
    + rewrite (applyImpulse_find e objectId J1 i r Hm Hf).
      rewrite (applyImpulse_find e objectId (vecAdd J1 J2) i r Hm Hf). simpl.
      pose proof Hf as (_ & Hid & _)%list_find_Some.
      erewrite applyImpulse_find; [|exact Hm|].
      2:{ simpl. apply (list_find_insert_same _ _ _ _ _ Hf). exact Hid. }
      simpl. rewrite list_insert_insert_eq. unfold setState, st_setRigidBodies.
      simpl. unfold rb_setVelocity. simpl.
      change (div one (rb_mass r)) with (1 / rb_mass r).
      by rewrite impulse_sum.
    + unfold applyImpulse at 2 3. rewrite Hm, Hf. simpl.
      unfold applyImpulse. by rewrite Hm, Hf.
Qed.
End ExactImpulses.

(** ** The spring force *)

Section ExactSpring.
Local Open Scope R_scope.
Implicit Types (e : PhysicsEngine R) (st : SimulationState R).
Implicit Types (s : SpringConfig R) (a b : PointMassState R).

Lemma vecLength_sub_self (x : Vector3 R) : vecLength (vecSub x x) = 0.
Proof.
  apply vecLength_zero_iff. destruct x. unfold vecSub. simpl. f_equal; ring.
Qed.

(** X18. A spring whose two anchors are at the same position (also a
    spring from a point mass to itself) exerts no force, whatever its
    rest length, stiffness and damping: the direction is the zero vector
    and the loop body leaves the accelerations as they were. *)
Theorem coincident_spring_exerts_no_force e st s (ia ib : nat) a b
    (accs : list (Vector3 R)) :
  pointMassIndexById e !! aId s = Some ia →
  pointMassIndexById e !! bId s = Some ib →
  pointMasses st !! ia = Some a → pointMasses st !! ib = Some b →
  pm_position a = pm_position b →
  length accs = length (pointMasses st) →
  springBody e st accs s = Some accs.
Proof.
  intros Ha Hb Hpa Hpb Hpos Hlen. unfold springBody.
  rewrite Ha, Hb, Hpa, Hpb. cbn [mbind option_bind]. rewrite Hpos.
  rewrite vecLength_sub_self. cbn [gtb zero real_arithmetic]. unfold Rgtb.
  destruct (Rlt_dec 0 0) as [Hlt|_]; [lra|].
  destruct (lookup_lt_is_Some_2 accs ia) as [accA HaccA].
  { rewrite Hlen. by eapply lookup_lt_Some. }
  rewrite HaccA. cbn [mbind option_bind].
  assert (Hzero : ∀ (acc : Vector3 R) (f m : R),
            vecAdd acc (vecScale (vecScale vecZero f) m) = acc).
  { intros [] f m. vec_eq. }
  assert (Hzero' : ∀ (acc : Vector3 R) (f m : R),
            vecAdd acc (vecScale (vecScale (vecScale vecZero f) (- (1))) m) = acc).
  { intros [] f m. vec_eq. }
  rewrite Hzero. rewrite (list_insert_id accs ia accA HaccA).
  destruct (lookup_lt_is_Some_2 accs ib) as [accB HaccB].
  { rewrite Hlen. by eapply lookup_lt_Some. }
  rewrite HaccB. cbn [mbind option_bind]. rewrite Hzero'.
  by rewrite (list_insert_id accs ib accB HaccB).
Qed.
End ExactSpring.

Section ExactSpringDirection.
Local Open Scope R_scope.
Implicit Types (e : PhysicsEngine R) (st : SimulationState R).
Implicit Types (s : SpringConfig R) (a b : PointMassState R).

(** What an undamped spring between two point masses at different
    positions adds to their accelerations. *)
Lemma undamped_springBody e st s (ia ib : nat) a b
    (accs : list (Vector3 R)) (accA accB : Vector3 R) :
  pointMassIndexById e !! aId s = Some ia →
  pointMassIndexById e !! bId s = Some ib → ia ≠ ib →
  pointMasses st !! ia = Some a → pointMasses st !! ib = Some b →
  accs !! ia = Some accA → accs !! ib = Some accB →
  damping s = None →
  let delta := vecSub (pm_position b) (pm_position a) in
  let distance := vecLength delta in
  let force :=
    vecScale (vecScale delta (1 / distance))
             (- stiffness s * (distance - restLength s)) in
  0 < distance →
  ∃ accs',
    springBody e st accs s = Some accs' ∧
    accs' !! ia = Some (vecAdd accA (vecScale force (1 / pm_mass a))) ∧
    accs' !! ib = Some (vecAdd accB (vecScale force (- (1 / pm_mass b)))).
Proof.
  intros Ha Hb Hne Hpa Hpb HaccA HaccB Hdamp delta distance force Hpos.
  unfold springBody. rewrite Ha, Hb, Hpa, Hpb. cbn [mbind option_bind].
  fold delta. fold distance. cbn [gtb zero one div real_arithmetic].
  unfold Rgtb. destruct (Rlt_dec 0 distance) as [_|Hn]; [|lra].
  rewrite Hdamp. cbn [default]. rewrite HaccA. cbn [mbind option_bind].
  rewrite list_lookup_insert_ne by done. rewrite HaccB.
  cbn [mbind option_bind]. eexists. split; [done|].
  rewrite list_lookup_insert_ne by done.
  rewrite list_lookup_insert_eq by (by eapply lookup_lt_Some).
  rewrite list_lookup_insert_eq
    by (rewrite length_insert; by eapply lookup_lt_Some).
  split; f_equal.
  - unfold force. destruct accA, delta. unfold vecAdd, vecScale, vecSub.
    simpl. f_equal; ring.
  - unfold force. destruct accB, delta. unfold vecAdd, vecScale, vecSub.
    simpl. f_equal; ring.
Qed.

Lemma vecDot_scaled_self (delta : Vector3 R) (c : R) :
  vecDot (vecScale delta c) delta = c * (vecLength delta * vecLength delta).
Proof.
  unfold vecLength. cbn [sqrt real_arithmetic].
  rewrite sqrt_sqrt by apply vecDot_self_nonneg.
  unfold vecDot, vecScale. simpl. ring.
Qed.

(** X19. An undamped spring of positive stiffness between two point
    masses of positive mass at different positions adds, in each
    component, F/mass_a to the acceleration of a and −F/mass_b to that
    of b, where F = direction·(−stiffness·extension), direction is
    (position_b − position_a)/distance and extension is
    distance − restLength.  So F points from b to a when the spring is
    longer than its rest length: a stretched spring accelerates its ends
    away from each other, a compressed one towards each other, and a
    spring at its rest length not at all. *)
Theorem spring_force_direction e st s (ia ib : nat) a b
    (accs : list (Vector3 R)) (accA accB : Vector3 R) :
  pointMassIndexById e !! aId s = Some ia →
  pointMassIndexById e !! bId s = Some ib → ia ≠ ib →
  pointMasses st !! ia = Some a → pointMasses st !! ib = Some b →
  accs !! ia = Some accA → accs !! ib = Some accB →
  damping s = None → 0 < stiffness s →
  0 < pm_mass a → 0 < pm_mass b →
  0 < vecLength (vecSub (pm_position b) (pm_position a)) →
  let delta := vecSub (pm_position b) (pm_position a) in
  ∃ accs' accA' accB',
    springBody e st accs s = Some accs' ∧
    accs' !! ia = Some accA' ∧ accs' !! ib = Some accB' ∧
    (∀ c, c ∈ [v0; v1; v2] →
       let dx := v0 (pm_position b) - v0 (pm_position a) in
       let dy := v1 (pm_position b) - v1 (pm_position a) in
       let dz := v2 (pm_position b) - v2 (pm_position a) in
       let distance := R_sqrt.sqrt (dx * dx + dy * dy + dz * dz) in
       let direction := (c (pm_position b) - c (pm_position a)) / distance in
       let F := direction * (- stiffness s * (distance - restLength s)) in
       c accA' = c accA + F / pm_mass a ∧
       c accB' = c accB - F / pm_mass b) ∧
    (restLength s < vecLength delta →
     vecDot (vecSub accA' accA) delta < 0 ∧
     0 < vecDot (vecSub accB' accB) delta) ∧
    (vecLength delta < restLength s →
     0 < vecDot (vecSub accA' accA) delta ∧
     vecDot (vecSub accB' accB) delta < 0) ∧
    (vecLength delta = restLength s → accA' = accA ∧ accB' = accB).
Proof.
  intros Ha Hb Hne Hpa Hpb HaccA HaccB Hdamp Hk Hma Hmb Hpos delta.
  destruct (undamped_springBody e st s ia ib a b accs accA accB
              Ha Hb Hne Hpa Hpb HaccA HaccB Hdamp Hpos)
    as (accs' & Hbody & HA & HB).
  fold delta in Hpos, HA, HB.
  exists accs'. eexists _, _. split; [exact Hbody|].
  split; [exact HA|]. split; [exact HB|]. split.
  { intros c Hin dx dy dz distance direction F.
    assert (Hd : distance = vecLength delta) by reflexivity.
    assert (Hdist : distance ≠ 0) by (rewrite Hd; lra).
    assert (Hmassa : pm_mass a ≠ 0) by lra.
    assert (Hmassb : pm_mass b ≠ 0) by lra.
    unfold F, direction. clearbody distance. rewrite <- Hd.
    each_component Hin; simpl; split; field; done. }
  set (dist := vecLength delta) in *.
  set (fm := - stiffness s * (dist - restLength s)) in *.
  assert (Hinvd : 0 < / dist) by (by apply Rinv_0_lt_compat).
  assert (Hinva : 0 < / pm_mass a) by (by apply Rinv_0_lt_compat).
  assert (Hinvb : 0 < / pm_mass b) by (by apply Rinv_0_lt_compat).
  assert (HdotA : ∀ acc,
            vecDot (vecSub (vecAdd acc (vecScale (vecScale (vecScale delta (1 / dist)) fm)
                                                 (1 / pm_mass a))) acc) delta
            = fm * (dist * / pm_mass a)).
  { intros acc.
    replace (vecSub (vecAdd acc (vecScale (vecScale (vecScale delta (1 / dist)) fm)
                                          (1 / pm_mass a))) acc)
      with (vecScale delta (1 / dist * fm * (1 / pm_mass a)))
      by (destruct acc, delta; unfold vecSub, vecAdd, vecScale; simpl;
          f_equal; ring).
    rewrite vecDot_scaled_self. fold dist. field. split; lra. }
  assert (HdotB : ∀ acc,
            vecDot (vecSub (vecAdd acc (vecScale (vecScale (vecScale delta (1 / dist)) fm)
                                                 (- (1 / pm_mass b)))) acc) delta
            = - (fm * (dist * / pm_mass b))).
  { intros acc.
    replace (vecSub (vecAdd acc (vecScale (vecScale (vecScale delta (1 / dist)) fm)
                                          (- (1 / pm_mass b)))) acc)
      with (vecScale delta (1 / dist * fm * (- (1 / pm_mass b))))
      by (destruct acc, delta; unfold vecSub, vecAdd, vecScale; simpl;
          f_equal; ring).
    rewrite vecDot_scaled_self. fold dist. field. split; lra. }
  assert (Hpa' : 0 < dist * / pm_mass a) by (by apply Rmult_lt_0_compat).
  assert (Hpb' : 0 < dist * / pm_mass b) by (by apply Rmult_lt_0_compat).
  rewrite HdotA, HdotB. split; [|split].
  - intros Hlong. assert (fm < 0) by (unfold fm; nra). split; nra.
  - intros Hshort. assert (0 < fm) by (unfold fm; nra). split; nra.
  - intros Hrest. assert (Hfm : fm = 0) by (unfold fm; rewrite Hrest; ring).
    rewrite Hfm. split.
    + destruct accA, delta. unfold vecAdd, vecScale. simpl. f_equal; ring.
    + destruct accB, delta. unfold vecAdd, vecScale. simpl. f_equal; ring.
Qed.
End ExactSpringDirection.

(** ** The worker *)

Section WorkerFacts.
Context {num : Type} {arith : Number num} {warith : WorkerNumber num}.
Implicit Types (w : Worker num) (ev : Event num) (evs : list (Event num)).
Implicit Types (effects : list (Effect num)).

Lemma handleAll_cons w ev evs w1 effects1 :
  handle w ev = Some (w1, effects1) →
  handleAll w (ev :: evs) =
    ('(w2, effects2) ← handleAll w1 evs; Some (w2, effects1 ++ effects2)).
Proof. intros H. simpl. by rewrite H. Qed.

(** Every handler returns on a consistent worker, keeps it consistent,
    and requests or clears a timer exactly when it starts or stops
    running. *)
Lemma handle_consistent w ev :
  workerConsistent w →
  ∃ w' effects,
    handle w ev = Some (w', effects) ∧ workerConsistent w' ∧
    intervalsSet effects + (if running w then 1 else 0)
      = intervalsCleared effects + (if running w' then 1 else 0).
Proof.
  intros Hw. pose proof Hw as (Hh & He & Hc). destruct ev; simpl.
  - eexists _, _. split; [done|]. split; [|done].
    split; [done|]. split; [by eexists|].
    intros e [= <-]. apply construct_indexConsistent.
  - unfold api_start. destruct (engine w) as [e|] eqn:E.
    + destruct (running w) eqn:Hr.
      * eexists _, _. split; [done|]. split; [exact Hw|by rewrite ?Hr].
      * eexists _, _. split; [done|]. split; [|done].
        split; [by split; [eexists|]|]. simpl. split; [by eexists|].
        intros ? [= <-]. by apply Hc.
    + eexists _, _. split; [done|]. split; [exact Hw|by rewrite ?Hr].
  - unfold api_pause. eexists _, _. split; [done|]. split.
    + split; [|by split]. simpl. split; [done|]. by intros [? ?].
    + simpl. destruct (tickHandle w) as [h|] eqn:Eh;
        destruct (running w) eqn:Hr; simpl; try done.
      * assert (is_Some (Some h)) as Hs%Hh by by eexists. congruence.
      * destruct (proj1 Hh eq_refl) as [? ?]. done.
  - unfold api_step. destruct (engine w) as [e|] eqn:E.
    + destruct (step_is_Some e (indexConsistent_inRange e (Hc e eq_refl)))
        as [e' Hs].
      rewrite Hs. simpl. eexists _, _. split; [done|]. split.
      * split; [done|]. split; [by eexists|]. simpl. intros ? [= <-].
        eapply step_indexConsistent; [done|]. by apply Hc.
      * reflexivity.
    + eexists _, _. split; [done|]. split; [exact Hw|by rewrite ?Hr].
  - unfold api_applyImpulse. destruct (engine w) as [e|] eqn:E.
    + destruct (applyImpulse_is_Some objectId impulseVec e
                  (indexConsistent_inRange e (Hc e eq_refl))) as [e' Hs].
      rewrite Hs. simpl. eexists _, _. split; [done|]. split.
      * split; [done|]. split; [by eexists|]. simpl. intros ? [= <-].
        eapply applyImpulse_indexConsistent; [done|]. by apply Hc.
      * reflexivity.
    + eexists _, _. split; [done|]. split; [exact Hw|by rewrite ?Hr].
  - unfold loopTick. destruct (engine w) as [e|] eqn:E.
    + destruct (running w) eqn:Hr; simpl.
      * destruct (step_is_Some e (indexConsistent_inRange e (Hc e eq_refl)))
          as [e' Hs].
        rewrite Hs. simpl.
        assert (He' : indexConsistent e').
        { eapply step_indexConsistent; [done|]. by apply Hc. }
        assert (Hw' : ∀ t, workerConsistent
                  (setLastSnapshotTime (setEngine w e') t)
                ∧ workerConsistent (setEngine w e')).
        { intros t. split; (split; [exact (proj1 Hw)|]); (split; [by eexists|]);
            simpl; by intros ? [= <-]. }
        destruct (leb _ _); eexists _, _; (split; [done|]);
          (split; [apply Hw'; exact zero|]); simpl; by rewrite Hr.
      * eexists _, _. split; [done|]. split; [exact Hw|by rewrite ?Hr].
    + eexists _, _. split; [done|]. split; [exact Hw|by rewrite ?Hr].
Qed.

Lemma initialWorker_consistent : workerConsistent (num := num) initialWorker.
Proof.
  split; [|split]; simpl; [|done|done].
  split; [done|]. by intros [? ?].
Qed.

Lemma intervalsSet_app effects1 effects2 :
  intervalsSet (effects1 ++ effects2)
    = intervalsSet effects1 + intervalsSet effects2.
Proof. unfold intervalsSet. by rewrite omap_app, length_app. Qed.

Lemma intervalsCleared_app effects1 effects2 :
  intervalsCleared (effects1 ++ effects2)
    = intervalsCleared effects1 + intervalsCleared effects2.
Proof. unfold intervalsCleared. by rewrite omap_app, length_app. Qed.

Lemma handleAll_consistent w evs :
  workerConsistent w →
  ∃ w' effects,
    handleAll w evs = Some (w', effects) ∧ workerConsistent w' ∧
    intervalsSet effects + (if running w then 1 else 0)
      = intervalsCleared effects + (if running w' then 1 else 0).
Proof.
  revert w. induction evs as [|ev evs IH]; intros w Hw.
  - exists w, []. split; [done|]. split; [exact Hw|done].
  - destruct (handle_consistent w ev Hw) as (w1 & effects1 & H1 & Hw1 & Hn1).
    destruct (IH w1 Hw1) as (w2 & effects2 & H2 & Hw2 & Hn2).
    exists w2, (effects1 ++ effects2).
    rewrite (handleAll_cons _ _ _ _ _ H1), H2. simpl.
    split; [done|]. split; [done|].
    rewrite intervalsSet_app, intervalsCleared_app. lia.
Qed.

(** X20. From its initial state the worker handles every sequence of
    commands and timer ticks without a throw, and afterwards it holds a
    timer handle exactly when it is running, is running only with an
    engine, and the timers it has requested are those it has cleared plus
    one if it is running: interval timers never pile up. *)
Theorem worker_holds_one_timer evs :
  ∃ w effects,
    handleAll initialWorker evs = Some (w, effects) ∧
    (running w = true ↔ is_Some (tickHandle w)) ∧
    (running w = true → is_Some (engine w)) ∧
    intervalsSet effects
      = intervalsCleared effects + (if running w then 1 else 0).
Proof.
  destruct (handleAll_consistent initialWorker evs initialWorker_consistent)
    as (w & effects & H & (Hh & He & _) & Hn).
  exists w, effects. simpl in Hn. rewrite Nat.add_0_r in Hn. done.
Qed.

Lemma loopTick_not_running now w :
  running w = false → loopTick now w = Some (w, []).
Proof. intros Hr. unfold loopTick. rewrite Hr. by destruct (engine w). Qed.

(** X21. A worker that is not running ignores timer ticks: after [pause()]
    (or before [start()]) any number of ticks leaves the worker, and so
    the engine, as it is, and posts nothing. *)
Theorem ticks_after_pause_do_nothing w (nows : list num) :
  let paused :=
    {| engine := engine w; running := false; tickHandle := None;
       snapshotIntervalMs := snapshotIntervalMs w;
       lastSnapshotTime := lastSnapshotTime w |} in
  (∃ effects, api_pause w = Some (paused, effects)) ∧
  handleAll paused (Tick <$> nows) = Some (paused, []).
Proof.
  simpl. split; [by eexists|].
  induction nows as [|now nows IH]; [done|].
  cbn [fmap list_fmap]. erewrite handleAll_cons.
  2:{ by apply loopTick_not_running. }
  fold (fmap (M := list) (@Tick num)). by rewrite IH.
Qed.

(** X22. Before [init()] the worker does nothing but acknowledge
    [pause()]: a sequence of events without an init leaves the initial
    state as it is, and posts one "paused" message per pause and nothing
    else (no "started", no snapshot, no timer). *)
Theorem before_init_only_pause_answers evs :
  Forall (λ ev, isInit ev = false) evs →
  handleAll initialWorker evs
    = Some (initialWorker,
            replicate (length (filter isPause evs)) (PostMessage MsgPaused)).
Proof.
  induction 1 as [|ev evs Hev _ IH]; [done|].
  assert (Hquiet : isPause ev = false →
            handle initialWorker ev = Some (initialWorker, [])).
  { by destruct ev. }
  destruct (isPause ev) eqn:Hp.
  - destruct ev; try done.
    rewrite (handleAll_cons initialWorker Pause evs initialWorker
               [PostMessage MsgPaused] eq_refl).
    by rewrite IH, filter_cons_True by done.
  - rewrite (handleAll_cons initialWorker ev evs initialWorker [] (Hquiet eq_refl)).
    rewrite IH, filter_cons_False; [done|]. by apply Is_true_false_2.
Qed.

(** X23. While the worker is running, every timer tick runs exactly one
    engine step: after n ticks the step index has grown by n, the worker
    is still running, and at most n snapshots have been posted. *)
Theorem ticks_step_once w e (nows : list num) :
  workerConsistent w → engine w = Some e → running w = true →
  ∃ w' e' effects,
    handleAll w (Tick <$> nows) = Some (w', effects) ∧
    engine w' = Some e' ∧ running w' = true ∧
    stepIndex (state e') = (stepIndex (state e) + Z.of_nat (length nows))%Z ∧
    length (snapshotsPosted effects) ≤ length nows.
Proof.
  revert w e. induction nows as [|now nows IH]; intros w e Hw He Hr.
  - exists w, e, []. simpl. repeat split; [done..|lia|done].
  - destruct Hw as (Hh & Hen & Hc).
    destruct (step_is_Some e (indexConsistent_inRange e (Hc e He))) as [e1 Hs].
    assert (He1 : indexConsistent e1).
    { eapply step_indexConsistent; [done|]. by apply Hc. }
    assert (Hn1 : stepIndex (state e1) = (stepIndex (state e) + 1)%Z).
    { apply step_Some in Hs as [Hi _]. by apply integrate_time in Hi as [_ ?]. }
    assert (Htick : ∃ w1 effects1,
              loopTick now w = Some (w1, effects1) ∧ engine w1 = Some e1 ∧
              running w1 = true ∧ tickHandle w1 = tickHandle w ∧
              length (snapshotsPosted effects1) ≤ 1).
    { unfold loopTick. rewrite He, Hr, Hs. simpl.
      destruct (leb _ _); eexists _, _; (split; [done|]); simpl;
        repeat split; try done; unfold postSnapshot; simpl; lia. }
    destruct Htick as (w1 & effects1 & Ht & He1' & Hr1 & Hh1 & Hl1).
    destruct (IH w1 e1) as (w' & e' & effects & Hall & He' & Hr' & Hn & Hl);
      [|done|done|].
    { split; [rewrite Hr1, Hh1; rewrite Hr in Hh; exact Hh|]. split; [by rewrite He1'; eexists|].
      intros ? Heq. rewrite He1' in Heq. by injection Heq as <-. }
    exists w', e', (effects1 ++ effects).
    cbn [fmap list_fmap]. erewrite handleAll_cons by exact Ht.
    fold (fmap (M := list) (@Tick num)). rewrite Hall. simpl.
    split; [done|]. split; [done|]. split; [done|]. split; [lia|].
    unfold snapshotsPosted in *. rewrite omap_app, length_app. lia.
Qed.
End WorkerFacts.

Section WorkerThrottle.
Local Open Scope R_scope.
Implicit Types (w : Worker R) (nows : list R).

Lemma loopTick_throttle now w w1 effects1 :
  loopTick now w = Some (w1, effects1) →
  snapshotIntervalMs w1 = snapshotIntervalMs w ∧
  ((effects1 = [] ∧ lastSnapshotTime w1 = lastSnapshotTime w) ∨
   (length (snapshotsPosted effects1) = 1%nat ∧ lastSnapshotTime w1 = now ∧
    snapshotIntervalMs w <= now - lastSnapshotTime w)).
Proof.
  unfold loopTick. destruct (engine w) as [e|]; [|intros [= <- <-]; auto].
  destruct (running w); simpl; [|intros [= <- <-]; auto].
  destruct (step e) as [e1|]; [|done]. simpl.
  unfold Rleb. destruct (Rle_dec _ _) as [Hle|_]; intros [= <- <-]; auto.
Qed.

Lemma ticks_throttle w nows w' effects :
  handleAll w (Tick <$> nows) = Some (w', effects) →
  INR (length (snapshotsPosted effects)) * snapshotIntervalMs w
    <= lastSnapshotTime w' - lastSnapshotTime w ∧
  (lastSnapshotTime w' = lastSnapshotTime w ∨ lastSnapshotTime w' ∈ nows).
Proof.
  revert w effects. induction nows as [|now nows IH]; intros w effects.
  - intros [= <- <-]. simpl. split; [lra|by left].
  - cbn [fmap list_fmap handleAll]. fold (fmap (M := list) (@Tick R)).
    destruct (handle w (Tick now)) as [[w1 effects1]|] eqn:H1; [|done].
    cbn [mbind option_bind].
    destruct (handleAll w1 (Tick <$> nows)) as [[w2 effects2]|] eqn:H2; [|done].
    intros [= <- <-]. simpl in H1.
    apply loopTick_throttle in H1 as [Hi Hcase].
    apply IH in H2 as [Hk Hlast]. rewrite Hi in Hk.
    unfold snapshotsPosted in *. rewrite omap_app, length_app, plus_INR.
    destruct Hcase as [[-> Hl]|(Hn & Hl & Hle)].
    + simpl. rewrite Hl in Hk, Hlast. split; [lra|].
      destruct Hlast as [?|?]; [by left|right]. by apply elem_of_cons; right.
    + rewrite Hn. simpl. rewrite Hl in Hk, Hlast. split; [lra|].
      right. apply elem_of_cons. destruct Hlast as [?|?]; [by left|by right].
Qed.

(** X24. Snapshots posted by timer ticks are throttled: a worker handles
    any run of ticks, and k posted snapshots move the time of the last
    snapshot forward by at least k times the snapshot interval; that
    time is the clock reading of one of the ticks, or has not moved. *)
Theorem tick_snapshots_are_throttled w nows :
  workerConsistent w →
  ∃ w' effects,
    handleAll w (Tick <$> nows) = Some (w', effects) ∧
    INR (length (snapshotsPosted effects)) * snapshotIntervalMs w
      <= lastSnapshotTime w' - lastSnapshotTime w ∧
    (lastSnapshotTime w' = lastSnapshotTime w ∨ lastSnapshotTime w' ∈ nows).
Proof.
  intros Hw.
  destruct (handleAll_consistent w (Tick <$> nows) Hw) as (w' & effects & H & _).
  exists w', effects. split; [exact H|]. by apply ticks_throttle.
Qed.
End WorkerThrottle.

(** ** Instances *)

Section FurtherWitnesses.
Local Open Scope R_scope.

Lemma unit_identity : quatNorm (Quat 0 0 0 1) = 1.
Proof.
  unfold quatNorm. simpl.
  replace (0 * 0 + 0 * 0 + 0 * 0 + 1 * 1) with 1 by ring. apply sqrt_1.
Qed.

Lemma dangling_unresolved name :
  Forall (unresolved (construct (Still.scene name [Sample.dangling])))
         (springs (construct (Still.scene name [Sample.dangling]))).
Proof. constructor; [right; reflexivity|constructor]. Qed.

Lemma euler_versus_semi_implicit_witness :
  let e := construct (Sample.scene rk4 [Sample.link]) in
  indexConsistent e ∧
  ∃ eE eS, step (withIntegrator e euler) = Some eE ∧
           step (withIntegrator e semi) = Some eS.
Proof.
  intros e.
  assert (Hc : indexConsistent e) by apply construct_indexConsistent.
  split; [exact Hc|].
  destruct (euler_versus_semi_implicit e Hc) as (d & eE & eS & _ & HE & HS & _).
  exists eE, eS. split; [exact HE|exact HS].
Defined.

Lemma rk4_is_semi_implicit_without_drag_witness :
  let e := construct (Still.scene euler [Sample.dangling]) in
  (indexConsistent e ∧ forces e ≫= linearDrag = None ∧
   Forall (unresolved e) (springs e)) ∧
  ∃ e4 eS, step (withIntegrator e rk4) = Some e4 ∧
           step (withIntegrator e semi) = Some eS ∧ state e4 = state eS.
Proof.
  intros e.
  assert (Hc : indexConsistent e) by apply construct_indexConsistent.
  assert (Hu : Forall (unresolved e) (springs e)) by apply dangling_unresolved.
  split; [split; [exact Hc|split; [reflexivity|exact Hu]]|].
  exact (rk4_is_semi_implicit_without_drag e Hc eq_refl Hu).
Defined.

Lemma step_rotation_witness :
  let e := construct (Sample.scene semi [Sample.link]) in
  indexConsistent e ∧
  ∃ e', step e = Some e' ∧
        rb_angularVelocity <$> rigidBodies (state e') = [V3 0 0 1].
Proof.
  intros e.
  assert (Hc : indexConsistent e) by apply construct_indexConsistent.
  split; [exact Hc|].
  destruct (step_rotation e Hc) as (e' & Hs & Hw & _).
  exists e'. split; [exact Hs|exact Hw].
Defined.

Lemma free_motion_is_uniform_witness :
  let e := construct (Sample.scene rk4 [Sample.dangling]) in
  (indexConsistent e ∧ forces e ≫= gravity = None ∧
   forces e ≫= linearDrag = None ∧ Forall (unresolved e) (springs e)) ∧
  ∃ e', step e = Some e' ∧
    pointMasses (state e') !! 0%nat =
      Some {| pm_id := "a"; pm_mass := 2;
              pm_position := vecAdd Sample.origin (vecScale (V3 1 0 0) (1 / 100));
              pm_velocity := V3 1 0 0 |}.
Proof.
  intros e.
  assert (Hc : indexConsistent e) by apply construct_indexConsistent.
  assert (Hu : Forall (unresolved e) (springs e)).
  { constructor; [right; reflexivity|constructor]. }
  split; [split; [exact Hc|split; [reflexivity|split; [reflexivity|exact Hu]]]|].
  destruct (free_motion_is_uniform e Hc eq_refl eq_refl Hu) as (e' & Hs & Hp & _).
  exists e'. split; [exact Hs|]. exact (Hp 0%nat _ eq_refl).
Defined.

Lemma still_body_keeps_orientation_witness :
  let e := construct (Still.scene rk4 [Still.loop]) in
  let r := {| rb_id := "crate"; rb_mass := 2; rb_size := V3 1 1 1;
              rb_position := Sample.origin; rb_velocity := V3 1 0 0;
              rb_orientation := Quat 0 0 0 1;
              rb_angularVelocity := V3 0 0 0 |} in
  (indexConsistent e ∧ rigidBodies (state e) !! 0%nat = Some r ∧
   rb_angularVelocity r = V3 0 0 0 ∧ quatNorm (rb_orientation r) = 1) ∧
  ∃ e' r', steps 5 e = Some e' ∧
    rigidBodies (state e') !! 0%nat = Some r' ∧
    rb_orientation r' = Quat 0 0 0 1.
Proof.
  intros e r.
  assert (Hc : indexConsistent e) by apply construct_indexConsistent.
  assert (Hq : quatNorm (rb_orientation r) = 1) by apply unit_identity.
  split; [split; [exact Hc|split; [reflexivity|split; [reflexivity|exact Hq]]]|].
  destruct (still_body_keeps_orientation 5 e 0 r Hc eq_refl eq_refl Hq)
    as (e' & r' & Hs & Hr & Ho & _).
  exists e', r'. split; [exact Hs|]. split; [exact Hr|exact Ho].
Defined.

Lemma applyImpulse_rigid_body_witness :
  let e := construct (Sample.scene semi [Sample.link]) in
  let r := {| rb_id := "box"; rb_mass := 1; rb_size := V3 1 1 1;
              rb_position := Sample.origin; rb_velocity := Sample.origin;
              rb_orientation := Quat 0 0 0 1;
              rb_angularVelocity := V3 0 0 1 |} in
  (indexConsistent e ∧ ("box" ∉ pm_id <$> pointMasses (state e)) ∧
   rigidBodies (state e) !! 0%nat = Some r ∧ rb_id r = "box" ∧
   (∀ j r0, (j < 0)%nat →
            rigidBodies (state e) !! j = Some r0 → rb_id r0 ≠ "box")) ∧
  ∃ e' r', applyImpulse "box" (V3 0 3 0) e = Some e' ∧
    rigidBodies (state e') !! 0%nat = Some r' ∧
    v1 (rb_velocity r') = v1 (rb_velocity r) + 3 / rb_mass r.
Proof.
  intros e r.
  assert (Hc : indexConsistent e) by apply construct_indexConsistent.
  assert (Hp : "box" ∉ pm_id <$> pointMasses (state e)).
  { intros [H|[H|H]%elem_of_cons]%elem_of_cons; [done|done|].
    by apply elem_of_nil in H. }
  assert (Hfirst : ∀ j r0, (j < 0)%nat →
            rigidBodies (state e) !! j = Some r0 → rb_id r0 ≠ "box").
  { intros j r0 Hj. lia. }
  split.
  { split; [exact Hc|]. split; [exact Hp|]. split; [reflexivity|].
    split; [reflexivity|exact Hfirst]. }
  destruct (applyImpulse_rigid_body e "box" (V3 0 3 0) 0 r Hc Hp eq_refl eq_refl
              Hfirst) as (e' & r' & Ha & Hr & _ & Hv & _).
  exists e', r'. split; [exact Ha|]. split; [exact Hr|exact Hv].
Defined.

Lemma applyImpulse_prefers_point_mass_witness :
  let e := construct (Sample.scene semi [Sample.link]) in
  (indexConsistent e ∧ "a" ∈ pm_id <$> pointMasses (state e)) ∧
  ∃ e', applyImpulse "a" (V3 0 3 0) e = Some e' ∧
        rigidBodies (state e') = rigidBodies (state e).
Proof.
  intros e.
  assert (Hc : indexConsistent e) by apply construct_indexConsistent.
  assert (Hin : "a" ∈ pm_id <$> pointMasses (state e)).
  { apply elem_of_cons. by left. }
  split; [split; [exact Hc|exact Hin]|].
  exact (applyImpulse_prefers_point_mass e "a" (V3 0 3 0) Hc Hin).
Defined.

Lemma impulses_add_up_witness :
  let e := construct (Sample.scene semi [Sample.link]) in
  indexConsistent e ∧
  applyImpulse "a" (V3 0 3 0) e ≫= applyImpulse "a" (V3 1 0 0)
    = applyImpulse "a" (vecAdd (V3 0 3 0) (V3 1 0 0)) e.
Proof.
  intros e.
  assert (Hc : indexConsistent e) by apply construct_indexConsistent.
  split; [exact Hc|].
  exact (proj1 (impulses_add_up e "a" (V3 0 3 0) (V3 1 0 0) Hc)).
Defined.

Lemma coincident_spring_exerts_no_force_witness :
  let e := construct (Still.scene euler [Still.loop]) in
  let a := {| pm_id := "a"; pm_mass := 2; pm_position := Sample.origin;
              pm_velocity := V3 1 0 0 |} in
  (pointMassIndexById e !! aId Still.loop = Some 0%nat ∧
   pointMassIndexById e !! bId Still.loop = Some 0%nat ∧
   pointMasses (state e) !! 0%nat = Some a ∧
   pm_position a = pm_position a ∧
   length [V3 0 (- 10) 0] = length (pointMasses (state e))) ∧
  springBody e (state e) [V3 0 (- 10) 0] Still.loop = Some [V3 0 (- 10) 0].
Proof.
  intros e a.
  split; [repeat split; reflexivity|].
  exact (coincident_spring_exerts_no_force e (state e) Still.loop 0 0 a a
           [V3 0 (- 10) 0] eq_refl eq_refl eq_refl eq_refl eq_refl eq_refl).
Defined.

Lemma spring_force_direction_witness :
  let e := construct (Sample.scene euler [Sample.link]) in
  let a := {| pm_id := "a"; pm_mass := 2; pm_position := Sample.origin;
              pm_velocity := V3 1 0 0 |} in
  let b := {| pm_id := "b"; pm_mass := 3; pm_position := V3 4 0 0;
              pm_velocity := Sample.origin |} in
  let delta := vecSub (pm_position b) (pm_position a) in
  (pointMassIndexById e !! aId Sample.link = Some 0%nat ∧
   pointMassIndexById e !! bId Sample.link = Some 1%nat ∧ 0%nat ≠ 1%nat ∧
   pointMasses (state e) !! 0%nat = Some a ∧
   pointMasses (state e) !! 1%nat = Some b ∧
   damping Sample.link = None ∧ 0 < stiffness Sample.link ∧
   0 < pm_mass a ∧ 0 < pm_mass b ∧ 0 < vecLength delta ∧
   restLength Sample.link < vecLength delta) ∧
  ∃ accs' accA' accB',
    springBody e (state e) [vecZero; vecZero] Sample.link = Some accs' ∧
    accs' !! 0%nat = Some accA' ∧ accs' !! 1%nat = Some accB' ∧
    v0 accA' = - 15 ∧ v0 accB' = 10 ∧
    vecDot (vecSub accA' vecZero) delta < 0 ∧
    0 < vecDot (vecSub accB' vecZero) delta.
Proof.
  intros e a b delta.
  assert (Hne : 0%nat ≠ 1%nat) by lia.
  assert (Hk : 0 < stiffness Sample.link) by (simpl; lra).
  assert (Hma : 0 < pm_mass a) by (simpl; lra).
  assert (Hmb : 0 < pm_mass b) by (simpl; lra).
  assert (Hsq : R_sqrt.sqrt ((4 - 0) * (4 - 0) + (0 - 0) * (0 - 0)
                             + (0 - 0) * (0 - 0)) = 4).
  { replace ((4 - 0) * (4 - 0) + (0 - 0) * (0 - 0) + (0 - 0) * (0 - 0))
      with (4 * 4) by ring.
    apply sqrt_square. lra. }
  assert (Hlen : vecLength delta = 4) by exact Hsq.
  assert (Hpos : 0 < vecLength delta) by (rewrite Hlen; lra).
  assert (Hlong : restLength Sample.link < vecLength delta).
  { rewrite Hlen. simpl. lra. }
  split.
  { split; [reflexivity|]. split; [reflexivity|]. split; [exact Hne|].
    split; [reflexivity|]. split; [reflexivity|]. split; [reflexivity|].
    split; [exact Hk|]. split; [exact Hma|]. split; [exact Hmb|].
    split; [exact Hpos|exact Hlong]. }
  destruct (spring_force_direction e (state e) Sample.link 0 1 a b
              [vecZero; vecZero] vecZero vecZero
              eq_refl eq_refl Hne eq_refl eq_refl eq_refl eq_refl eq_refl
              Hk Hma Hmb Hpos)
    as (accs' & accA' & accB' & Hbody & HA & HB & Hforce & Hstretched & _).
  destruct (Hforce v0) as [HFa HFb]; [apply elem_of_cons; by left|].
  simpl in HFa, HFb. rewrite Hsq in HFa, HFb.
  exists accs', accA', accB'.
  split; [exact Hbody|]. split; [exact HA|]. split; [exact HB|].
  split; [rewrite HFa; lra|]. split; [rewrite HFb; lra|].
  exact (Hstretched Hlong).
Defined.

Lemma runningWorker_consistent : workerConsistent Still.runningWorker.
Proof.
  split; [|split].
  - split; [by eexists|done].
  - by eexists.
  - intros e [= <-]. apply construct_indexConsistent.
Qed.

Lemma before_init_only_pause_answers_witness :
  let evs := [Start 1%Z; Pause; Tick 20; Step; Pause] in
  Forall (λ ev, isInit ev = false) evs ∧
  handleAll (num := R) initialWorker evs
    = Some (initialWorker, [PostMessage MsgPaused; PostMessage MsgPaused]).
Proof.
  intros evs.
  assert (H : Forall (λ ev : Event R, isInit ev = false) evs).
  { repeat constructor. }
  split; [exact H|]. exact (before_init_only_pause_answers evs H).
Defined.

Lemma ticks_step_once_witness :
  let w := Still.runningWorker in
  (workerConsistent w ∧
   engine w = Some (construct (Still.scene semi [Still.loop])) ∧
   running w = true) ∧
  ∃ w' e' effects,
    handleAll w (Tick <$> [10; 20; 60]) = Some (w', effects) ∧
    engine w' = Some e' ∧ stepIndex (state e') = 3%Z.
Proof.
  intros w.
  assert (Hw : workerConsistent w) by apply runningWorker_consistent.
  split; [split; [exact Hw|split; reflexivity]|].
  destruct (ticks_step_once w _ [10; 20; 60] Hw eq_refl eq_refl)
    as (w' & e' & effects & H & He & _ & Hn & _).
  exists w', e', effects. split; [exact H|]. split; [exact He|exact Hn].
Defined.

Lemma tick_snapshots_are_throttled_witness :
  let w := Still.runningWorker in
  workerConsistent w ∧
  ∃ w' effects,
    handleAll w (Tick <$> [10; 20; 60]) = Some (w', effects) ∧
    INR (length (snapshotsPosted effects)) * 50
      <= lastSnapshotTime w' - 0.
Proof.
  intros w.
  assert (Hw : workerConsistent w) by apply runningWorker_consistent.
  split; [exact Hw|].
  destruct (tick_snapshots_are_throttled w [10; 20; 60] Hw)
    as (w' & effects & H & Hk & _).
  exists w', effects. split; [exact H|exact Hk].
Defined.
End FurtherWitnesses.
